(** * The AssemblyScript compiler core ([src/compiler.ts]), shallowly embedded.

    The [Compiler] class is a single mutable object that threads its state
    through every method.  It is modelled as a record [Compiler] and every
    method as a computation in the monad [M], which passes that record along
    and aborts where the source throws (a failed [assert], a property access
    on [undefined]).

    The collaborators that [compiler.ts] imports (the IR builder, the AST,
    the program model, the type lattice, the 64-bit glue, the byte writers)
    are modelled only as far as the embedded methods use them; each such
    definition says so. *)

From Stdlib Require Import ZArith List String Bool Lia.
From stdpp Require Import base option list gmap strings pretty.

Local Open Scope string_scope.
Local Open Scope Z_scope.

(** ** 64-bit glue ([i64_new], [i64_add], [i64_align], ...) *)

Module I64.

Definition wrap32 (z : Z) : Z := (z + 2 ^ 31) mod 2 ^ 32 - 2 ^ 31.
Definition wrap64 (z : Z) : Z := (z + 2 ^ 63) mod 2 ^ 64 - 2 ^ 63.

(** Modelled from the spec: the glue functions on [I64] values are not part
    of [compiler.ts].  An [I64] is a signed 64-bit integer, built from two
    32-bit halves and wrapping around on overflow. *)
Definition i64_new (lo hi : Z) : Z := wrap64 (lo mod 2 ^ 32 + 2 ^ 32 * (hi mod 2 ^ 32)).
Definition i64_low (v : Z) : Z := wrap32 v.
Definition i64_high (v : Z) : Z := wrap32 (Z.shiftr v 32).
Definition i64_add (a b : Z) : Z := wrap64 (a + b).
Definition i64_shr_u (a b : Z) : Z := wrap64 (Z.shiftr (a mod 2 ^ 64) (b mod 64)).
Definition i64_is_u32 (v : Z) : bool := i64_high v =? 0.

(** Modelled from the spec: "each segment is aligned to a requested
    boundary before placement"; the glue adds the mask [alignment - 1] and
    clears the mask's bits. *)
Definition i64_align (value alignment : Z) : Z :=
  let mask := alignment - 1 in
  wrap64 (Z.land (wrap64 (value + mask)) (Z.lnot mask)).

(** The mathematical rounding that [i64_align] is compared with. *)
Definition align_up (value alignment : Z) : Z :=
  alignment * ((value + alignment - 1) / alignment).

End I64.

(** ** Byte buffers ([Uint8Array]) and the little-endian writers *)

Module Buffer.

(** A [Uint8Array]: every element is a byte, a store keeps the low eight
    bits, and a store outside the array is ignored. *)
Abbreviation Uint8Array := (list Z).

Definition create (n : Z) : Uint8Array := replicate (Z.to_nat n) 0.

Definition set (buf : Uint8Array) (offset value : Z) : Uint8Array :=
  if offset <? 0 then buf else <[Z.to_nat offset := Z.land value 255]> buf.

(** Modelled from the spec: [writeI16] and [writeI32] of [util] are not
    under [src/]; they store the value byte by byte, lowest byte first,
    which is the byte order of WebAssembly memory. *)
Definition writeI16 (value : Z) (buf : Uint8Array) (offset : Z) : Uint8Array :=
  set (set buf offset value) (offset + 1) (Z.shiftr value 8).

Definition writeI32 (value : Z) (buf : Uint8Array) (offset : Z) : Uint8Array :=
  set (set (set (set buf offset value)
                (offset + 1) (Z.shiftr value 8))
           (offset + 2) (Z.shiftr value 16))
      (offset + 3) (Z.shiftr value 24).

(** The bytes of a 16-bit and of a 32-bit value, lowest first. *)
Definition le16 (v : Z) : list Z := [Z.land v 255; Z.land (Z.shiftr v 8) 255].
Definition le32 (v : Z) : list Z :=
  [Z.land v 255; Z.land (Z.shiftr v 8) 255;
   Z.land (Z.shiftr v 16) 255; Z.land (Z.shiftr v 24) 255].

End Buffer.

(** ** The IR builder ([module.ts]) *)

Module NativeType.
Inductive t := None | I32 | I64 | F32 | F64.
End NativeType.

Inductive UnaryOp :=
| EqzI32 | ExtendI8ToI32 | ExtendI16ToI32 | ExtendI32 | ExtendU32 | WrapI64
| PromoteF32 | DemoteF64
| TruncF32ToI32 | TruncF32ToI64 | TruncF32ToU32 | TruncF32ToU64
| TruncF64ToI32 | TruncF64ToI64 | TruncF64ToU32 | TruncF64ToU64
| ConvertI32ToF32 | ConvertU32ToF32 | ConvertI64ToF32 | ConvertU64ToF32
| ConvertI32ToF64 | ConvertU32ToF64 | ConvertI64ToF64 | ConvertU64ToF64.

Inductive BinaryOp :=
| AddI32 | SubI32 | AndI32 | ShlI32 | ShrI32 | ShrU32
| ShlI64 | ShrI64 | ShrU64.

Inductive ExpressionId :=
| IdBlock | IdSwitch | IdCall | IdCallImport | IdGetLocal | IdSetLocal
| IdGetGlobal | IdSetGlobal | IdConst | IdUnary | IdBinary | IdDrop
| IdNop | IdUnreachable.

Set Warnings "-register-all".

(** Modelled from the spec: the IR builder "creates nodes (binary, unary,
    load, store, get/set local/global, call, call_indirect, block, if, loop,
    break, switch, drop), precomputes constants, finalises functions".
    An [ExpressionRef] points to a node of the IR; the node is modelled by
    its tree.  Float constants carry the integer they were created from
    (the embedded code only creates the constant zero). *)
Inductive ExpressionRef :=
| Unreachable
| Nop
| ConstI32 (value : Z)
| ConstI64 (low high : Z)
| ConstF32 (value : Z)
| ConstF64 (value : Z)
| Unary (op : UnaryOp) (value : ExpressionRef)
| Binary (op : BinaryOp) (left right : ExpressionRef)
| GetLocal (index : Z) (type : NativeType.t)
| SetLocal (index : Z) (value : ExpressionRef)
| GetGlobal (name : string) (type : NativeType.t)
| SetGlobal (name : string) (value : ExpressionRef)
| Call (target : string) (operands : list ExpressionRef) (type : NativeType.t)
| CallImport (target : string) (operands : list ExpressionRef) (type : NativeType.t)
| Block (label : option string) (children : list ExpressionRef) (type : NativeType.t)
| Switch (names : list string) (defaultName : string) (condition : ExpressionRef)
| Drop (value : ExpressionRef).

Definition getExpressionId (e : ExpressionRef) : ExpressionId :=
  match e with
  | Unreachable => IdUnreachable
  | Nop => IdNop
  | ConstI32 _ | ConstI64 _ _ | ConstF32 _ | ConstF64 _ => IdConst
  | Unary _ _ => IdUnary
  | Binary _ _ _ => IdBinary
  | GetLocal _ _ => IdGetLocal
  | SetLocal _ _ => IdSetLocal
  | GetGlobal _ _ => IdGetGlobal
  | SetGlobal _ _ => IdSetGlobal
  | Call _ _ _ => IdCall
  | CallImport _ _ _ => IdCallImport
  | Block _ _ _ => IdBlock
  | Switch _ _ _ => IdSwitch
  | Drop _ => IdDrop
  end.

Definition isConst (e : ExpressionRef) : bool :=
  match getExpressionId e with IdConst => true | _ => false end.

Definition isShrU32 (e : ExpressionRef) : bool :=
  match e with Binary ShrU32 _ _ => true | _ => false end.

Record MemorySegment := {
  buffer : Buffer.Uint8Array;
  offset : Z                      (* an I64 *)
}.

Record GlobalDef := {
  global_name : string;
  global_type : NativeType.t;
  global_mutable : bool;
  global_init : ExpressionRef
}.

Record FunctionTypeDef := {
  functionType_name : string;
  functionType_result : NativeType.t;
  functionType_params : list NativeType.t
}.

Record FunctionDef := {
  function_name : string;
  function_type : Z;              (* a FunctionTypeRef *)
  function_locals : list NativeType.t;
  function_body : ExpressionRef
}.

Inductive Target := WASM32 | WASM64.

Record MemoryDef := {
  memory_initial : Z;
  memory_maximum : Z;
  memory_segments : list MemorySegment;
  memory_target : Target;
  memory_exportName : string
}.

(** Modelled from the spec: the module is "populated with function types,
    function bodies, imports, exports, globals, memory segments".
    [created] records every node a [create...] call has handed out, oldest
    first. *)
Record Module := {
  created : list ExpressionRef;
  globals : list GlobalDef;
  functionTypes : list FunctionTypeDef;
  functions : list FunctionDef;
  functionExports : list (string * string);
  memory : option MemoryDef
}.

Definition Module_create : Module :=
  {| created := []; globals := []; functionTypes := []; functions := [];
     functionExports := []; memory := None |}.

(** Modelled from the spec: "Maximum pages: target-specific constant". *)
Definition MAX_MEMORY_WASM32 : Z := 65535.
Definition MAX_MEMORY_WASM64 : Z := 65535.

(** ** Flags, types and the program model *)

(** Flag sets are bit sets, as in the source.  [Flags.is_] is the [is] method
    of elements, types and flows; [Flags.isAny] is [isAny]. *)
Module Flags.
Definition is_ (flags flag : Z) : bool := Z.land flags flag =? flag.
Definition isAny (flags flag : Z) : bool := negb (Z.land flags flag =? 0).
Definition set (flags flag : Z) : Z := Z.lor flags flag.
End Flags.

(** Modelled from the spec: the bit of each flag is fixed in [common.ts],
    which is not under [src/]; what matters is that they are distinct bits. *)
Module CommonFlags.
Definition NONE : Z := 0.
Definition EXPORT : Z := Z.shiftl 1 1.
Definition CONST : Z := Z.shiftl 1 3.
Definition STATIC : Z := Z.shiftl 1 5.
Definition READONLY : Z := Z.shiftl 1 6.
Definition PRIVATE : Z := Z.shiftl 1 9.
Definition AMBIENT : Z := Z.shiftl 1 14.
Definition GENERIC : Z := Z.shiftl 1 15.
Definition INSTANCE : Z := Z.shiftl 1 17.
Definition CONSTRUCTOR : Z := Z.shiftl 1 18.
Definition MODULE_IMPORT : Z := Z.shiftl 1 21.
Definition COMPILED : Z := Z.shiftl 1 23.
Definition INLINED : Z := Z.shiftl 1 24.
Definition TRAMPOLINE : Z := Z.shiftl 1 26.
Definition MAIN : Z := Z.shiftl 1 28.
End CommonFlags.

Module Feature.
Definition NONE : Z := 0.
Definition SIGN_EXTENSION : Z := Z.shiftl 1 0.
Definition MUTABLE_GLOBAL : Z := Z.shiftl 1 1.
End Feature.

Inductive ConversionKind := ConversionKind_NONE | IMPLICIT | EXPLICIT.
Inductive WrapMode := WrapMode_NONE | WRAP.

Module TypeKind.
Inductive t :=
| I8 | I16 | I32 | I64 | ISIZE | U8 | U16 | U32 | U64 | USIZE | BOOL
| F32 | F64 | VOID.

Definition eqb (a b : t) : bool :=
  match a, b with
  | I8, I8 | I16, I16 | I32, I32 | I64, I64 | ISIZE, ISIZE
  | U8, U8 | U16, U16 | U32, U32 | U64, U64 | USIZE, USIZE
  | BOOL, BOOL | F32, F32 | F64, F64 | VOID, VOID => true
  | _, _ => false
  end.
End TypeKind.

Module TypeFlags.
Definition NONE : Z := 0.
Definition SIGNED : Z := Z.shiftl 1 0.
Definition UNSIGNED : Z := Z.shiftl 1 1.
Definition INTEGER : Z := Z.shiftl 1 2.
Definition FLOAT : Z := Z.shiftl 1 3.
Definition POINTER : Z := Z.shiftl 1 4.
Definition SHORT : Z := Z.shiftl 1 5.
Definition LONG : Z := Z.shiftl 1 6.
Definition VALUE : Z := Z.shiftl 1 7.
Definition REFERENCE : Z := Z.shiftl 1 8.
Definition NULLABLE : Z := Z.shiftl 1 9.
End TypeFlags.

(** Modelled from the spec: "Type - tagged variant over primitive numeric
    kinds plus reference(class).  Each carries flags [...].  Every Type knows
    a byte size, an IR-level native type, a native zero/one".  A reference
    type names its class; [size] is in bits. *)
Module Type_.
Import TypeFlags.

Record t := {
  kind : TypeKind.t;
  flags : Z;
  size : Z;
  classReference : option string
}.

Definition mk (k : TypeKind.t) (f : Z) (s : Z) : t :=
  {| kind := k; flags := f; size := s; classReference := None |}.

Definition i8 := mk TypeKind.I8 (Z.lor SIGNED (Z.lor SHORT (Z.lor INTEGER VALUE))) 8.
Definition i16 := mk TypeKind.I16 (Z.lor SIGNED (Z.lor SHORT (Z.lor INTEGER VALUE))) 16.
Definition i32 := mk TypeKind.I32 (Z.lor SIGNED (Z.lor INTEGER VALUE)) 32.
Definition i64 := mk TypeKind.I64 (Z.lor SIGNED (Z.lor LONG (Z.lor INTEGER VALUE))) 64.
Definition isize32 := mk TypeKind.ISIZE (Z.lor SIGNED (Z.lor INTEGER (Z.lor POINTER VALUE))) 32.
Definition isize64 :=
  mk TypeKind.ISIZE (Z.lor SIGNED (Z.lor LONG (Z.lor INTEGER (Z.lor POINTER VALUE)))) 64.
Definition u8 := mk TypeKind.U8 (Z.lor UNSIGNED (Z.lor SHORT (Z.lor INTEGER VALUE))) 8.
Definition u16 := mk TypeKind.U16 (Z.lor UNSIGNED (Z.lor SHORT (Z.lor INTEGER VALUE))) 16.
Definition u32 := mk TypeKind.U32 (Z.lor UNSIGNED (Z.lor INTEGER VALUE)) 32.
Definition u64 := mk TypeKind.U64 (Z.lor UNSIGNED (Z.lor LONG (Z.lor INTEGER VALUE))) 64.
Definition usize32 := mk TypeKind.USIZE (Z.lor UNSIGNED (Z.lor INTEGER (Z.lor POINTER VALUE))) 32.
Definition usize64 :=
  mk TypeKind.USIZE (Z.lor UNSIGNED (Z.lor LONG (Z.lor INTEGER (Z.lor POINTER VALUE)))) 64.
Definition f32 := mk TypeKind.F32 (Z.lor SIGNED (Z.lor FLOAT VALUE)) 32.
Definition f64 := mk TypeKind.F64 (Z.lor SIGNED (Z.lor LONG (Z.lor FLOAT VALUE))) 64.
Definition void := mk TypeKind.VOID NONE 0.

Definition is_ (ty : t) (flag : Z) : Datatypes.bool := Flags.is_ (flags ty) flag.

Definition byteSize (ty : t) : Z := Z.shiftr (size ty + 7) 3.

Definition toNativeType (ty : t) : NativeType.t :=
  match kind ty with
  | TypeKind.I64 | TypeKind.U64 => NativeType.I64
  | TypeKind.ISIZE | TypeKind.USIZE =>
      if size ty =? 64 then NativeType.I64 else NativeType.I32
  | TypeKind.F32 => NativeType.F32
  | TypeKind.F64 => NativeType.F64
  | TypeKind.VOID => NativeType.None
  | _ => NativeType.I32
  end.

Definition kindToString (k : TypeKind.t) : string :=
  match k with
  | TypeKind.I8 => "i8" | TypeKind.I16 => "i16" | TypeKind.I32 => "i32"
  | TypeKind.I64 => "i64" | TypeKind.ISIZE => "isize"
  | TypeKind.U8 => "u8" | TypeKind.U16 => "u16" | TypeKind.U32 => "u32"
  | TypeKind.U64 => "u64" | TypeKind.USIZE => "usize"
  | TypeKind.BOOL => "bool" | TypeKind.F32 => "f32" | TypeKind.F64 => "f64"
  | TypeKind.VOID => "void"
  end.

Definition toString (ty : t) : string :=
  match classReference ty with
  | Some c => c
  | None => kindToString (kind ty)
  end.

(** Modelled from the spec: the "integer companion used for bitwise
    operations on floats"; an integer type is its own companion. *)
Definition intType (ty : t) : t :=
  match kind ty with
  | TypeKind.F32 => i32
  | TypeKind.F64 => i64
  | _ => ty
  end.

Definition bool := mk TypeKind.BOOL (Z.lor UNSIGNED (Z.lor SHORT (Z.lor INTEGER VALUE))) 1.
End Type_.

(** Modelled from the spec: diagnostics are "structured error/warning
    reporting with source ranges", with "a stable DiagnosticCode per
    condition". *)
Record Range := { range_start : Z; range_end : Z }.

Inductive DiagnosticCode :=
| Operation_not_supported
| Type_0_is_not_assignable_to_type_1
| Conversion_from_type_0_to_1_requires_an_explicit_cast
| The_0_operator_cannot_be_applied_to_type_1
| Optional_parameter_must_have_an_initializer
| Enum_member_must_have_initializer
| In_const_enum_declarations_member_initializer_must_be_constant_expression.

Inductive DiagnosticCategory := INFO | WARNING | ERROR.

Module DiagnosticMessage.
Record t := {
  code : DiagnosticCode;
  category : DiagnosticCategory;
  range : Range;
  args : list string
}.
End DiagnosticMessage.

(** ** The AST ([ast.ts]) *)

Module NodeKind.
Inductive t :=
| ASSERTION | BINARY | CALL | COMMA | ELEMENTACCESS | FUNCTION
| IDENTIFIER | FALSE | NULL | THIS | SUPER | TRUE
| INSTANCEOF | LITERAL | NEW | PARENTHESIZED | PROPERTYACCESS
| TERNARY | UNARYPOSTFIX | UNARYPREFIX.
End NodeKind.

Module Token.
Inductive t :=
| LESSTHAN_LESSTHAN | LESSTHAN_LESSTHAN_EQUALS
| GREATERTHAN_GREATERTHAN | GREATERTHAN_GREATERTHAN_EQUALS
| GREATERTHAN_GREATERTHAN_GREATERTHAN
| GREATERTHAN_GREATERTHAN_GREATERTHAN_EQUALS.
End Token.

(** Modelled from the spec: [operatorTokenToString] of [tokenizer.ts] gives
    the operator as it is written. *)
Definition operatorTokenToString (t : Token.t) : string :=
  match t with
  | Token.LESSTHAN_LESSTHAN => "<<"
  | Token.LESSTHAN_LESSTHAN_EQUALS => "<<="
  | Token.GREATERTHAN_GREATERTHAN => ">>"
  | Token.GREATERTHAN_GREATERTHAN_EQUALS => ">>="
  | Token.GREATERTHAN_GREATERTHAN_GREATERTHAN => ">>>"
  | Token.GREATERTHAN_GREATERTHAN_GREATERTHAN_EQUALS => ">>>="
  end.

(** Modelled from the spec: the parser "yields Node trees (statements,
    expressions, declarations) with source ranges".  Only the node shapes
    the embedded methods look into are kept; every node has a kind and a
    range. *)
Inductive Expression :=
| IntegerLiteralExpression (value : Z) (range : Range)
| IdentifierExpression (kind : NodeKind.t) (text : string) (range : Range)
| CallExpression (expression : Expression) (arguments : list Expression) (range : Range)
| BinaryExpression (operator : Token.t) (left right : Expression) (range : Range).

Module Node.
Definition kind (e : Expression) : NodeKind.t :=
  match e with
  | IntegerLiteralExpression _ _ => NodeKind.LITERAL
  | IdentifierExpression k _ _ => k
  | CallExpression _ _ _ => NodeKind.CALL
  | BinaryExpression _ _ _ _ => NodeKind.BINARY
  end.

Definition range (e : Expression) : Range :=
  match e with
  | IntegerLiteralExpression _ r => r
  | IdentifierExpression _ _ r => r
  | CallExpression _ _ r => r
  | BinaryExpression _ _ _ r => r
  end.
End Node.

(** Modelled from the spec: an initializer is inlined at the call site when
    it is a "syntactically constant value", a literal or one of the constant
    keywords. *)
Definition nodeIsConstantValue (k : NodeKind.t) : bool :=
  match k with
  | NodeKind.LITERAL | NodeKind.NULL | NodeKind.TRUE | NodeKind.FALSE => true
  | _ => false
  end.

Module ParameterNode.
Record t := {
  name : string;
  initializer : option Expression;
  range : Range
}.
End ParameterNode.

(** ** The program model ([program.ts], [types.ts]) *)

Module Signature.
Record t := {
  parameterTypes : list Type_.t;
  requiredParameters : Z;
  returnType : Type_.t;
  thisType : option Type_.t
}.

(** Modelled from the spec: [new Signature(parameterTypes, returnType,
    thisType)] of [types.ts]; a fresh signature requires no parameter
    until the caller says so. *)
Definition create (ps : list Type_.t) (r : Type_.t) (this : option Type_.t) : t :=
  {| parameterTypes := ps; requiredParameters := 0; returnType := r; thisType := this |}.

Definition set_requiredParameters (n : Z) (s : t) : t :=
  {| parameterTypes := parameterTypes s; requiredParameters := n;
     returnType := returnType s; thisType := thisType s |}.

(** Modelled from the spec: function types are named by a "signature
    string"; its text plays no part in what follows. *)
Definition makeSignatureString (ps : list Type_.t) (r : Type_.t) (this : option Type_.t) : string :=
  String.concat "" (map (fun p => Type_.kindToString (Type_.kind p)) ps)
    ++ Type_.kindToString (Type_.kind r).
End Signature.

Module Flow.
(** Modelled from the spec: a flow has a flag set and one "known wrapped"
    bit per local. *)
Record t := {
  flags : Z;
  wrappedLocals : Z
}.
Definition create : t := {| flags := 0; wrappedLocals := 0 |}.
Definition set_flags (v : Z) (f : t) : t := {| flags := v; wrappedLocals := wrappedLocals f |}.
End Flow.

(** The operator kinds the embedded cases look up an overload for. *)
Inductive OperatorKind := BITWISE_SHR | BITWISE_SHR_U.

Module FunctionPrototype.
(** Modelled from the spec: a function is the "resolved instance of a
    FunctionPrototype".  The prototype gives access to the declaration, of
    which the embedded methods read the parameter list
    ([declaration.signature.parameters]). *)
Record t := {
  simpleName : string;
  parameters : list ParameterNode.t
}.
End FunctionPrototype.

(** A [Function] object lives on the heap and is referred to by its address. *)
Abbreviation FunctionPtr := nat.
Module Function.
(** Modelled from the spec: "Function - resolved instance of a
    FunctionPrototype.  Owns a Signature [...], a mutable list of
    additional locals, a Flow, an optional trampoline reference, an
    optional function-table index (-1 = not indexed)".  [ref] is the
    IR function set by [finalize]. *)
Record t := {
  prototype : FunctionPrototype.t;
  internalName : string;
  signature : Signature.t;
  parent : option string;
  flags : Z;
  flow : Flow.t;
  additionalLocals : list Type_.t;
  trampoline : option FunctionPtr;
  functionTableIndex : Z;
  ref : Z
}.

Definition set_prototype (v : FunctionPrototype.t) (x : t) : t :=
    {| prototype := v; internalName := internalName x; signature := signature x;
       parent := parent x; flags := flags x; flow := flow x;
       additionalLocals := additionalLocals x; trampoline := trampoline x;
       functionTableIndex := functionTableIndex x; ref := ref x |}.
Definition set_internalName (v : string) (x : t) : t :=
    {| prototype := prototype x; internalName := v; signature := signature x;
       parent := parent x; flags := flags x; flow := flow x;
       additionalLocals := additionalLocals x; trampoline := trampoline x;
       functionTableIndex := functionTableIndex x; ref := ref x |}.
Definition set_signature (v : Signature.t) (x : t) : t :=
    {| prototype := prototype x; internalName := internalName x; signature := v;
       parent := parent x; flags := flags x; flow := flow x;
       additionalLocals := additionalLocals x; trampoline := trampoline x;
       functionTableIndex := functionTableIndex x; ref := ref x |}.
Definition set_parent (v : option string) (x : t) : t :=
    {| prototype := prototype x; internalName := internalName x;
       signature := signature x; parent := v; flags := flags x; flow := flow x;
       additionalLocals := additionalLocals x; trampoline := trampoline x;
       functionTableIndex := functionTableIndex x; ref := ref x |}.
Definition set_flags (v : Z) (x : t) : t :=
    {| prototype := prototype x; internalName := internalName x;
       signature := signature x; parent := parent x; flags := v; flow := flow x;
       additionalLocals := additionalLocals x; trampoline := trampoline x;
       functionTableIndex := functionTableIndex x; ref := ref x |}.
Definition set_flow (v : Flow.t) (x : t) : t :=
    {| prototype := prototype x; internalName := internalName x;
       signature := signature x; parent := parent x; flags := flags x; flow := v;
       additionalLocals := additionalLocals x; trampoline := trampoline x;
       functionTableIndex := functionTableIndex x; ref := ref x |}.
Definition set_additionalLocals (v : list Type_.t) (x : t) : t :=
    {| prototype := prototype x; internalName := internalName x;
       signature := signature x; parent := parent x; flags := flags x; flow := flow x;
       additionalLocals := v; trampoline := trampoline x;
       functionTableIndex := functionTableIndex x; ref := ref x |}.
Definition set_trampoline (v : option FunctionPtr) (x : t) : t :=
    {| prototype := prototype x; internalName := internalName x;
       signature := signature x; parent := parent x; flags := flags x; flow := flow x;
       additionalLocals := additionalLocals x; trampoline := v;
       functionTableIndex := functionTableIndex x; ref := ref x |}.
Definition set_functionTableIndex (v : Z) (x : t) : t :=
    {| prototype := prototype x; internalName := internalName x;
       signature := signature x; parent := parent x; flags := flags x; flow := flow x;
       additionalLocals := additionalLocals x; trampoline := trampoline x;
       functionTableIndex := v; ref := ref x |}.
Definition set_ref (v : Z) (x : t) : t :=
    {| prototype := prototype x; internalName := internalName x;
       signature := signature x; parent := parent x; flags := flags x; flow := flow x;
       additionalLocals := additionalLocals x; trampoline := trampoline x;
       functionTableIndex := functionTableIndex x; ref := v |}.
End Function.

Module FunctionOps.
Import Function.

(** Modelled from the spec: [new Function(prototype, internalName,
    signature, parent, ...)] makes a function that is not compiled, has
    no trampoline and is "not indexed" (-1). *)
Definition create (p : FunctionPrototype.t) (name : string) (s : Signature.t)
    (par : option string) : t :=
  {| prototype := p; internalName := name; signature := s; parent := par;
     flags := CommonFlags.NONE; flow := Flow.create; additionalLocals := [];
     trampoline := None; functionTableIndex := -1; ref := 0 |}.

Definition is_ (f : t) (flag : Z) : bool := Flags.is_ (flags f) flag.
End FunctionOps.

Module Class.
(** Modelled from the spec: the "class layout with field offsets": the
    offset after the last field, and the offset of each field by name. *)
Record t := {
  internalName : string;
  currentMemoryOffset : Z;
  members : gmap string Z;
  type : Type_.t
}.
End Class.

Module ElementKind.
Inductive t := GLOBAL | ENUM | ENUMVALUE | FUNCTION_PROTOTYPE | CLASS | NAMESPACE.
End ElementKind.

Module EnumValue.
(** Modelled from the spec: the "enum members" of the program model;
    [value] and [range] are those of the member's declaration. *)
Record t := {
  kind : ElementKind.t;
  internalName : string;
  value : option Expression;
  range : Range
}.
End EnumValue.

Module Enum.
Record t := {
  internalName : string;
  members : option (list EnumValue.t)
}.
End Enum.

Module Program.
Record t := {
  hasGC : bool;
  gcHeaderSize : Z;
  gcHookOffset : Z;
  stringInstance : option Class.t;
  instancesLookup : gmap string FunctionPtr
}.

Definition set_instancesLookup (v : gmap string FunctionPtr) (x : t) : t :=
  {| hasGC := hasGC x; gcHeaderSize := gcHeaderSize x; gcHookOffset := gcHookOffset x;
     stringInstance := stringInstance x; instancesLookup := v |}.
End Program.

Module Options.
Record t := {
  target : Target;
  noTreeShaking : bool;
  noAssert : bool;
  importMemory : bool;
  importTable : bool;
  sourceMap : bool;
  memoryBase : Z;
  features : Z
}.

Definition isWasm64 (o : t) : bool :=
  match target o with WASM64 => true | WASM32 => false end.
Definition usizeType (o : t) : Type_.t :=
  if isWasm64 o then Type_.usize64 else Type_.usize32.
Definition isizeType (o : t) : Type_.t :=
  if isWasm64 o then Type_.isize64 else Type_.isize32.
Definition nativeSizeType (o : t) : NativeType.t :=
  if isWasm64 o then NativeType.I64 else NativeType.I32.
Definition hasFeature (o : t) (feature : Z) : bool :=
  negb (Z.land (features o) feature =? 0).
End Options.

(** ** The compiler state *)

(** A JavaScript string is a sequence of UTF-16 code units. *)
Abbreviation JSString := (list Z).

(** The fields of the [Compiler] class, with the objects they reach: [heap]
    holds the [Function] objects, [elementFlags] the flags of the other
    elements by internal name, [diagnostics] the messages reported so far. *)
Record Compiler := {
  program : Program.t;
  options : Options.t;
  module : Module;
  heap : list Function.t;
  elementFlags : gmap string Z;
  diagnostics : list DiagnosticMessage.t;
  currentFunction : FunctionPtr;
  currentEnum : option string;
  currentType : Type_.t;
  startFunctionBody : list ExpressionRef;
  memoryOffset : Z;
  memorySegments : list MemorySegment;
  stringSegments : gmap JSString MemorySegment;
  functionTable : list string;
  argcVar : Z;
  argcSet : Z;
  needsIterateRoots : bool
}.

Definition set_program (v : Program.t) (x : Compiler) : Compiler :=
    {| program := v; options := options x; module := module x; heap := heap x;
       elementFlags := elementFlags x; diagnostics := diagnostics x;
       currentFunction := currentFunction x; currentEnum := currentEnum x;
       currentType := currentType x; startFunctionBody := startFunctionBody x;
       memoryOffset := memoryOffset x; memorySegments := memorySegments x;
       stringSegments := stringSegments x; functionTable := functionTable x;
       argcVar := argcVar x; argcSet := argcSet x;
       needsIterateRoots := needsIterateRoots x |}.
Definition set_options (v : Options.t) (x : Compiler) : Compiler :=
    {| program := program x; options := v; module := module x; heap := heap x;
       elementFlags := elementFlags x; diagnostics := diagnostics x;
       currentFunction := currentFunction x; currentEnum := currentEnum x;
       currentType := currentType x; startFunctionBody := startFunctionBody x;
       memoryOffset := memoryOffset x; memorySegments := memorySegments x;
       stringSegments := stringSegments x; functionTable := functionTable x;
       argcVar := argcVar x; argcSet := argcSet x;
       needsIterateRoots := needsIterateRoots x |}.
Definition set_module (v : Module) (x : Compiler) : Compiler :=
    {| program := program x; options := options x; module := v; heap := heap x;
       elementFlags := elementFlags x; diagnostics := diagnostics x;
       currentFunction := currentFunction x; currentEnum := currentEnum x;
       currentType := currentType x; startFunctionBody := startFunctionBody x;
       memoryOffset := memoryOffset x; memorySegments := memorySegments x;
       stringSegments := stringSegments x; functionTable := functionTable x;
       argcVar := argcVar x; argcSet := argcSet x;
       needsIterateRoots := needsIterateRoots x |}.
Definition set_heap (v : list Function.t) (x : Compiler) : Compiler :=
    {| program := program x; options := options x; module := module x; heap := v;
       elementFlags := elementFlags x; diagnostics := diagnostics x;
       currentFunction := currentFunction x; currentEnum := currentEnum x;
       currentType := currentType x; startFunctionBody := startFunctionBody x;
       memoryOffset := memoryOffset x; memorySegments := memorySegments x;
       stringSegments := stringSegments x; functionTable := functionTable x;
       argcVar := argcVar x; argcSet := argcSet x;
       needsIterateRoots := needsIterateRoots x |}.
Definition set_elementFlags (v : gmap string Z) (x : Compiler) : Compiler :=
    {| program := program x; options := options x; module := module x; heap := heap x;
       elementFlags := v; diagnostics := diagnostics x;
       currentFunction := currentFunction x; currentEnum := currentEnum x;
       currentType := currentType x; startFunctionBody := startFunctionBody x;
       memoryOffset := memoryOffset x; memorySegments := memorySegments x;
       stringSegments := stringSegments x; functionTable := functionTable x;
       argcVar := argcVar x; argcSet := argcSet x;
       needsIterateRoots := needsIterateRoots x |}.
Definition set_diagnostics (v : list DiagnosticMessage.t) (x : Compiler) : Compiler :=
    {| program := program x; options := options x; module := module x; heap := heap x;
       elementFlags := elementFlags x; diagnostics := v;
       currentFunction := currentFunction x; currentEnum := currentEnum x;
       currentType := currentType x; startFunctionBody := startFunctionBody x;
       memoryOffset := memoryOffset x; memorySegments := memorySegments x;
       stringSegments := stringSegments x; functionTable := functionTable x;
       argcVar := argcVar x; argcSet := argcSet x;
       needsIterateRoots := needsIterateRoots x |}.
Definition set_currentFunction (v : FunctionPtr) (x : Compiler) : Compiler :=
    {| program := program x; options := options x; module := module x; heap := heap x;
       elementFlags := elementFlags x; diagnostics := diagnostics x; currentFunction := v;
       currentEnum := currentEnum x; currentType := currentType x;
       startFunctionBody := startFunctionBody x; memoryOffset := memoryOffset x;
       memorySegments := memorySegments x; stringSegments := stringSegments x;
       functionTable := functionTable x; argcVar := argcVar x; argcSet := argcSet x;
       needsIterateRoots := needsIterateRoots x |}.
Definition set_currentEnum (v : option string) (x : Compiler) : Compiler :=
    {| program := program x; options := options x; module := module x; heap := heap x;
       elementFlags := elementFlags x; diagnostics := diagnostics x;
       currentFunction := currentFunction x; currentEnum := v;
       currentType := currentType x; startFunctionBody := startFunctionBody x;
       memoryOffset := memoryOffset x; memorySegments := memorySegments x;
       stringSegments := stringSegments x; functionTable := functionTable x;
       argcVar := argcVar x; argcSet := argcSet x;
       needsIterateRoots := needsIterateRoots x |}.
Definition set_currentType (v : Type_.t) (x : Compiler) : Compiler :=
    {| program := program x; options := options x; module := module x; heap := heap x;
       elementFlags := elementFlags x; diagnostics := diagnostics x;
       currentFunction := currentFunction x; currentEnum := currentEnum x;
       currentType := v; startFunctionBody := startFunctionBody x;
       memoryOffset := memoryOffset x; memorySegments := memorySegments x;
       stringSegments := stringSegments x; functionTable := functionTable x;
       argcVar := argcVar x; argcSet := argcSet x;
       needsIterateRoots := needsIterateRoots x |}.
Definition set_startFunctionBody (v : list ExpressionRef) (x : Compiler) : Compiler :=
    {| program := program x; options := options x; module := module x; heap := heap x;
       elementFlags := elementFlags x; diagnostics := diagnostics x;
       currentFunction := currentFunction x; currentEnum := currentEnum x;
       currentType := currentType x; startFunctionBody := v;
       memoryOffset := memoryOffset x; memorySegments := memorySegments x;
       stringSegments := stringSegments x; functionTable := functionTable x;
       argcVar := argcVar x; argcSet := argcSet x;
       needsIterateRoots := needsIterateRoots x |}.
Definition set_memoryOffset (v : Z) (x : Compiler) : Compiler :=
    {| program := program x; options := options x; module := module x; heap := heap x;
       elementFlags := elementFlags x; diagnostics := diagnostics x;
       currentFunction := currentFunction x; currentEnum := currentEnum x;
       currentType := currentType x; startFunctionBody := startFunctionBody x;
       memoryOffset := v; memorySegments := memorySegments x;
       stringSegments := stringSegments x; functionTable := functionTable x;
       argcVar := argcVar x; argcSet := argcSet x;
       needsIterateRoots := needsIterateRoots x |}.
Definition set_memorySegments (v : list MemorySegment) (x : Compiler) : Compiler :=
    {| program := program x; options := options x; module := module x; heap := heap x;
       elementFlags := elementFlags x; diagnostics := diagnostics x;
       currentFunction := currentFunction x; currentEnum := currentEnum x;
       currentType := currentType x; startFunctionBody := startFunctionBody x;
       memoryOffset := memoryOffset x; memorySegments := v;
       stringSegments := stringSegments x; functionTable := functionTable x;
       argcVar := argcVar x; argcSet := argcSet x;
       needsIterateRoots := needsIterateRoots x |}.
Definition set_stringSegments (v : gmap JSString MemorySegment) (x : Compiler) : Compiler :=
    {| program := program x; options := options x; module := module x; heap := heap x;
       elementFlags := elementFlags x; diagnostics := diagnostics x;
       currentFunction := currentFunction x; currentEnum := currentEnum x;
       currentType := currentType x; startFunctionBody := startFunctionBody x;
       memoryOffset := memoryOffset x; memorySegments := memorySegments x;
       stringSegments := v; functionTable := functionTable x; argcVar := argcVar x;
       argcSet := argcSet x; needsIterateRoots := needsIterateRoots x |}.
Definition set_functionTable (v : list string) (x : Compiler) : Compiler :=
    {| program := program x; options := options x; module := module x; heap := heap x;
       elementFlags := elementFlags x; diagnostics := diagnostics x;
       currentFunction := currentFunction x; currentEnum := currentEnum x;
       currentType := currentType x; startFunctionBody := startFunctionBody x;
       memoryOffset := memoryOffset x; memorySegments := memorySegments x;
       stringSegments := stringSegments x; functionTable := v; argcVar := argcVar x;
       argcSet := argcSet x; needsIterateRoots := needsIterateRoots x |}.
Definition set_argcVar (v : Z) (x : Compiler) : Compiler :=
    {| program := program x; options := options x; module := module x; heap := heap x;
       elementFlags := elementFlags x; diagnostics := diagnostics x;
       currentFunction := currentFunction x; currentEnum := currentEnum x;
       currentType := currentType x; startFunctionBody := startFunctionBody x;
       memoryOffset := memoryOffset x; memorySegments := memorySegments x;
       stringSegments := stringSegments x; functionTable := functionTable x; argcVar := v;
       argcSet := argcSet x; needsIterateRoots := needsIterateRoots x |}.
Definition set_argcSet (v : Z) (x : Compiler) : Compiler :=
    {| program := program x; options := options x; module := module x; heap := heap x;
       elementFlags := elementFlags x; diagnostics := diagnostics x;
       currentFunction := currentFunction x; currentEnum := currentEnum x;
       currentType := currentType x; startFunctionBody := startFunctionBody x;
       memoryOffset := memoryOffset x; memorySegments := memorySegments x;
       stringSegments := stringSegments x; functionTable := functionTable x;
       argcVar := argcVar x; argcSet := v; needsIterateRoots := needsIterateRoots x |}.
Definition set_needsIterateRoots (v : bool) (x : Compiler) : Compiler :=
    {| program := program x; options := options x; module := module x; heap := heap x;
       elementFlags := elementFlags x; diagnostics := diagnostics x;
       currentFunction := currentFunction x; currentEnum := currentEnum x;
       currentType := currentType x; startFunctionBody := startFunctionBody x;
       memoryOffset := memoryOffset x; memorySegments := memorySegments x;
       stringSegments := stringSegments x; functionTable := functionTable x;
       argcVar := argcVar x; argcSet := argcSet x; needsIterateRoots := v |}.

(** ** The monad of compiler methods *)

(** A method either returns a value in a new state or throws; a throw
    abandons the compilation (the source never catches). *)
Inductive Outcome (A : Type) :=
| Returned (a : A) (c : Compiler)
| Thrown.
Arguments Returned {A} a c.
Arguments Thrown {A}.

Definition M (A : Type) : Type := Compiler -> Outcome A.

Definition ret {A} (a : A) : M A := fun c => Returned a c.

Definition bind {A B} (m : M A) (k : A -> M B) : M B :=
  fun c => match m c with
           | Returned a c' => k a c'
           | Thrown => Thrown
           end.

Declare Scope compiler_scope.
Delimit Scope compiler_scope with M.
Notation "x <- m ;; k" := (bind m (fun x => k))
  (at level 100, m at next level, right associativity) : compiler_scope.
Notation "m ;; k" := (bind m (fun _ => k))
  (at level 100, right associativity) : compiler_scope.
Local Open Scope compiler_scope.

Definition throw {A} : M A := fun _ => Thrown.
Definition gets {A} (f : Compiler -> A) : M A := fun c => Returned (f c) c.
Definition modify (f : Compiler -> Compiler) : M unit := fun c => Returned tt (f c).

(** [assert(condition)] throws when the condition is false. *)
Definition assert (b : bool) : M unit := if b then ret tt else throw.

(** Reading a property of [undefined] or [null] throws. *)
Definition defined {A} (o : option A) : M A :=
  match o with Some a => ret a | None => throw end.

Fixpoint mapM {A B} (f : A -> M B) (l : list A) : M (list B) :=
  match l with
  | [] => ret []
  | x :: l' => y <- f x ;; ys <- mapM f l' ;; ret (y :: ys)
  end.

Fixpoint foldM {A B} (f : B -> A -> M B) (l : list A) (b : B) : M B :=
  match l with
  | [] => ret b
  | x :: l' => b' <- f b x ;; foldM f l' b'
  end.

(** [this.error(code, range, ...args)] *)
Definition error (code : DiagnosticCode) (range : Range) (args : list string) : M unit :=
  modify (fun c =>
    set_diagnostics (diagnostics c ++
      [{| DiagnosticMessage.code := code; DiagnosticMessage.category := ERROR;
          DiagnosticMessage.range := range; DiagnosticMessage.args := args |}]) c).

(** *** The heap of [Function] objects *)

Definition getFunction (p : FunctionPtr) : M Function.t :=
  c <- gets heap ;; defined (c !! p).

Definition updateFunction (p : FunctionPtr) (f : Function.t -> Function.t) : M unit :=
  x <- getFunction p ;;
  modify (fun c => set_heap (<[p := f x]> (heap c)) c).

Definition newFunction (f : Function.t) : M FunctionPtr :=
  h <- gets heap ;;
  modify (set_heap (h ++ [f])) ;;
  ret (length h).

(** *** The IR builder's methods *)

Definition Module_set_created (v : list ExpressionRef) (m : Module) : Module :=
  {| created := v; globals := globals m; functionTypes := functionTypes m;
     functions := functions m; functionExports := functionExports m; memory := memory m |}.
Definition Module_set_globals (v : list GlobalDef) (m : Module) : Module :=
  {| created := created m; globals := v; functionTypes := functionTypes m;
     functions := functions m; functionExports := functionExports m; memory := memory m |}.
Definition Module_set_functionTypes (v : list FunctionTypeDef) (m : Module) : Module :=
  {| created := created m; globals := globals m; functionTypes := v;
     functions := functions m; functionExports := functionExports m; memory := memory m |}.
Definition Module_set_functions (v : list FunctionDef) (m : Module) : Module :=
  {| created := created m; globals := globals m; functionTypes := functionTypes m;
     functions := v; functionExports := functionExports m; memory := memory m |}.
Definition Module_set_functionExports (v : list (string * string)) (m : Module) : Module :=
  {| created := created m; globals := globals m; functionTypes := functionTypes m;
     functions := functions m; functionExports := v; memory := memory m |}.
Definition Module_set_memory (v : option MemoryDef) (m : Module) : Module :=
  {| created := created m; globals := globals m; functionTypes := functionTypes m;
     functions := functions m; functionExports := functionExports m; memory := v |}.

Definition onModule (f : Module -> Module) : M unit :=
  modify (fun c => set_module (f (module c)) c).

(** Every [create...] method hands out a new node and records it. *)
Definition recordNode (e : ExpressionRef) (c : Compiler) : Compiler :=
  set_module (Module_set_created (created (module c) ++ [e]) (module c)) c.

Definition create (e : ExpressionRef) : M ExpressionRef :=
  modify (recordNode e) ;; ret e.

Definition createUnreachable : M ExpressionRef := create Unreachable.
Definition createNop : M ExpressionRef := create Nop.
Definition createI32 (v : Z) : M ExpressionRef := create (ConstI32 v).
Definition createI64 (lo hi : Z) : M ExpressionRef := create (ConstI64 lo hi).
Definition createF32 (v : Z) : M ExpressionRef := create (ConstF32 v).
Definition createF64 (v : Z) : M ExpressionRef := create (ConstF64 v).
Definition createUnary (op : UnaryOp) (e : ExpressionRef) : M ExpressionRef :=
  create (Unary op e).
Definition createBinary (op : BinaryOp) (l r : ExpressionRef) : M ExpressionRef :=
  create (Binary op l r).
Definition createGetLocal (i : Z) (t : NativeType.t) : M ExpressionRef := create (GetLocal i t).
Definition createSetLocal (i : Z) (e : ExpressionRef) : M ExpressionRef := create (SetLocal i e).
Definition createGetGlobal (n : string) (t : NativeType.t) : M ExpressionRef :=
  create (GetGlobal n t).
Definition createSetGlobal (n : string) (e : ExpressionRef) : M ExpressionRef :=
  create (SetGlobal n e).
Definition createCall (target : string) (ops : list ExpressionRef) (t : NativeType.t)
  : M ExpressionRef := create (Call target ops t).
Definition createCallImport (target : string) (ops : list ExpressionRef) (t : NativeType.t)
  : M ExpressionRef := create (CallImport target ops t).
Definition createBlock (label : option string) (children : list ExpressionRef)
    (t : NativeType.t) : M ExpressionRef := create (Block label children t).
Definition createSwitch (names : list string) (default : string) (cond : ExpressionRef)
  : M ExpressionRef := create (Switch names default cond).
Definition createDrop (e : ExpressionRef) : M ExpressionRef := create (Drop e).

(** Modelled from the spec: [module.addGlobal] and [module.addFunction] of
    the IR builder add a definition and return a non-null reference. *)
Definition addGlobal (n : string) (t : NativeType.t) (mutable : bool) (init : ExpressionRef)
  : M Z :=
  gs <- gets (fun c => globals (module c)) ;;
  onModule (Module_set_globals
    (gs ++ [{| global_name := n; global_type := t; global_mutable := mutable;
               global_init := init |}])) ;;
  ret (1 + Z.of_nat (length gs)).

Definition addFunction (n : string) (type : Z) (locals : list NativeType.t)
    (body : ExpressionRef) : M Z :=
  fs <- gets (fun c => functions (module c)) ;;
  onModule (Module_set_functions
    (fs ++ [{| function_name := n; function_type := type; function_locals := locals;
               function_body := body |}])) ;;
  ret (1 + Z.of_nat (length fs)).

Definition setMemory (initial maximum : Z) (segments : list MemorySegment)
    (target : Target) (exportName : string) : M unit :=
  onModule (Module_set_memory
    (Some {| memory_initial := initial; memory_maximum := maximum;
             memory_segments := segments; memory_target := target;
             memory_exportName := exportName |})).

Definition NativeType_eqb (a b : NativeType.t) : bool :=
  match a, b with
  | NativeType.None, NativeType.None | NativeType.I32, NativeType.I32
  | NativeType.I64, NativeType.I64 | NativeType.F32, NativeType.F32
  | NativeType.F64, NativeType.F64 => true
  | _, _ => false
  end.

Fixpoint NativeTypes_eqb (a b : list NativeType.t) : bool :=
  match a, b with
  | [], [] => true
  | x :: a', y :: b' => NativeType_eqb x y && NativeTypes_eqb a' b'
  | _, _ => false
  end.

(** Modelled from the spec: the function-type pool is "deduplicated by
    (result, params)"; [module.getFunctionTypeBySignature] gives the
    reference of the first function type with that result and those
    parameters, or null. *)
Fixpoint findFunctionType (result : NativeType.t) (params : list NativeType.t)
    (types : list FunctionTypeDef) (ref : Z) : Z :=
  match types with
  | [] => 0
  | t :: types' =>
      if NativeType_eqb (functionType_result t) result
         && NativeTypes_eqb (functionType_params t) params
      then ref
      else findFunctionType result params types' (ref + 1)
  end.

Definition getFunctionTypeBySignature (result : NativeType.t) (params : list NativeType.t)
  : M Z :=
  gets (fun c => findFunctionType result params (functionTypes (module c)) 1).

Definition addFunctionType (n : string) (result : NativeType.t) (params : list NativeType.t)
  : M Z :=
  ts <- gets (fun c => functionTypes (module c)) ;;
  onModule (Module_set_functionTypes
    (ts ++ [{| functionType_name := n; functionType_result := result;
               functionType_params := params |}])) ;;
  ret (1 + Z.of_nat (length ts)).

(** An array read at an index: [undefined] outside the array. *)
Definition lookupZ {A} (l : list A) (i : Z) : option A :=
  if i <? 0 then None else l !! Z.to_nat i.

(** Modelled from the spec: [typesToNativeTypes] of [types.ts] maps each
    type to its native type. *)
Definition typesToNativeTypes (ts : list Type_.t) : list NativeType.t :=
  map Type_.toNativeType ts.

(** Modelled from the spec: [type.toNativeZero(module)] of [types.ts]
    creates the "native zero" of the type, the zero constant of its native
    type; the void type has none. *)
Definition nativeZero (ty : Type_.t) : option ExpressionRef :=
  match Type_.toNativeType ty with
  | NativeType.I32 => Some (ConstI32 0)
  | NativeType.I64 => Some (ConstI64 0 0)
  | NativeType.F32 => Some (ConstF32 0)
  | NativeType.F64 => Some (ConstF64 0)
  | NativeType.None => None
  end.

Definition toNativeZero (ty : Type_.t) : M ExpressionRef :=
  match nativeZero ty with
  | Some zero => create zero
  | None => throw
  end.

(** ** Concrete programs and options used in the examples *)

Module Examples.

Definition options32 : Options.t :=
  {| Options.target := WASM32; Options.noTreeShaking := false; Options.noAssert := false;
     Options.importMemory := false; Options.importTable := false;
     Options.sourceMap := false; Options.memoryBase := 0;
     Options.features := Feature.NONE |}.

Definition stringClass : Class.t :=
  {| Class.internalName := "~lib/string/String";
     Class.currentMemoryOffset := 4;
     Class.members := {[ "length" := 0 ]};
     Class.type := {| Type_.kind := TypeKind.USIZE; Type_.flags := Type_.flags Type_.usize32;
                      Type_.size := 32;
                      Type_.classReference := Some "~lib/string/String" |} |}.

Definition program0 : Program.t :=
  {| Program.hasGC := false; Program.gcHeaderSize := 0; Program.gcHookOffset := 0;
     Program.stringInstance := Some stringClass; Program.instancesLookup := ∅ |}.

Definition programGC : Program.t :=
  {| Program.hasGC := true; Program.gcHeaderSize := 8; Program.gcHookOffset := 4;
     Program.stringInstance := Some stringClass; Program.instancesLookup := ∅ |}.

(** *** Stand-ins for the collaborators *)

(** A constant cannot overflow; anything else can. *)
Definition canOverflow (c : Compiler) (flow : Flow.t) (e : ExpressionRef) (t : Type_.t)
  : bool := negb (isConst e).

Definition isAssignableTo (a b : Type_.t) : bool :=
  TypeKind.eqb (Type_.kind a) (Type_.kind b).

(** The locals [a : u8], [b : u8] and [n : i32] of the function in which
    the example expressions are compiled. *)
Definition localOf (name : string) : option (Z * Type_.t) :=
  if String.eqb name "a" then Some (0, Type_.u8)
  else if String.eqb name "b" then Some (1, Type_.u8)
  else if String.eqb name "n" then Some (2, Type_.i32)
  else None.

(** An expression compiler for integer literals, the three locals and
    calls of a function [g] that returns an [i32]. *)
Definition compileExpression (e : Expression) (contextualType : Type_.t)
    (k : ConversionKind) (w : WrapMode) : M ExpressionRef :=
  modify (set_currentType contextualType) ;;
  match e with
  | IntegerLiteralExpression v _ => createI32 v
  | IdentifierExpression NodeKind.IDENTIFIER name _ =>
      match localOf name with
      | Some (index, type) =>
          modify (set_currentType type) ;;
          createGetLocal index (Type_.toNativeType type)
      | None => createUnreachable
      end
  | IdentifierExpression _ _ _ => createI32 0
  | CallExpression _ _ _ =>
      modify (set_currentType Type_.i32) ;;
      createCall "g" [] NativeType.I32
  | BinaryExpression _ _ _ _ => createUnreachable
  end.

(** Compiling a function marks it as compiled. *)
Definition compileFunction_uncompiled (p : FunctionPtr) : M bool :=
  updateFunction p
    (fun f => Function.set_flags (Z.lor (Function.flags f) CommonFlags.COMPILED) f) ;;
  ret true.

(** The GC hook of a class takes the next slot of the function table. *)
Definition ensureGCHook (cls : Class.t) : M Z :=
  n <- gets (fun c => Z.of_nat (length (functionTable c))) ;;
  modify (fun c => set_functionTable (functionTable c ++ ["~gc"]) c) ;;
  ret n.

(** Precomputation folds [global + constant] when the global is an
    immutable constant. *)
Definition constantGlobal (gs : list GlobalDef) (name : string) : option Z :=
  match List.find (fun g => String.eqb (global_name g) name) gs with
  | Some g =>
      match global_mutable g, global_init g with
      | false, ConstI32 v => Some v
      | _, _ => None
      end
  | None => None
  end.

Definition precomputeExpression (e : ExpressionRef) : M ExpressionRef :=
  gs <- gets (fun c => globals (module c)) ;;
  match e with
  | Binary AddI32 (GetGlobal name _) (ConstI32 k) =>
      match constantGlobal gs name with
      | Some v => createI32 (v + k)
      | None => ret e
      end
  | _ => ret e
  end.

Definition lookupOverload (classReference : string) (kind : OperatorKind)
  : option FunctionPtr := None.

Definition compileBinaryOverload (overload : FunctionPtr) (left : Expression)
    (leftExpr : ExpressionRef) (right reportNode : Expression) : M ExpressionRef :=
  createUnreachable.

Definition compileAssignmentWithValue (target : Expression) (value : ExpressionRef)
    (tee : bool) : M ExpressionRef :=
  createSetLocal 0 value.

Definition compileBinaryExpression_other (e : Expression) (t : Type_.t) : M ExpressionRef :=
  createUnreachable.

(** *** Functions and compiler states *)

Definition noRange : Range := {| range_start := 0; range_end := 0 |}.

Definition parameter (name : string) (initializer : option Expression) : ParameterNode.t :=
  {| ParameterNode.name := name; ParameterNode.initializer := initializer;
     ParameterNode.range := noRange |}.

Definition function (name : string) (parameters : list ParameterNode.t)
    (required : Z) (flags : Z) : Function.t :=
  Function.set_flags flags
    (FunctionOps.create
       {| FunctionPrototype.simpleName := name; FunctionPrototype.parameters := parameters |}
       name
       (Signature.set_requiredParameters required
          (Signature.create (map (fun _ => Type_.i32) parameters) Type_.i32 None))
       None).

Definition start : Function.t := function "start" [] 0 CommonFlags.COMPILED.

(** [function f(a: i32, b: i32 = 2): i32], compiled. *)
Definition f : Function.t :=
  function "f" [parameter "a" None;
                parameter "b" (Some (IntegerLiteralExpression 2 noRange))]
    1 CommonFlags.COMPILED.

(** [function h(a: i32, b: i32 = g()): i32], compiled. *)
Definition h : Function.t :=
  function "h" [parameter "a" None;
                parameter "b" (Some (CallExpression
                                       (IdentifierExpression NodeKind.IDENTIFIER "g" noRange)
                                       [] noRange))]
    1 CommonFlags.COMPILED.

(** [declare function imp(a: i32, b?: i32): i32], compiled to an import. *)
Definition imp : Function.t :=
  function "imp" [parameter "a" None; parameter "b" None]
    1 (Z.lor CommonFlags.COMPILED CommonFlags.MODULE_IMPORT).

(** A compiler in the middle of a compilation: the start function is
    current, and [f], [h] and [imp] are at addresses 1, 2 and 3. *)
Definition compiler (program : Program.t) (options : Options.t) : Compiler :=
  {| program := program;
     options := options;
     module := Module_create;
     heap := [start; f; h; imp];
     elementFlags := ∅;
     diagnostics := [];
     currentFunction := 0%nat;
     currentEnum := None;
     currentType := Type_.void;
     startFunctionBody := [];
     memoryOffset := 8;
     memorySegments := [];
     stringSegments := ∅;
     functionTable := [];
     argcVar := 0;
     argcSet := 0;
     needsIterateRoots := false |}.

Definition c32 : Compiler := compiler program0 options32.

(** An expression compiler that, like [compileIdentifierExpression] for a
    name that refers to a function, enters the function [g] into the
    function table and yields its index; everything else as above. *)
Definition compileExpression_referencing (e : Expression) (contextualType : Type_.t)
    (k : ConversionKind) (w : WrapMode) : M ExpressionRef :=
  match e with
  | IdentifierExpression NodeKind.IDENTIFIER "g" _ =>
      index <- gets (fun c => Z.of_nat (length (functionTable c))) ;;
      modify (fun c => set_functionTable (functionTable c ++ ["g"]) c) ;;
      modify (set_currentType contextualType) ;;
      createI32 index
  | _ => compileExpression e contextualType k w
  end.

(** [function k(a: i32, cb: i32 = g): i32], compiled, at address 4. *)
Definition k : Function.t :=
  function "k" [parameter "a" None;
                parameter "cb" (Some (IdentifierExpression NodeKind.IDENTIFIER "g" noRange))]
    1 CommonFlags.COMPILED.

Definition c32k : Compiler := set_heap (heap c32 ++ [k]) c32.

(** [function f3(a: i32, b: i32 = 2, c: i32 = 3): i32], compiled, at
    address 4. *)
Definition f3 : Function.t :=
  function "f3" [parameter "a" None;
                 parameter "b" (Some (IntegerLiteralExpression 2 noRange));
                 parameter "c" (Some (IntegerLiteralExpression 3 noRange))]
    1 CommonFlags.COMPILED.

Definition c32f3 : Compiler := set_heap (heap c32 ++ [f3]) c32.

Definition identifier (name : string) : Expression :=
  IdentifierExpression NodeKind.IDENTIFIER name noRange.

(** [a >>> b] and [a >> b], with [a] and [b] of type [u8]. *)
Definition a_shr_u_b : Expression :=
  BinaryExpression Token.GREATERTHAN_GREATERTHAN_GREATERTHAN
    (identifier "a") (identifier "b") noRange.

Definition a_shr_b : Expression :=
  BinaryExpression Token.GREATERTHAN_GREATERTHAN
    (identifier "a") (identifier "b") noRange.

End Examples.

(** ** More of the collaborators: range tests of the 64-bit glue, 32-bit
    integer operators, exports *)

Module Glue.
Import I64.

(** Modelled from the spec: the 64-bit glue is not under [src/].
    [i64_sub] subtracts with wrap-around; [i64_is_T] tells whether an
    [I64] value is a value of the type [T]. *)
Definition i64_sub (a b : Z) : Z := wrap64 (a - b).

Definition i64_is_i8 (v : Z) : bool := (- 2 ^ 7 <=? v) && (v <? 2 ^ 7).
Definition i64_is_i16 (v : Z) : bool := (- 2 ^ 15 <=? v) && (v <? 2 ^ 15).
Definition i64_is_i32 (v : Z) : bool := (- 2 ^ 31 <=? v) && (v <? 2 ^ 31).
Definition i64_is_u8 (v : Z) : bool := (0 <=? v) && (v <? 2 ^ 8).
Definition i64_is_u16 (v : Z) : bool := (0 <=? v) && (v <? 2 ^ 16).
Definition i64_is_bool (v : Z) : bool := (v =? 0) || (v =? 1).

End Glue.

(** The operators of JavaScript on 32-bit integers, as [compiler.ts] uses
    them on [i32] values: the operands are taken modulo 2^32 as signed
    numbers, a shift count modulo 32. *)
Module Int32.
Import I64.

Definition shl (x s : Z) : Z := wrap32 (Z.shiftl (wrap32 x) (s mod 32)).
Definition shr (x s : Z) : Z := Z.shiftr (wrap32 x) (s mod 32).
Definition and (x m : Z) : Z := wrap32 (Z.land (wrap32 x) (wrap32 m)).

End Int32.

(** Modelled from the spec: the module is "populated with [...] exports";
    [module.addFunctionExport(internalName, externalName)] of the IR builder
    adds one. *)
Definition addFunctionExport (internalName externalName : string) : M unit :=
  onModule (fun m =>
    Module_set_functionExports (functionExports m ++ [(internalName, externalName)]) m).

(** Modelled from the spec: "Inlined constant elements substitute their
    literal value".  A variable-like element (a global or a local) that is
    inlined holds its constant: an integer as an [I64], or a float.  A float
    is known here only by a code that the constant created from it carries
    along. *)
Module ConstantValueKind.
Inductive t := NONE | INTEGER | FLOAT.
End ConstantValueKind.

Module VariableLikeElement.
Record t := {
  flags : Z;
  type : Type_.t;
  constantValueKind : ConstantValueKind.t;
  constantIntegerValue : Z;
  constantFloatValue : Z;
  isBuiltin : bool              (* hasDecorator(DecoratorFlags.BUILTIN) *)
}.
End VariableLikeElement.

(** ** Static memory *)

Import I64.

Definition MemorySegment_create (buffer : Buffer.Uint8Array) (offset : Z) : MemorySegment :=
  {| buffer := buffer; offset := offset |}.

(** [new Compiler(program, options)].  No function is current until
    [compile()] installs the start function. *)
Definition Compiler_new (program : Program.t) (options : Options.t) : Compiler :=
  {| program := program;
     options := options;
     module := Module_create;
     heap := [];
     elementFlags := ∅;
     diagnostics := [];
     currentFunction := 0%nat;
     currentEnum := None;
     currentType := Type_.void;
     startFunctionBody := [];
     memoryOffset := i64_new (Z.max (Options.memoryBase options) 8) 0;
     memorySegments := [];
     stringSegments := ∅;
     functionTable := [];
     argcVar := 0;
     argcSet := 0;
     needsIterateRoots := false |}.

(** [addMemorySegment(buffer, alignment = 8)] *)
Definition addMemorySegment (buffer : Buffer.Uint8Array) (alignment : Z) : M MemorySegment :=
  current <- gets memoryOffset ;;
  let memoryOffset := i64_align current alignment in
  let segment := MemorySegment_create buffer memoryOffset in
  modify (fun c => set_memorySegments (memorySegments c ++ [segment]) c) ;;
  modify (set_memoryOffset (i64_add memoryOffset (i64_new (Z.of_nat (length buffer)) 0))) ;;
  ret segment.

(** A sequence of [addMemorySegment] calls, one per requested buffer. *)
Definition addMemorySegments (requests : list (Buffer.Uint8Array * Z))
  : M (list MemorySegment) :=
  mapM (fun r => addMemorySegment (fst r) (snd r)) requests.

(** The part of [compile()] that seals static memory: it aligns the offset
    to the pointer size, defines [HEAP_BASE] and sets up the memory with its
    initial page count. *)
Definition compile_memory : M unit :=
  options <- gets options ;;
  current <- gets memoryOffset ;;
  let memoryOffset := i64_align current (Type_.byteSize (Options.usizeType options)) in
  modify (set_memoryOffset memoryOffset) ;;
  (if Options.isWasm64 options then
     e <- createI64 (i64_low memoryOffset) (i64_high memoryOffset) ;;
     addGlobal "HEAP_BASE" NativeType.I64 false e
   else
     e <- createI32 (i64_low memoryOffset) ;;
     addGlobal "HEAP_BASE" NativeType.I32 false e) ;;
  segments <- gets memorySegments ;;
  let numPages :=
    if negb (length segments =? 0)%nat
    then i64_low (i64_shr_u (i64_align memoryOffset 65536) (i64_new 16 0))
    else 0 in
  setMemory numPages
    (if Options.isWasm64 options then MAX_MEMORY_WASM64 else MAX_MEMORY_WASM32)
    segments (Options.target options) "memory".

(** What the facts about memory are stated with. *)

Definition isPowerOfTwo (a : Z) : bool := (0 <? a) && (a =? 2 ^ Z.log2 a).

Definition requested (requests : list (Buffer.Uint8Array * Z)) : Z :=
  fold_right (fun r acc => snd r + Z.of_nat (length (fst r)) + acc) 0 requests.

Definition wellFormedRequest (r : Buffer.Uint8Array * Z) : bool :=
  isPowerOfTwo (snd r) && (Z.of_nat (length (fst r)) <? 2 ^ 32).

(** [placed start requests segments final]: the segments hold the requested
    buffers in order, each starts at the offset reached so far rounded up
    to its alignment, and the offset then moves past its buffer. *)
Fixpoint placed (start : Z) (requests : list (Buffer.Uint8Array * Z))
    (segments : list MemorySegment) (final : Z) : Prop :=
  match requests, segments with
  | [], [] => final = start
  | r :: requests', s :: segments' =>
      buffer s = fst r /\
      offset s = align_up start (snd r) /\
      start <= offset s /\
      placed (offset s + Z.of_nat (length (fst r))) requests' segments' final
  | _, _ => False
  end.

Definition ceilDiv (a b : Z) : Z := (a + b - 1) / b.

Definition initialPages (c : Compiler) : option Z :=
  memory_initial <$> memory (module c).

(** ** The methods of the compiler *)

Section Methods.

(** What the embedded methods call without being embedded themselves:
    methods of the collaborators, and the recursive descent through
    expressions and function bodies. *)

(** [flow.canOverflow(expr, type)] of [program.ts]; it looks at the flow
    and, through the program, at the functions compiled so far. *)
Variable Flow_canOverflow : Compiler -> Flow.t -> ExpressionRef -> Type_.t -> bool.

(** [fromType.isAssignableTo(toType)] of [types.ts]. *)
Variable Type_isAssignableTo : Type_.t -> Type_.t -> bool.

(** [compileExpression(expression, contextualType, conversionKind, wrapMode)] *)
Variable compileExpression :
  Expression -> Type_.t -> ConversionKind -> WrapMode -> M ExpressionRef.

(** [ensureSmallIntegerWrap(expr, type)] *)
Definition ensureSmallIntegerWrap (expr : ExpressionRef) (type : Type_.t) : M ExpressionRef :=
  c <- gets (fun c => c) ;;
  currentFunction <- getFunction (currentFunction c) ;;
  let flow := Function.flow currentFunction in
  match Type_.kind type with
  | TypeKind.I8 =>
      if Flow_canOverflow c flow expr type then
        if Options.hasFeature (options c) Feature.SIGN_EXTENSION
        then createUnary ExtendI8ToI32 expr
        else
          k1 <- createI32 24 ;;
          shl <- createBinary ShlI32 expr k1 ;;
          k2 <- createI32 24 ;;
          createBinary ShrI32 shl k2
      else ret expr
  | TypeKind.I16 =>
      if Flow_canOverflow c flow expr type then
        if Options.hasFeature (options c) Feature.SIGN_EXTENSION
        then createUnary ExtendI16ToI32 expr
        else
          k1 <- createI32 16 ;;
          shl <- createBinary ShlI32 expr k1 ;;
          k2 <- createI32 16 ;;
          createBinary ShrI32 shl k2
      else ret expr
  | TypeKind.U8 =>
      if Flow_canOverflow c flow expr type then
        k <- createI32 255 ;;
        createBinary AndI32 expr k
      else ret expr
  | TypeKind.U16 =>
      if Flow_canOverflow c flow expr type then
        k <- createI32 65535 ;;
        createBinary AndI32 expr k
      else ret expr
  | TypeKind.BOOL =>
      if Flow_canOverflow c flow expr type then
        k <- createI32 1 ;;
        createBinary AndI32 expr k
      else ret expr
  | _ => ret expr
  end.

Definition isNone (k : ConversionKind) : bool :=
  match k with ConversionKind_NONE => true | _ => false end.
Definition isImplicit (k : ConversionKind) : bool :=
  match k with IMPLICIT => true | _ => false end.
Definition isWrap (w : WrapMode) : bool :=
  match w with WRAP => true | _ => false end.

(** [convertExpression(expr, fromType, toType, conversionKind, wrapMode, reportNode)] *)
Definition convertExpression (expr : ExpressionRef) (fromType toType : Type_.t)
    (conversionKind : ConversionKind) (wrapMode : WrapMode) (reportNode : Expression)
  : M ExpressionRef :=
  let fromIs := Type_.is_ fromType in
  let toIs := Type_.is_ toType in
  let fromKind := TypeKind.eqb (Type_.kind fromType) in
  let toKind := TypeKind.eqb (Type_.kind toType) in
  assert (negb (isNone conversionKind)) ;;
  (* void to any *)
  if fromKind TypeKind.VOID then
    assert (negb (toKind TypeKind.VOID)) ;;
    error Type_0_is_not_assignable_to_type_1 (Node.range reportNode)
      [Type_.toString fromType; Type_.toString toType] ;;
    createUnreachable
  (* any to void *)
  else if toKind TypeKind.VOID then createDrop expr
  else
    (if negb (Type_isAssignableTo fromType toType) && isImplicit conversionKind
     then error Conversion_from_type_0_to_1_requires_an_explicit_cast
            (Node.range reportNode) [Type_.toString fromType; Type_.toString toType]
     else ret tt) ;;
    r <- (if fromIs TypeFlags.FLOAT then
            (* float to float *)
            if toIs TypeFlags.FLOAT then
              if fromKind TypeKind.F32 then
                if toKind TypeKind.F64
                then e <- createUnary PromoteF32 expr ;; ret (e, wrapMode)
                else ret (expr, wrapMode)
              else if toKind TypeKind.F32
                then e <- createUnary DemoteF64 expr ;; ret (e, wrapMode)
                else ret (expr, wrapMode)
            (* float to int *)
            else if toIs TypeFlags.INTEGER then
              e <- createUnary
                     (if fromKind TypeKind.F32 then
                        if toIs TypeFlags.SIGNED
                        then (if toIs TypeFlags.LONG then TruncF32ToI64 else TruncF32ToI32)
                        else (if toIs TypeFlags.LONG then TruncF32ToU64 else TruncF32ToU32)
                      else
                        if toIs TypeFlags.SIGNED
                        then (if toIs TypeFlags.LONG then TruncF64ToI64 else TruncF64ToI32)
                        else (if toIs TypeFlags.LONG then TruncF64ToU64 else TruncF64ToU32))
                     expr ;;
              ret (e, wrapMode)
            (* float to void *)
            else
              assert (Type_.flags toType =? TypeFlags.NONE) ;;
              e <- createDrop expr ;; ret (e, wrapMode)
          (* int to float *)
          else if fromIs TypeFlags.INTEGER && toIs TypeFlags.FLOAT then
            e <- createUnary
                   (if toKind TypeKind.F32 then
                      if fromIs TypeFlags.LONG
                      then (if fromIs TypeFlags.SIGNED then ConvertI64ToF32 else ConvertU64ToF32)
                      else (if fromIs TypeFlags.SIGNED then ConvertI32ToF32 else ConvertU32ToF32)
                    else
                      if fromIs TypeFlags.LONG
                      then (if fromIs TypeFlags.SIGNED then ConvertI64ToF64 else ConvertU64ToF64)
                      else (if fromIs TypeFlags.SIGNED then ConvertI32ToF64 else ConvertU32ToF64))
                   expr ;;
            ret (e, wrapMode)
          (* int to int *)
          else if fromIs TypeFlags.LONG then
            (* i64 to i32 or smaller *)
            if negb (toIs TypeFlags.LONG)
            then e <- createUnary WrapI64 expr ;; ret (e, wrapMode)
            else ret (expr, wrapMode)
          (* i32 or smaller to i64 *)
          else if toIs TypeFlags.LONG then
            w <- ensureSmallIntegerWrap expr fromType ;;
            e <- createUnary
                   (if fromIs TypeFlags.SIGNED then ExtendI32 else ExtendU32) w ;;
            ret (e, WrapMode_NONE)
          (* small i32 to larger i32 *)
          else if fromIs TypeFlags.SHORT && (Type_.size fromType <? Type_.size toType) then
            e <- ensureSmallIntegerWrap expr fromType ;;
            ret (e, WrapMode_NONE)
          else ret (expr, wrapMode)) ;;
    modify (set_currentType toType) ;;
    if isWrap (snd r)
    then ensureSmallIntegerWrap (fst r) toType
    else ret (fst r).


(** [ensureFunctionType(parameterTypes, returnType, thisType)] *)
Definition ensureFunctionType (parameterTypes : option (list Type_.t))
    (returnType : Type_.t) (thisType : option Type_.t) : M Z :=
  let paramTypes :=
    (match thisType with Some t => [Type_.toNativeType t] | None => [] end
     ++ map Type_.toNativeType (default [] parameterTypes))%list in
  let resultType := Type_.toNativeType returnType in
  typeRef <- getFunctionTypeBySignature resultType paramTypes ;;
  if typeRef =? 0 then
    let name :=
      Signature.makeSignatureString (default [] parameterTypes) returnType thisType in
    addFunctionType name resultType paramTypes
  else ret typeRef.

(** [compileFunction(instance)]: a compiled function is not compiled
    again.  The compilation proper (the rest of the method, which descends
    into the body's statements) is [compileFunction_uncompiled]. *)
Variable compileFunction_uncompiled : FunctionPtr -> M bool.

Definition compileFunction (instance : FunctionPtr) : M bool :=
  f <- getFunction instance ;;
  if FunctionOps.is_ f CommonFlags.COMPILED then ret true
  else compileFunction_uncompiled instance.

(** *** Function table and trampolines *)

(** The labels [0ofN .. NofN] of a trampoline's [br_table]. *)
Definition trampolineLabels (numOptional : Z) : list string :=
  map (fun i => pretty i +:+ "of" +:+ pretty numOptional) (seqZ 0 (numOptional + 1)).

(** One round of the loop over the optional parameters: [acc] holds the
    body built so far and the operands forwarded so far. *)
Definition ensureTrampoline_optional (parameterTypes : list Type_.t)
    (parameterDeclarations : list ParameterNode.t) (names : list string)
    (minArguments firstOptionalOperand : Z)
    (acc : ExpressionRef * list ExpressionRef) (i : Z)
  : M (ExpressionRef * list ExpressionRef) :=
  let operandIndex := firstOptionalOperand + i in
  type <- defined (lookupZ parameterTypes (minArguments + i)) ;;
  declaration <- defined (lookupZ parameterDeclarations (minArguments + i)) ;;
  initExpr <-
    match ParameterNode.initializer declaration with
    | Some initializer =>
        e <- compileExpression initializer type IMPLICIT WRAP ;;
        createSetLocal operandIndex e
    | None =>
        error Optional_parameter_must_have_an_initializer
          (ParameterNode.range declaration) [] ;;
        createUnreachable
    end ;;
  body <- createBlock (lookupZ names (i + 1)) [fst acc; initExpr] NativeType.None ;;
  forwarded <- createGetLocal operandIndex (Type_.toNativeType type) ;;
  ret (body, (snd acc ++ [forwarded])%list).

(** [ensureTrampoline(original)] *)
Definition ensureTrampoline (original : FunctionPtr) : M FunctionPtr :=
  o <- getFunction original ;;
  match Function.trampoline o with
  | Some trampoline => ret trampoline
  | None =>
    let originalSignature := Function.signature o in
    let originalName := Function.internalName o in
    let originalParameterTypes := Signature.parameterTypes originalSignature in
    let originalParameterDeclarations := FunctionPrototype.parameters (Function.prototype o) in
    let commonReturnType := Signature.returnType originalSignature in
    let commonThisType := Signature.thisType originalSignature in
    let isInstance := FunctionOps.is_ o CommonFlags.INSTANCE in
    (* arguments excl. `this`, operands incl. `this` *)
    let minArguments := Signature.requiredParameters originalSignature in
    let maxArguments := Z.of_nat (length originalParameterTypes) in
    let minOperands := if isInstance then minArguments + 1 else minArguments in
    let maxOperands := if isInstance then maxArguments + 1 else maxArguments in
    let numOptional := maxOperands - minOperands in
    assert (negb (numOptional =? 0)) ;;
    (* new Array<ExpressionRef>(minOperands): a negative length throws *)
    assert (0 <=? minOperands) ;;
    nativeSizeType <- gets (fun c => Options.nativeSizeType (options c)) ;;
    (* forward `this` if applicable *)
    forwardedThis <-
      (if isInstance then e <- createGetLocal 0 nativeSizeType ;; ret [e] else ret []) ;;
    let firstArgument := if isInstance then 1 else 0 in
    (* forward required arguments *)
    forwardedRequired <-
      mapM (fun i =>
              type <- defined (lookupZ originalParameterTypes i) ;;
              createGetLocal (firstArgument + i) (Type_.toNativeType type))
           (seqZ 0 minArguments) ;;
    (* assert(operandIndex == minOperands) *)
    assert (firstArgument + Z.of_nat (length forwardedRequired) =? minOperands) ;;
    (* create the trampoline element *)
    let trampolineSignature :=
      Signature.set_requiredParameters maxArguments
        (Signature.create originalParameterTypes commonReturnType commonThisType) in
    let trampolineName := originalName +:+ "|trampoline" in
    trampoline <-
      newFunction
        (Function.set_flags
           (Z.lor (Z.lor (Function.flags o) CommonFlags.TRAMPOLINE) CommonFlags.COMPILED)
           (FunctionOps.create (Function.prototype o) trampolineName trampolineSignature
              (Function.parent o))) ;;
    updateFunction original (Function.set_trampoline (Some trampoline)) ;;
    (* compile initializers of omitted arguments in scope of the trampoline function *)
    previousFunction <- gets currentFunction ;;
    modify (set_currentFunction trampoline) ;;
    (* create a br_table switching over the number of optional parameters provided *)
    (* new Array<string>(numNames), numNames = numOptional + 1 incl. outer block *)
    assert (0 <=? numOptional + 1) ;;
    let names := trampolineLabels numOptional in
    condition <-
      (if negb (minArguments =? 0) then
         argc <- createGetGlobal "~argc" NativeType.I32 ;;
         k <- createI32 minArguments ;;
         createBinary SubI32 argc k
       else createGetGlobal "~argc" NativeType.I32) ;;
    switch <- createSwitch names "outOfRange" condition ;;
    outOfRange <- createBlock (Some "outOfRange") [switch] NativeType.None ;;
    unreachable <- createUnreachable ;;
    body <- createBlock (lookupZ names 0) [outOfRange; unreachable] NativeType.None ;;
    r <- foldM (ensureTrampoline_optional originalParameterTypes
                  originalParameterDeclarations names minArguments minOperands)
           (seqZ 0 numOptional) (body, (forwardedThis ++ forwardedRequired)%list) ;;
    modify (set_currentFunction previousFunction) ;;
    (* assert(operandIndex == maxOperands) *)
    assert (Z.of_nat (length (snd r)) =? maxOperands) ;;
    typeRef <- ensureFunctionType (Some (Signature.parameterTypes trampolineSignature))
                 (Signature.returnType trampolineSignature)
                 (Signature.thisType trampolineSignature) ;;
    t <- getFunction trampoline ;;
    call <- createCall originalName (snd r) (Type_.toNativeType commonReturnType) ;;
    block <- createBlock None [fst r; call] (Type_.toNativeType commonReturnType) ;;
    funcRef <- addFunction trampolineName typeRef
                 (typesToNativeTypes (Function.additionalLocals t)) block ;;
    updateFunction trampoline (Function.set_ref funcRef) ;;
    ret trampoline
  end.

(** [ensureFunctionTableEntry(func)] *)
Definition ensureFunctionTableEntry (func : FunctionPtr) : M Z :=
  f <- getFunction func ;;
  assert (FunctionOps.is_ f CommonFlags.COMPILED) ;;
  if 0 <=? Function.functionTableIndex f then ret (Function.functionTableIndex f)
  else
    functionTable0 <- gets functionTable ;;
    let index := Z.of_nat (length functionTable0) in
    func <-
      (if negb (FunctionOps.is_ f CommonFlags.TRAMPOLINE)
          && (Signature.requiredParameters (Function.signature f)
              <? Z.of_nat (length (Signature.parameterTypes (Function.signature f))))
       then (* insert the trampoline if the function has optional parameters *)
         ensureTrampoline func
       else ret func) ;;
    f <- getFunction func ;;
    modify (fun c => set_functionTable (functionTable c ++ [Function.internalName f]) c) ;;
    updateFunction func (Function.set_functionTableIndex index) ;;
    ret index.

(** [ensureArgcVar()] *)
Definition ensureArgcVar : M string :=
  argcVar <- gets argcVar ;;
  (if argcVar =? 0 then
     zero <- createI32 0 ;;
     g <- addGlobal "~argc" NativeType.I32 true zero ;;
     modify (set_argcVar g)
   else ret tt) ;;
  ret "~argc".

(** *** Direct calls *)

(** The first loop of [makeCallDirect]: are the initializers of all
    omitted parameters constant values?  It stops at the first that is
    not; reading a parameter node that does not exist throws ([None]). *)
Fixpoint allOptionalsAreConstant (parameterNodes : list ParameterNode.t)
    (indices : list Z) : option bool :=
  match indices with
  | [] => Some true
  | i :: indices' =>
      match lookupZ parameterNodes i with
      | Some node =>
          match ParameterNode.initializer node with
          | Some initializer =>
              if nodeIsConstantValue (Node.kind initializer)
              then allOptionalsAreConstant parameterNodes indices'
              else Some false
          | None => Some false
          end
      | None => None
      end
  end.

(** The second loop: the constant initializers are compiled as operands. *)
Definition makeCallDirect_inline (parameterNodes : list ParameterNode.t)
    (parameterTypes : list Type_.t) (indices : list Z) : M (list ExpressionRef) :=
  mapM (fun i =>
          node <- defined (lookupZ parameterNodes i) ;;
          initializer <- defined (ParameterNode.initializer node) ;;
          type <- defined (lookupZ parameterTypes i) ;;
          compileExpression initializer type IMPLICIT WrapMode_NONE)
       indices.

(** The third loop: the omitted operands are filled up with zeroes. *)
Definition makeCallDirect_zeroes (parameterTypes : list Type_.t) (indices : list Z)
  : M (list ExpressionRef) :=
  mapM (fun i => type <- defined (lookupZ parameterTypes i) ;; toNativeZero type) indices.

(** [makeCallDirect(instance, operands = null)] *)
Definition makeCallDirect (instance : FunctionPtr) (operands : option (list ExpressionRef))
  : M ExpressionRef :=
  f <- getFunction instance ;;
  let numOperands := match operands with Some ops => Z.of_nat (length ops) | None => 0 end in
  let isInstance := FunctionOps.is_ f CommonFlags.INSTANCE in
  let numArguments := if isInstance then numOperands - 1 else numOperands in
  let minArguments := Signature.requiredParameters (Function.signature f) in
  let maxArguments := Z.of_nat (length (Signature.parameterTypes (Function.signature f))) in
  let minOperands := if isInstance then minArguments + 1 else minArguments in
  let maxOperands := if isInstance then maxArguments + 1 else maxArguments in
  assert (minOperands <=? numOperands) ;;
  compiled <- compileFunction instance ;;
  if negb compiled then createUnreachable
  else
    f <- getFunction instance ;;
    let returnType := Signature.returnType (Function.signature f) in
    let isCallImport := FunctionOps.is_ f CommonFlags.MODULE_IMPORT in
    let operands := default [] operands in
    let callThrough (operands : list ExpressionRef) : M ExpressionRef :=
      (* otherwise just call through *)
      modify (set_currentType returnType) ;;
      f <- getFunction instance ;;
      if isCallImport
      then createCallImport (Function.internalName f) operands (Type_.toNativeType returnType)
      else createCall (Function.internalName f) operands (Type_.toNativeType returnType) in
    (* fill up omitted arguments with their initializers, if constant, otherwise with zeroes. *)
    if numOperands <? maxOperands then
      let parameterTypes := Signature.parameterTypes (Function.signature f) in
      let parameterNodes := FunctionPrototype.parameters (Function.prototype f) in
      let omitted := seqZ numArguments (maxArguments - numArguments) in
      constant <- defined (allOptionalsAreConstant parameterNodes omitted) ;;
      if constant then (* inline into the call *)
        inlined <- makeCallDirect_inline parameterNodes parameterTypes omitted ;;
        callThrough (operands ++ inlined)%list
      else (* otherwise fill up with zeroes and call the trampoline *)
        zeroes <- makeCallDirect_zeroes parameterTypes omitted ;;
        let operands := (operands ++ zeroes)%list in
        if negb isCallImport then
          let original := instance in
          instance <- ensureTrampoline instance ;;
          compiled <- compileFunction instance ;;
          if negb compiled then createUnreachable
          else
            o <- getFunction original ;;
            updateFunction instance
              (fun t => Function.set_flow
                          (Flow.set_flags (Flow.flags (Function.flow o)) (Function.flow t)) t) ;;
            t <- getFunction instance ;;
            (* so canOverflow can find it *)
            modify (fun c =>
              set_program
                (Program.set_instancesLookup
                   (<[Function.internalName t := instance]>
                      (Program.instancesLookup (program c))) (program c)) c) ;;
            let nativeReturnType := Type_.toNativeType returnType in
            modify (set_currentType returnType) ;;
            argc <- ensureArgcVar ;;
            n <- createI32 numArguments ;;
            setArgc <- createSetGlobal argc n ;;
            t <- getFunction instance ;;
            call <- createCall (Function.internalName t) operands nativeReturnType ;;
            createBlock None [setArgc; call] nativeReturnType
        else callThrough operands
    else callThrough operands.

(** *** Static strings *)

(** [ensureGCHook(compiler, classInstance)] of [builtins.ts], which
    returns the index of the class's GC hook. *)
Variable ensureGCHook : Class.t -> M Z.

(** [classInstance.offsetof(fieldName)] of [program.ts]: the offset of the
    field, which must exist. *)
Definition offsetof (classInstance : Class.t) (fieldName : string) : M Z :=
  defined (Class.members classInstance !! fieldName).

(** The loop that writes the code units: unit [i] goes to [pos + (i << 1)]. *)
Fixpoint writeCodeUnits (units : list Z) (buf : Buffer.Uint8Array) (pos : Z)
  : Buffer.Uint8Array :=
  match units with
  | [] => buf
  | u :: units' => writeCodeUnits units' (Buffer.writeI16 u buf pos) (pos + 2)
  end.

(** [ensureStaticString(stringValue)] *)
Definition ensureStaticString (stringValue : JSString) : M ExpressionRef :=
  program <- gets program ;;
  let hasGC := Program.hasGC program in
  let gcHeaderSize := Program.gcHeaderSize program in
  stringInstance <- defined (Program.stringInstance program) ;;
  segments <- gets stringSegments ;;
  stringSegment <-
    match segments !! stringValue with
    | Some stringSegment => ret stringSegment    (* if the string already exists, reuse it *)
    | None =>                                      (* otherwise create it *)
        let length := Z.of_nat (length stringValue) in
        let headerSize := Z.land (Class.currentMemoryOffset stringInstance + 1) (Z.lnot 1) in
        let totalSize := headerSize + length * 2 in
        start <-
          (if hasGC then
             let buf := Buffer.create (gcHeaderSize + totalSize) in
             hook <- ensureGCHook stringInstance ;;
             ret (Buffer.writeI32 hook buf (Program.gcHookOffset program), gcHeaderSize)
           else ret (Buffer.create totalSize, 0)) ;;
        let pos := snd start in
        lengthOffset <- offsetof stringInstance "length" ;;
        let buf := Buffer.writeI32 length (fst start) (pos + lengthOffset) in
        let pos := pos + headerSize in
        let buf := writeCodeUnits stringValue buf pos in
        stringSegment <- addMemorySegment buf 8 ;;
        modify (fun c => set_stringSegments (<[stringValue := stringSegment]> (stringSegments c)) c) ;;
        ret stringSegment
    end ;;
  let stringOffset :=
    if hasGC then i64_add (offset stringSegment) (i64_new gcHeaderSize 0)
    else offset stringSegment in
  modify (set_currentType (Class.type stringInstance)) ;;
  isWasm64 <- gets (fun c => Options.isWasm64 (options c)) ;;
  if isWasm64 then createI64 (i64_low stringOffset) (i64_high stringOffset)
  else
    assert (i64_is_u32 stringOffset) ;;
    createI32 (i64_low stringOffset).

(** *** Enums *)

(** [module.precomputeExpression(expr)] of the IR builder. *)
Variable precomputeExpression : ExpressionRef -> M ExpressionRef.

(** [element.is(flag)] and [element.set(flag)] on an element that is not a
    function, by internal name. *)
Definition elementIs (internalName : string) (flag : Z) : M bool :=
  gets (fun c => Flags.is_ (default 0 (elementFlags c !! internalName)) flag).

Definition elementSet (internalName : string) (flag : Z) : M unit :=
  modify (fun c =>
    set_elementFlags
      (<[internalName := Flags.set (default 0 (elementFlags c !! internalName)) flag]>
         (elementFlags c)) c).

Definition isEnumValue (k : ElementKind.t) : bool :=
  match k with ElementKind.ENUMVALUE => true | _ => false end.

(** The body of the loop over the members in [compileEnum]; [state] is
    [(previousValue, previousValueIsMut)]. *)
Definition compileEnum_member (element : Enum.t) (state : option EnumValue.t * bool)
    (member : EnumValue.t) : M (option EnumValue.t * bool) :=
  let previousValue := fst state in
  let previousValueIsMut := snd state in
  if negb (isEnumValue (EnumValue.kind member)) then ret state
  else
    let val := member in
    elementSet (EnumValue.internalName val) CommonFlags.COMPILED ;;
    init <-
      match EnumValue.value val with
      | Some value =>
          initExpr <- compileExpression value Type_.i32 IMPLICIT WrapMode_NONE ;;
          if negb (isConst initExpr) then
            const <- elementIs (Enum.internalName element) CommonFlags.CONST ;;
            if const then
              initExpr <- precomputeExpression initExpr ;;
              if negb (isConst initExpr) then
                error In_const_enum_declarations_member_initializer_must_be_constant_expression
                  (Node.range value) [] ;;
                ret (initExpr, true)
              else ret (initExpr, false)
            else ret (initExpr, true)
          else ret (initExpr, false)
      | None =>
          match previousValue with
          | None => initExpr <- createI32 0 ;; ret (initExpr, false)
          | Some previousValue =>
              (if previousValueIsMut
               then error Enum_member_must_have_initializer (EnumValue.range val) []
               else ret tt) ;;
              previous <- createGetGlobal (EnumValue.internalName previousValue)
                            NativeType.I32 ;;
              one <- createI32 1 ;;
              initExpr <- createBinary AddI32 previous one ;;
              initExpr <- precomputeExpression initExpr ;;
              if negb (isConst initExpr) then
                const <- elementIs (Enum.internalName element) CommonFlags.CONST ;;
                (if const
                 then error
                        In_const_enum_declarations_member_initializer_must_be_constant_expression
                        (EnumValue.range val) []
                 else ret tt) ;;
                ret (initExpr, true)
              else ret (initExpr, false)
          end
      end ;;
    let initExpr := fst init in
    let initInStart := snd init in
    (if initInStart then
       zero <- createI32 0 ;;
       addGlobal (EnumValue.internalName val) NativeType.I32 true zero ;;
       setGlobal <- createSetGlobal (EnumValue.internalName val) initExpr ;;
       modify (fun c => set_startFunctionBody (startFunctionBody c ++ [setGlobal]) c)
     else
       const <- elementIs (Enum.internalName element) CommonFlags.CONST ;;
       addGlobal (EnumValue.internalName val) NativeType.I32 (negb const) initExpr ;;
       ret tt) ;;
    ret (Some val, initInStart).

(** [compileEnum(element)] *)
Definition compileEnum (element : Enum.t) : M bool :=
  compiled <- elementIs (Enum.internalName element) CommonFlags.COMPILED ;;
  if compiled then ret true
  else
    elementSet (Enum.internalName element) CommonFlags.COMPILED ;;
    modify (set_currentEnum (Some (Enum.internalName element))) ;;
    match Enum.members element with
    | Some members => foldM (compileEnum_member element) members (None, false) ;; ret tt
    | None => ret tt
    end ;;
    modify (set_currentEnum None) ;;
    ret true.

(** *** Shifts to the right *)

(** [classReference.lookupOverload(kind)] of [program.ts]. *)
Variable lookupOverload : string -> OperatorKind -> option FunctionPtr.

Definition classReference_overload (leftType : Type_.t) (kind : OperatorKind)
  : option FunctionPtr :=
  match Type_.classReference leftType with
  | Some classReference => lookupOverload classReference kind
  | None => None
  end.

(** [compileBinaryOverload] and [compileAssignmentWithValue], which
    descend into calls and assignments. *)
Variable compileBinaryOverload :
  FunctionPtr -> Expression -> ExpressionRef -> Expression -> Expression -> M ExpressionRef.
Variable compileAssignmentWithValue : Expression -> ExpressionRef -> bool -> M ExpressionRef.

(** The cases of [compileBinaryExpression] for the other operators. *)
Variable compileBinaryExpression_other : Expression -> Type_.t -> M ExpressionRef.

(** [compileExpressionRetainType(expression, contextualType, wrapMode)] *)
Definition compileExpressionRetainType (expression : Expression) (contextualType : Type_.t)
    (wrapMode : WrapMode) : M ExpressionRef :=
  compileExpression expression
    (if TypeKind.eqb (Type_.kind contextualType) TypeKind.VOID then Type_.i32
     else contextualType)
    ConversionKind_NONE wrapMode.

(** How a case of the operator switch ends: with [break], which leads to
    the end of the method, or with [return]. *)
Inductive Completion :=
| Break (expr : ExpressionRef)
| Return (expr : ExpressionRef).

(** The common head of the shift cases: the left operand, and the operator
    overload when the left operand is a reference. *)
Definition compileShiftOperands (kind : OperatorKind) (wrapRight : WrapMode)
    (expression left right : Expression) (contextualType : Type_.t)
    (emit : ExpressionRef -> ExpressionRef -> M Completion) : M Completion :=
  leftExpr <- compileExpressionRetainType left (Type_.intType contextualType) WrapMode_NONE ;;
  leftType <- gets currentType ;;
  (* check operator overload *)
  if Type_.is_ leftType TypeFlags.REFERENCE then
    match classReference_overload leftType kind with
    | Some overload =>
        expr <- compileBinaryOverload overload left leftExpr right expression ;;
        ret (Break expr)
    | None =>
        error Operation_not_supported (Node.range expression) [] ;;
        expr <- createUnreachable ;;
        ret (Return expr)
    end
  else
    leftExpr <- ensureSmallIntegerWrap leftExpr leftType ;; (* must clear garbage bits *)
    rightExpr <- compileExpression right leftType IMPLICIT wrapRight ;;
    emit leftExpr rightExpr.

Definition operatorNotApplicable (expression : Expression) (operator : Token.t)
  : M Completion :=
  currentType <- gets currentType ;;
  error The_0_operator_cannot_be_applied_to_type_1 (Node.range expression)
    [operatorTokenToString operator; Type_.toString currentType] ;;
  expr <- createUnreachable ;;
  ret (Return expr).

(** The [switch] over the kind of the common type in
    [case Token.GREATERTHAN_GREATERTHAN]. *)
Definition compileShr_switch (expression : Expression) (operator : Token.t)
    (leftExpr rightExpr : ExpressionRef) : M Completion :=
  currentType <- gets currentType ;;
  isWasm64 <- gets (fun c => Options.isWasm64 (options c)) ;;
  match Type_.kind currentType with
  | TypeKind.I8 | TypeKind.I16 =>
      expr <- createBinary ShrI32 leftExpr rightExpr ;; ret (Break expr)
  | TypeKind.I32 =>
      expr <- createBinary ShrI32 leftExpr rightExpr ;; ret (Break expr)
  | TypeKind.I64 =>
      expr <- createBinary ShrI64 leftExpr rightExpr ;; ret (Break expr)
  | TypeKind.ISIZE =>
      expr <- createBinary (if isWasm64 then ShrI64 else ShrI32) leftExpr rightExpr ;;
      ret (Break expr)
  | TypeKind.U8 | TypeKind.U16 | TypeKind.BOOL =>
      expr <- createBinary ShrU32 leftExpr rightExpr ;; ret (Break expr)
  | TypeKind.U32 =>
      expr <- createBinary ShrU32 leftExpr rightExpr ;; ret (Break expr)
  | TypeKind.U64 =>
      expr <- createBinary ShrU64 leftExpr rightExpr ;; ret (Break expr)
  | TypeKind.USIZE =>
      expr <- createBinary (if isWasm64 then ShrU64 else ShrU32) leftExpr rightExpr ;;
      ret (Break expr)
  | TypeKind.F32 | TypeKind.F64 => operatorNotApplicable expression operator
  | TypeKind.VOID => assert false ;; expr <- createUnreachable ;; ret (Break expr)
  end.

(** [case Token.GREATERTHAN_GREATERTHAN] *)
Definition compileShr (expression : Expression) (operator : Token.t)
    (left right : Expression) (contextualType : Type_.t) : M Completion :=
  compileShiftOperands BITWISE_SHR WRAP expression left right contextualType
    (compileShr_switch expression operator).

(** The [switch] over the kind of the common type in
    [case Token.GREATERTHAN_GREATERTHAN_GREATERTHAN].  The case of [u8],
    [u16] and [bool] has no [break]: it creates its node and goes on into
    the next case, which creates the node again. *)
Definition compileShrU_switch (expression : Expression) (operator : Token.t)
    (leftExpr rightExpr : ExpressionRef) : M Completion :=
  currentType <- gets currentType ;;
  isWasm64 <- gets (fun c => Options.isWasm64 (options c)) ;;
  match Type_.kind currentType with
  | TypeKind.U8 | TypeKind.U16 | TypeKind.BOOL =>
      (* assumes that unsigned shr on unsigned small integers does not overflow *)
      expr <- createBinary ShrU32 leftExpr rightExpr ;;
      expr <- createBinary ShrU32 leftExpr rightExpr ;; ret (Break expr)
  | TypeKind.I8 | TypeKind.I16 | TypeKind.I32 | TypeKind.U32 =>
      expr <- createBinary ShrU32 leftExpr rightExpr ;; ret (Break expr)
  | TypeKind.I64 | TypeKind.U64 =>
      expr <- createBinary ShrU64 leftExpr rightExpr ;; ret (Break expr)
  | TypeKind.USIZE | TypeKind.ISIZE =>
      expr <- createBinary (if isWasm64 then ShrU64 else ShrU32) leftExpr rightExpr ;;
      ret (Break expr)
  | TypeKind.F32 | TypeKind.F64 => operatorNotApplicable expression operator
  | TypeKind.VOID => assert false ;; expr <- createUnreachable ;; ret (Break expr)
  end.

(** [case Token.GREATERTHAN_GREATERTHAN_GREATERTHAN] *)
Definition compileShrU (expression : Expression) (operator : Token.t)
    (left right : Expression) (contextualType : Type_.t) : M Completion :=
  compileShiftOperands BITWISE_SHR_U WrapMode_NONE expression left right contextualType
    (compileShrU_switch expression operator).

(** [compileBinaryExpression(expression, contextualType)], with the cases
    of the two right shifts and of their compound assignments. *)
Definition compileBinaryExpression (expression : Expression) (contextualType : Type_.t)
  : M ExpressionRef :=
  match expression with
  | BinaryExpression operator left_ right_ _ =>
      let finish (compound : bool) (case : M Completion) : M ExpressionRef :=
        completion <- case ;;
        match completion with
        | Return expr => ret expr
        | Break expr =>
            if compound
            then compileAssignmentWithValue left_ expr
                   (negb (TypeKind.eqb (Type_.kind contextualType) TypeKind.VOID))
            else ret expr
        end in
      match operator with
      | Token.GREATERTHAN_GREATERTHAN_EQUALS =>
          finish true (compileShr expression operator left_ right_ contextualType)
      | Token.GREATERTHAN_GREATERTHAN =>
          finish false (compileShr expression operator left_ right_ contextualType)
      | Token.GREATERTHAN_GREATERTHAN_GREATERTHAN_EQUALS =>
          finish true (compileShrU expression operator left_ right_ contextualType)
      | Token.GREATERTHAN_GREATERTHAN_GREATERTHAN =>
          finish false (compileShrU expression operator left_ right_ contextualType)
      | _ => compileBinaryExpression_other expression contextualType
      end
  | _ => throw
  end.

(** ** What the facts below are stated with *)

Definition notAssignable (fromType toType : Type_.t) (reportNode : Expression)
  : DiagnosticMessage.t :=
  {| DiagnosticMessage.code := Type_0_is_not_assignable_to_type_1;
     DiagnosticMessage.category := ERROR;
     DiagnosticMessage.range := Node.range reportNode;
     DiagnosticMessage.args := [Type_.toString fromType; Type_.toString toType] |}.


(** The nodes a run has created, and how many of them are [ShrU32]. *)
Definition createdBy (c c' : Compiler) : list ExpressionRef :=
  drop (length (created (module c))) (created (module c')).

Definition countShrU32 (nodes : list ExpressionRef) : nat :=
  length (List.filter isShrU32 nodes).

(** The diagnostics and the globals of an enum member. *)
Definition mustHaveInitializer (member : EnumValue.t) : DiagnosticMessage.t :=
  {| DiagnosticMessage.code := Enum_member_must_have_initializer;
     DiagnosticMessage.category := ERROR;
     DiagnosticMessage.range := EnumValue.range member;
     DiagnosticMessage.args := [] |}.

Definition mustBeConstant (range : Range) : DiagnosticMessage.t :=
  {| DiagnosticMessage.code :=
       In_const_enum_declarations_member_initializer_must_be_constant_expression;
     DiagnosticMessage.category := ERROR;
     DiagnosticMessage.range := range;
     DiagnosticMessage.args := [] |}.

Definition enumGlobal (member : EnumValue.t) (mutable : bool) (init : ExpressionRef)
  : GlobalDef :=
  {| global_name := EnumValue.internalName member; global_type := NativeType.I32;
     global_mutable := mutable; global_init := init |}.

Definition previousPlusOne (previousValue : EnumValue.t) : ExpressionRef :=
  Binary AddI32 (GetGlobal (EnumValue.internalName previousValue) NativeType.I32) (ConstI32 1).

Definition isConstEnum (element : Enum.t) (c : Compiler) : bool :=
  Flags.is_ (default 0 (elementFlags c !! Enum.internalName element)) CommonFlags.CONST.

(** [initialized element member init c]: in [c], the enum value [member]
    is what has been initialized last, with [init]: by the initializer of
    its global when [init] is a constant, and else in the start function,
    whose last statement assigns [init] to the global, which is mutable
    and starts as zero. *)
Definition initialized (element : Enum.t) (member : EnumValue.t) (init : ExpressionRef)
    (c : Compiler) : Prop :=
  if isConst init
  then last (globals (module c))
         = Some (enumGlobal member (negb (isConstEnum element c)) init)
  else last (globals (module c)) = Some (enumGlobal member true (ConstI32 0)) /\
       last (startFunctionBody c)
         = Some (SetGlobal (EnumValue.internalName member) init).

(** The last enum value among the members gone through. *)
Definition lastEnumValue (members : list EnumValue.t) : option EnumValue.t :=
  last (List.filter (fun m => isEnumValue (EnumValue.kind m)) members).

Definition isEnumCompiled (element : Enum.t) (c : Compiler) : bool :=
  Flags.is_ (default 0 (elementFlags c !! Enum.internalName element)) CommonFlags.COMPILED.

(** The state in which [compileEnum] enters its loop. *)
Definition compileEnum_begin (element : Enum.t) (c : Compiler) : Compiler :=
  set_currentEnum (Some (Enum.internalName element))
    (set_elementFlags
       (<[Enum.internalName element :=
            Flags.set (default 0 (elementFlags c !! Enum.internalName element))
              CommonFlags.COMPILED]> (elementFlags c)) c).

(** The layout of a static string. *)
Definition zeros (n : Z) : list Z := replicate (Z.to_nat n) 0.

(** A region of [size] zero bytes but for the 32-bit [value] at [offset]. *)
Definition field32 (size offset value : Z) : list Z :=
  (zeros offset ++ Buffer.le32 value ++ zeros (size - offset - 4))%list.

Definition codeUnits (s : JSString) : list Z := flat_map Buffer.le16 s.

Definition stringHeaderSize (stringInstance : Class.t) : Z :=
  Z.land (Class.currentMemoryOffset stringInstance + 1) (Z.lnot 1).

Definition gcHeaderOf (program : Program.t) (hook : Z) : list Z :=
  if Program.hasGC program
  then field32 (Program.gcHeaderSize program) (Program.gcHookOffset program) hook
  else [].

Definition gcHeaderSizeOf (program : Program.t) : Z :=
  if Program.hasGC program then Program.gcHeaderSize program else 0.

(** The constant that points to [offset]. *)
Definition pointerTo (options : Options.t) (offset : Z) : ExpressionRef :=
  if Options.isWasm64 options
  then ConstI64 (i64_low offset) (i64_high offset)
  else ConstI32 (i64_low offset).

(** What [ensureGCHook] leaves alone. *)
Definition sameStaticData (c c' : Compiler) : Prop :=
  program c' = program c /\ options c' = options c /\
  memoryOffset c' = memoryOffset c /\ memorySegments c' = memorySegments c /\
  stringSegments c' = stringSegments c.

(** The counts that [makeCallDirect] computes from the function and the
    operands it is given. *)
Definition numOperandsOf (operands : option (list ExpressionRef)) : Z :=
  match operands with Some ops => Z.of_nat (length ops) | None => 0 end.

Definition numArgumentsOf (f : Function.t) (numOperands : Z) : Z :=
  if FunctionOps.is_ f CommonFlags.INSTANCE then numOperands - 1 else numOperands.

Definition maxArgumentsOf (f : Function.t) : Z :=
  Z.of_nat (length (Signature.parameterTypes (Function.signature f))).

Definition minOperandsOf (f : Function.t) : Z :=
  if FunctionOps.is_ f CommonFlags.INSTANCE
  then Signature.requiredParameters (Function.signature f) + 1
  else Signature.requiredParameters (Function.signature f).

Definition maxOperandsOf (f : Function.t) : Z :=
  if FunctionOps.is_ f CommonFlags.INSTANCE then maxArgumentsOf f + 1 else maxArgumentsOf f.

(** The indices of the parameters for which no argument is supplied. *)
Definition omittedOf (f : Function.t) (numOperands : Z) : list Z :=
  seqZ (numArgumentsOf f numOperands) (maxArgumentsOf f - numArgumentsOf f numOperands).

(** The native zeroes of the parameter types at the given indices. *)
Fixpoint zeroesFor (parameterTypes : list Type_.t) (indices : list Z)
  : option (list ExpressionRef) :=
  match indices with
  | [] => Some []
  | i :: indices' =>
      match lookupZ parameterTypes i with
      | Some type =>
          match nativeZero type, zeroesFor parameterTypes indices' with
          | Some zero, Some zeroes => Some (zero :: zeroes)
          | _, _ => None
          end
      | None => None
      end
  end.

(** The initializers of the parameters at [indices], compiled as
    operands: one operand per index, in the order of the indices, each
    the result of compiling the initializer of that parameter with the
    parameter's type as the contextual type, converted implicitly and not
    wrapped, in the state that the one before has left. *)
Inductive initializersCompiled (parameterNodes : list ParameterNode.t)
    (parameterTypes : list Type_.t)
  : list Z -> Compiler -> list ExpressionRef -> Compiler -> Prop :=
| initializersCompiled_nil (c : Compiler) :
    initializersCompiled parameterNodes parameterTypes [] c [] c
| initializersCompiled_cons (i : Z) (indices : list Z) (node : ParameterNode.t)
    (initializer : Expression) (type : Type_.t) (operand : ExpressionRef)
    (operands : list ExpressionRef) (c c1 c2 : Compiler) :
    lookupZ parameterNodes i = Some node ->
    ParameterNode.initializer node = Some initializer ->
    lookupZ parameterTypes i = Some type ->
    compileExpression initializer type IMPLICIT WrapMode_NONE c = Returned operand c1 ->
    initializersCompiled parameterNodes parameterTypes indices c1 operands c2 ->
    initializersCompiled parameterNodes parameterTypes (i :: indices) c
      (operand :: operands) c2.

Definition recordNodes (nodes : list ExpressionRef) (c : Compiler) : Compiler :=
  fold_left (fun c e => recordNode e c) nodes c.

Definition nativeReturnTypeOf (f : Function.t) : NativeType.t :=
  Type_.toNativeType (Signature.returnType (Function.signature f)).

(** [stable c c']: every function object of [c] is still there in [c'],
    with its name, and with its COMPILED flag and its trampoline if it
    had them. *)
Definition stable (c c' : Compiler) : Prop :=
  forall (p : FunctionPtr) (g : Function.t),
    heap c !! p = Some g ->
    exists g',
      heap c' !! p = Some g' /\
      Function.internalName g' = Function.internalName g /\
      (FunctionOps.is_ g CommonFlags.COMPILED = true ->
       FunctionOps.is_ g' CommonFlags.COMPILED = true) /\
      (forall t, Function.trampoline g = Some t -> Function.trampoline g' = Some t).

Definition hasOptionalParameters (f : Function.t) : bool :=
  negb (FunctionOps.is_ f CommonFlags.TRAMPOLINE)
  && (Signature.requiredParameters (Function.signature f)
      <? Z.of_nat (length (Signature.parameterTypes (Function.signature f)))).

(** ** More methods of the compiler *)

(** *** The argument count helper and the export of a function *)

(** [ensureArgcSet()].  The arguments of [module.addFunction] are
    evaluated from left to right: the function type first, then the
    [~argc] global, then the body's nodes. *)
Definition ensureArgcSet : M string :=
  argcSet <- gets argcSet ;;
  (if argcSet =? 0 then
     typeRef <- ensureFunctionType (Some [Type_.u32]) Type_.void None ;;
     argcVar <- ensureArgcVar ;;
     local <- createGetLocal 0 NativeType.I32 ;;
     body <- createSetGlobal argcVar local ;;
     funcRef <- addFunction "~setargc" typeRef [] body ;;
     modify (set_argcSet funcRef) ;;
     addFunctionExport "~setargc" "_setargc"
   else ret tt) ;;
  ret "~setargc".

(** [case ElementKind.FUNCTION] of the switch in
    [makeModuleExport(name, element, prefix)]. *)
Definition makeModuleExport_function (name : string) (element : FunctionPtr)
    (prefix : string) : M unit :=
  f <- getFunction element ;;
  let signature := Function.signature f in
  instance <-
    (if Signature.requiredParameters signature
        <? Z.of_nat (length (Signature.parameterTypes signature))
     then (* utilize trampoline to fill in omitted arguments *)
       instance <- ensureTrampoline element ;;
       ensureArgcSet ;;
       ret instance
     else ret element) ;;
  i <- getFunction instance ;;
  if FunctionOps.is_ i CommonFlags.COMPILED
  then addFunctionExport (Function.internalName i) (prefix +:+ name)
  else ret tt.

(** *** Integer literals and inlined constants *)

(** [i64_is_f32] and [i64_is_f64] of the 64-bit glue: is the integer one
    that the float type holds exactly?  The float made of such an integer
    by [i64_to_f32] or [i64_to_f64] is written as the integer itself. *)
Variables i64_is_f32 i64_is_f64 : Z -> bool.

(** [case LiteralKind.INTEGER] of the switch in
    [compileLiteralExpression(expression, contextualType, implicitNegate)],
    for a literal of the value [value]. *)
Definition compileLiteralExpression_integer (value : Z) (contextualType : Type_.t)
    (implicitNegate : bool) : M ExpressionRef :=
  let intValue := if implicitNegate then Glue.i64_sub (i64_new 0 0) value else value in
  isWasm64 <- gets (fun c => Options.isWasm64 (options c)) ;;
  let i32 := createI32 (i64_low intValue) in
  let i64 := createI64 (i64_low intValue) (i64_high intValue) in
  (* otherwise compile to best fitting native type *)
  let fitting :=
    if Glue.i64_is_i32 intValue then modify (set_currentType Type_.i32) ;; i32
    else if i64_is_u32 intValue then modify (set_currentType Type_.u32) ;; i32
    else modify (set_currentType Type_.i64) ;; i64 in
  (* compile to contextualType if matching *)
  match Type_.kind contextualType with
  | TypeKind.I8 => if Glue.i64_is_i8 intValue then i32 else fitting
  | TypeKind.U8 => if Glue.i64_is_u8 intValue then i32 else fitting
  | TypeKind.I16 => if Glue.i64_is_i16 intValue then i32 else fitting
  | TypeKind.U16 => if Glue.i64_is_u16 intValue then i32 else fitting
  | TypeKind.I32 => if Glue.i64_is_i32 intValue then i32 else fitting
  | TypeKind.U32 => if i64_is_u32 intValue then i32 else fitting
  | TypeKind.BOOL => if Glue.i64_is_bool intValue then i32 else fitting
  | TypeKind.ISIZE =>
      if negb isWasm64
      then (if Glue.i64_is_i32 intValue then i32 else fitting)
      else i64
  | TypeKind.USIZE =>
      if negb isWasm64
      then (if i64_is_u32 intValue then i32 else fitting)
      else i64
  | TypeKind.I64 | TypeKind.U64 => i64
  | TypeKind.F32 => if i64_is_f32 intValue then createF32 intValue else fitting
  | TypeKind.F64 => if i64_is_f64 intValue then createF64 intValue else fitting
  | TypeKind.VOID => fitting (* compiles to best fitting type below, being dropped *)
  end.

(** [type.computeSmallIntegerShift(targetType)] and
    [type.computeSmallIntegerMask(targetType)] of [types.ts]. *)
Variable Type_computeSmallIntegerShift : Type_.t -> Type_.t -> Z.
Variable Type_computeSmallIntegerMask : Type_.t -> Type_.t -> Z.

Definition isIntegerConstant (element : VariableLikeElement.t) : bool :=
  match VariableLikeElement.constantValueKind element with
  | ConstantValueKind.INTEGER => true
  | _ => false
  end.

(** [compileInlineConstant(element, contextualType, retainType)].  The
    options of [element.program] are those of the compiler. *)
Definition compileInlineConstant (element : VariableLikeElement.t)
    (contextualType : Type_.t) (retainType : bool) : M ExpressionRef :=
  assert (Flags.is_ (VariableLikeElement.flags element) CommonFlags.INLINED) ;;
  let type := VariableLikeElement.type element in
  let value := VariableLikeElement.constantIntegerValue element in
  let float := VariableLikeElement.constantFloatValue element in
  let current :=
    if negb retainType
       && Type_.is_ type TypeFlags.INTEGER
       && Type_.is_ contextualType TypeFlags.INTEGER
       && (Type_.size type <? Type_.size contextualType)
    then contextualType  (* essentially precomputes a (sign-)extension *)
    else type in
  modify (set_currentType current) ;;
  isWasm64 <- gets (fun c => Options.isWasm64 (options c)) ;;
  let i32 := createI32 (if isIntegerConstant element then i64_low value else 0) in
  let i64 :=
    if isIntegerConstant element
    then createI64 (i64_low value) (i64_high value)
    else createI64 0 0 in
  match Type_.kind current with
  | TypeKind.I8 | TypeKind.I16 =>
      let shift := Type_computeSmallIntegerShift type Type_.i32 in
      createI32 (if isIntegerConstant element
                 then Int32.shr (Int32.shl (i64_low value) shift) shift
                 else 0)
  | TypeKind.U8 | TypeKind.U16 | TypeKind.BOOL =>
      let mask := Type_computeSmallIntegerMask type Type_.i32 in
      createI32 (if isIntegerConstant element
                 then Int32.and (i64_low value) mask
                 else 0)
  | TypeKind.I32 | TypeKind.U32 => i32
  | TypeKind.ISIZE | TypeKind.USIZE => if negb isWasm64 then i32 else i64
  | TypeKind.I64 | TypeKind.U64 => i64
  | TypeKind.F64 =>
      (* monkey-patch for converting built-in floats to f32 implicitly *)
      if negb (VariableLikeElement.isBuiltin element
               && TypeKind.eqb (Type_.kind contextualType) TypeKind.F32)
      then createF64 float
      else modify (set_currentType Type_.f32) ;; createF32 float
  | TypeKind.F32 => createF32 float
  | TypeKind.VOID => assert false ;; createUnreachable
  end.

(** ** What the further facts are stated with *)

(** The result and the parameters of a function type, and those that
    [ensureFunctionType] asks for. *)
Definition signatureOf (t : FunctionTypeDef) : NativeType.t * list NativeType.t :=
  (functionType_result t, functionType_params t).

Definition nativeSignature (parameterTypes : option (list Type_.t)) (returnType : Type_.t)
    (thisType : option Type_.t) : NativeType.t * list NativeType.t :=
  (Type_.toNativeType returnType,
   (match thisType with Some t => [Type_.toNativeType t] | None => [] end
    ++ map Type_.toNativeType (default [] parameterTypes))%list).

(** The function type that a reference points to; the null reference
    points to none. *)
Definition functionTypeAt (c : Compiler) (ref : Z) : option FunctionTypeDef :=
  if ref <=? 0 then None else functionTypes (module c) !! Z.to_nat (ref - 1).

(** The [~argc] global and the [~setargc] function. *)
Definition argcGlobal : GlobalDef :=
  {| global_name := "~argc"; global_type := NativeType.I32; global_mutable := true;
     global_init := ConstI32 0 |}.

Definition setargcFunction (typeRef : Z) : FunctionDef :=
  {| function_name := "~setargc"; function_type := typeRef; function_locals := [];
     function_body := SetGlobal "~argc" (GetLocal 0 NativeType.I32) |}.

(** The diagnostic of an implicit conversion that needs a cast. *)
Definition requiresExplicitCast (fromType toType : Type_.t) (reportNode : Expression)
  : DiagnosticMessage.t :=
  {| DiagnosticMessage.code := Conversion_from_type_0_to_1_requires_an_explicit_cast;
     DiagnosticMessage.category := ERROR;
     DiagnosticMessage.range := Node.range reportNode;
     DiagnosticMessage.args := [Type_.toString fromType; Type_.toString toType] |}.

(** The layout of static memory: where a segment ends, and segments that
    follow one another from [start] on without overlapping. *)
Definition segmentEnd (s : MemorySegment) : Z := offset s + Z.of_nat (length (buffer s)).

Fixpoint inOrder (start : Z) (segments : list MemorySegment) : Prop :=
  match segments with
  | [] => True
  | s :: segments' => start <= offset s /\ inOrder (segmentEnd s) segments'
  end.

(** The [HEAP_BASE] global for a heap that starts at [base]. *)
Definition heapBase (options : Options.t) (base : Z) : GlobalDef :=
  {| global_name := "HEAP_BASE"; global_type := Options.nativeSizeType options;
     global_mutable := false; global_init := pointerTo options base |}.

(** The operand that a trampoline forwards for the parameter at index
    [i]: the local of that parameter, which comes after [this] when
    there is one. *)
Definition forwarded (types : list Type_.t) (first i : Z) : ExpressionRef :=
  GetLocal (first + i) (Type_.toNativeType (default Type_.void (lookupZ types i))).

(** All operands of a function, each read from the local of the same
    index. *)
Definition trampolineOperands (o : Function.t) (nativeSizeType : NativeType.t)
  : list ExpressionRef :=
  let isInstance := FunctionOps.is_ o CommonFlags.INSTANCE in
  ((if isInstance then [GetLocal 0 nativeSizeType] else [])
   ++ imap (fun j type =>
              GetLocal ((if isInstance then 1 else 0) + Z.of_nat j) (Type_.toNativeType type))
        (Signature.parameterTypes (Function.signature o)))%list.

(** The operands of the call that [makeCallDirect] returns, directly or
    in a block after [~argc] has been set. *)
Definition callOperands (e : ExpressionRef) : option (list ExpressionRef) :=
  match e with
  | Call _ operands _ | CallImport _ operands _ => Some operands
  | Block None [SetGlobal _ _; Call _ operands _] _ => Some operands
  | _ => None
  end.

(** The value of a global that is an immutable [i32] constant, as the
    precomputation of the IR builder may use it: the first global of the
    name counts. *)
Definition immutableConstant (gs : list GlobalDef) (name : string) : option Z :=
  match List.find (fun g => String.eqb (global_name g) name) gs with
  | Some g =>
      match global_mutable g, global_init g with
      | false, ConstI32 v => Some v
      | _, _ => None
      end
  | None => None
  end.

(** What precomputing an expression leaves alone. *)
Definition sameDeclarations (c c' : Compiler) : Prop :=
  globals (module c') = globals (module c) /\
  elementFlags c' = elementFlags c /\
  startFunctionBody c' = startFunctionBody c /\
  diagnostics c' = diagnostics c.

(** The native type of a constant of the IR. *)
Definition constantType (e : ExpressionRef) : option NativeType.t :=
  match e with
  | ConstI32 _ => Some NativeType.I32
  | ConstI64 _ _ => Some NativeType.I64
  | ConstF32 _ => Some NativeType.F32
  | ConstF64 _ => Some NativeType.F64
  | _ => None
  end.

(** The constant of a type's native type that holds the [I64] value [v]. *)
Definition constantOf (type : Type_.t) (v : Z) : ExpressionRef :=
  match Type_.toNativeType type with
  | NativeType.I64 => ConstI64 (i64_low v) (i64_high v)
  | NativeType.F32 => ConstF32 v
  | NativeType.F64 => ConstF64 v
  | _ => ConstI32 (i64_low v)
  end.

(** Is the [I64] value [v] a number of the type?  Every [I64] is one of a
    64-bit integer type, none is one of [void]. *)
Definition hasValue (type : Type_.t) (v : Z) : bool :=
  match Type_.kind type with
  | TypeKind.I8 => (- 2 ^ 7 <=? v) && (v <? 2 ^ 7)
  | TypeKind.I16 => (- 2 ^ 15 <=? v) && (v <? 2 ^ 15)
  | TypeKind.I32 => (- 2 ^ 31 <=? v) && (v <? 2 ^ 31)
  | TypeKind.U8 => (0 <=? v) && (v <? 2 ^ 8)
  | TypeKind.U16 => (0 <=? v) && (v <? 2 ^ 16)
  | TypeKind.U32 => (0 <=? v) && (v <? 2 ^ 32)
  | TypeKind.BOOL => (0 <=? v) && (v <? 2)
  | TypeKind.ISIZE => (Type_.size type =? 64) || (- 2 ^ 31 <=? v) && (v <? 2 ^ 31)
  | TypeKind.USIZE => (Type_.size type =? 64) || (0 <=? v) && (v <? 2 ^ 32)
  | TypeKind.I64 | TypeKind.U64 => true
  | TypeKind.F32 => i64_is_f32 v
  | TypeKind.F64 => i64_is_f64 v
  | TypeKind.VOID => false
  end.

(** The smallest of [i32], [u32] and [i64] that has the value. *)
Definition bestFitting (v : Z) : Type_.t :=
  if hasValue Type_.i32 v then Type_.i32
  else if hasValue Type_.u32 v then Type_.u32
  else Type_.i64.

(** A type of the kind [isize] or [usize] is as wide as the pointers of
    the target. *)
Definition sizedForTarget (options : Options.t) (type : Type_.t) : Prop :=
  match Type_.kind type with
  | TypeKind.ISIZE | TypeKind.USIZE =>
      (Type_.size type =? 64) = Options.isWasm64 options
  | _ => True
  end.

(** The kinds of the integer types of 32 and of 64 bits. *)
Definition isWordInteger (kind : TypeKind.t) : bool :=
  match kind with
  | TypeKind.I32 | TypeKind.U32 | TypeKind.I64 | TypeKind.U64
  | TypeKind.ISIZE | TypeKind.USIZE => true
  | _ => false
  end.

(** Is the element of the name marked as compiled? *)
Definition isCompiled (internalName : string) (c : Compiler) : bool :=
  Flags.is_ (default 0 (elementFlags c !! internalName)) CommonFlags.COMPILED.

(** [keepsCompiled c c']: what is marked as compiled in [c] is still marked
    in [c']. *)
Definition keepsCompiled (c c' : Compiler) : Prop :=
  forall internalName : string,
    isCompiled internalName c = true -> isCompiled internalName c' = true.
(** * Facts *)

(** ** Arithmetic of the 64-bit glue *)

Lemma wrap64_id z : - 2 ^ 63 <= z < 2 ^ 63 -> wrap64 z = z.
Proof. intros H. unfold wrap64. rewrite Z.mod_small; lia. Qed.

Lemma wrap32_id z : - 2 ^ 31 <= z < 2 ^ 31 -> wrap32 z = z.
Proof. intros H. unfold wrap32. rewrite Z.mod_small; lia. Qed.

Lemma land_lnot_ones x k : 0 <= k -> Z.land x (Z.lnot (2 ^ k - 1)) = 2 ^ k * (x / 2 ^ k).
Proof.
intros Hk.
replace (2 ^ k - 1) with (Z.ones k) by (rewrite Z.ones_equiv; lia).
rewrite <- Z.ldiff_land.
rewrite Z.ldiff_ones_r by lia.
rewrite Z.shiftr_div_pow2, Z.shiftl_mul_pow2 by lia. lia.
Qed.

Lemma align_up_bounds v a : 0 < a -> v <= align_up v a < v + a.
Proof.
intros Ha. unfold align_up.
pose proof (Z.div_mod (v + a - 1) a ltac:(lia)) as Hdm.
pose proof (Z.mod_pos_bound (v + a - 1) a Ha). lia.
Qed.

Lemma align_up_divide v a : (a | align_up v a).
Proof. unfold align_up. apply Z.divide_factor_l. Qed.

Lemma i64_align_pow2 v k :
0 <= k -> 0 <= v -> v + 2 ^ k < 2 ^ 63 ->
i64_align v (2 ^ k) = align_up v (2 ^ k).
Proof.
intros Hk Hv Hlt. unfold i64_align. cbv zeta.
assert (0 < 2 ^ k) by (apply Z.pow_pos_nonneg; lia).
rewrite (wrap64_id (v + (2 ^ k - 1))) by lia.
rewrite land_lnot_ones by lia.
replace (v + (2 ^ k - 1)) with (v + 2 ^ k - 1) by lia.
fold (align_up v (2 ^ k)).
pose proof (align_up_bounds v (2 ^ k) ltac:(lia)).
apply wrap64_id. lia.
Qed.


(** ** Running the monad *)

Lemma bind_returned {A B} (m : M A) (k : A -> M B) c a c1 :
m c = Returned a c1 -> bind m k c = k a c1.
Proof. intros H. unfold bind. rewrite H. reflexivity. Qed.

Lemma bind_thrown {A B} (m : M A) (k : A -> M B) c :
m c = Thrown -> bind m k c = Thrown.
Proof. intros H. unfold bind. rewrite H. reflexivity. Qed.

Lemma bind_bind {A B C} (m : M A) (f : A -> M B) (g : B -> M C) c :
bind (bind m f) g c = bind m (fun a => bind (f a) g) c.
Proof. unfold bind. destruct (m c); reflexivity. Qed.

Lemma bind_ret {A B} (a : A) (k : A -> M B) c : bind (ret a) k c = k a c.
Proof. reflexivity. Qed.

Lemma bind_gets {A B} (f : Compiler -> A) (k : A -> M B) c : bind (gets f) k c = k (f c) c.
Proof. reflexivity. Qed.

Lemma bind_modify {B} (f : Compiler -> Compiler) (k : unit -> M B) c :
bind (modify f) k c = k tt (f c).
Proof. reflexivity. Qed.

Lemma bind_defined {A B} (a : A) (k : A -> M B) c : bind (defined (Some a)) k c = k a c.
Proof. reflexivity. Qed.

Lemma bind_assert {B} (k : unit -> M B) c : bind (assert true) k c = k tt c.
Proof. reflexivity. Qed.

Lemma bind_create {B} (e : ExpressionRef) (k : ExpressionRef -> M B) c :
bind (create e) k c = k e (recordNode e c).
Proof. reflexivity. Qed.

Lemma bind_throw {A B} (k : A -> M B) c : bind throw k c = Thrown.
Proof. reflexivity. Qed.

(** One step of a run: the first operation of a sequence is performed. *)
Ltac step :=
match goal with
| |- context [bind (bind ?m ?f) ?g ?c] => rewrite (bind_bind m f g c)
| |- context [bind (ret ?a) ?k ?c] => rewrite (bind_ret a k c)
| |- context [bind (gets ?f) ?k ?c] => rewrite (bind_gets f k c)
| |- context [bind (modify ?f) ?k ?c] => rewrite (bind_modify f k c)
| |- context [bind (defined (Some ?a)) ?k ?c] => rewrite (bind_defined a k c)
| |- context [bind (assert true) ?k ?c] => rewrite (bind_assert k c)
| |- context [bind (create ?e) ?k ?c] => rewrite (bind_create e k c)
end;
cbv beta.

Ltac unfold_create :=
unfold createUnreachable, createNop, createI32, createI64, createF32, createF64,
  createUnary, createBinary, createGetLocal, createSetLocal, createGetGlobal,
  createSetGlobal, createCall, createCallImport, createBlock, createSwitch, createDrop.

(** Unfolds the operations of the monad and of the IR builder. *)
Ltac run_monad :=
cbv [bind gets modify ret error assert defined create createUnreachable createNop
     createI32 createI64 createF32 createF64 createUnary createBinary createGetLocal
     createSetLocal createGetGlobal createSetGlobal createCall createCallImport
     createBlock createSwitch createDrop onModule recordNode addGlobal addFunction
     elementIs elementSet].

(** ** Static memory: [addMemorySegment] and the initial page count *)

Lemma isPowerOfTwo_spec a : isPowerOfTwo a = true -> exists k, 0 <= k /\ a = 2 ^ k.
Proof.
unfold isPowerOfTwo. intros H. apply andb_prop in H as [_ H].
apply Z.eqb_eq in H. exists (Z.log2 a). split; [apply Z.log2_nonneg | exact H].
Qed.

Lemma i64_new_length (n : nat) : Z.of_nat n < 2 ^ 32 -> i64_new (Z.of_nat n) 0 = Z.of_nat n.
Proof.
intros H. unfold i64_new. rewrite Z.mod_0_l by lia.
rewrite Z.mod_small by lia. rewrite Z.mul_0_r, Z.add_0_r. apply wrap64_id. lia.
Qed.

(** One call: the segment is appended at the rounded offset and the offset
  moves past the buffer. *)
Lemma addMemorySegment_step c buf al :
isPowerOfTwo al = true ->
Z.of_nat (length buf) < 2 ^ 32 ->
0 <= memoryOffset c ->
memoryOffset c + al + Z.of_nat (length buf) < 2 ^ 63 ->
let s := MemorySegment_create buf (align_up (memoryOffset c) al) in
addMemorySegment buf al c =
  Returned s (set_memoryOffset (offset s + Z.of_nat (length buf))
                (set_memorySegments (memorySegments c ++ [s]) c)).
Proof.
intros Hp Hlen H0 Hlt s.
destruct (isPowerOfTwo_spec _ Hp) as (k & Hk & ->).
assert (0 < 2 ^ k) by (apply Z.pow_pos_nonneg; lia).
pose proof (align_up_bounds (memoryOffset c) (2 ^ k) ltac:(lia)) as Hb.
unfold addMemorySegment, bind, gets, modify, ret. simpl.
rewrite i64_align_pow2 by lia.
rewrite i64_new_length by lia.
unfold i64_add. rewrite wrap64_id by lia. reflexivity.
Qed.

Lemma requested_nonneg reqs :
forallb wellFormedRequest reqs = true -> 0 <= requested reqs.
Proof.
induction reqs as [|r reqs IH]; [simpl; lia|].
intros H. simpl in H. apply andb_prop in H as [Hr Hrs]. specialize (IH Hrs).
unfold wellFormedRequest in Hr. apply andb_prop in Hr as [Hp _].
unfold isPowerOfTwo in Hp. apply andb_prop in Hp as [Hp _].
apply Z.ltb_lt in Hp. unfold requested in *. simpl. lia.
Qed.

Lemma placed_monotone reqs : forall start segs final,
placed start reqs segs final -> start <= final.
Proof.
induction reqs as [|r reqs IH]; intros start [|s segs] final; simpl; try tauto.
- intros ->. lia.
- intros (_ & _ & Hle & Hrest). apply IH in Hrest. lia.
Qed.

(** C9.  Over any sequence of [addMemorySegment] calls (power-of-two
  alignments, offsets that stay within the signed 64-bit range), every
  segment starts at the memory offset reached before its call rounded up
  to the requested alignment, the memory offset after the call is that
  start plus the buffer's length, and so the memory offset never
  decreases; the segments are appended in order. *)
Theorem addMemorySegment_monotone (requests : list (Buffer.Uint8Array * Z)) (c : Compiler) :
forallb wellFormedRequest requests = true ->
0 <= memoryOffset c ->
memoryOffset c + requested requests < 2 ^ 63 ->
exists segments c',
  addMemorySegments requests c = Returned segments c' /\
  placed (memoryOffset c) requests segments (memoryOffset c') /\
  memoryOffset c <= memoryOffset c' /\
  memorySegments c' = (memorySegments c ++ segments)%list.
Proof.
revert c. induction requests as [|[buf al] reqs IH]; intros c Hwf H0 Hlt.
- exists [], c. simpl. rewrite app_nil_r. repeat split; lia.
- simpl in Hwf. apply andb_prop in Hwf as [Hr Hrs].
  unfold wellFormedRequest in Hr. simpl in Hr. apply andb_prop in Hr as [Hp Hlen].
  apply Z.ltb_lt in Hlen.
  pose proof (requested_nonneg _ Hrs) as Hnn.
  unfold requested in Hlt, Hnn. simpl in Hlt. fold (requested reqs) in Hlt, Hnn.
  pose proof (addMemorySegment_step c buf al Hp Hlen H0 ltac:(lia)) as Hstep.
  cbv zeta in Hstep.
  destruct (isPowerOfTwo_spec _ Hp) as (k & Hk & Hal).
  assert (0 < al) by (subst al; apply Z.pow_pos_nonneg; lia).
  pose proof (align_up_bounds (memoryOffset c) al ltac:(lia)) as Hb.
  set (s := MemorySegment_create buf (align_up (memoryOffset c) al)) in *.
  set (c1 := set_memoryOffset _ _) in Hstep.
  destruct (IH c1 Hrs) as (segs & c' & Hrun & Hpl & Hmono & Hsegs).
  { subst c1. simpl. lia. }
  { subst c1. simpl. lia. }
  exists (s :: segs), c'. split; [|split; [|split]].
  + unfold addMemorySegments in *. cbn [mapM fst snd].
    rewrite (bind_returned _ _ _ _ _ Hstep).
    rewrite (bind_returned _ _ _ _ _ Hrun). reflexivity.
  + simpl. repeat split; [lia|]. exact Hpl.
  + subst c1. simpl in Hmono. lia.
  + rewrite Hsegs. subst c1. simpl. rewrite <- app_assoc. reflexivity.
Qed.

Lemma initial_pages_value m :
0 <= m <= 2 ^ 47 - 2 ^ 16 ->
i64_low (i64_shr_u (i64_align m 65536) (i64_new 16 0)) = ceilDiv m 65536.
Proof.
intros Hm.
change 65536 with (2 ^ 16). rewrite i64_align_pow2 by lia.
pose proof (align_up_bounds m (2 ^ 16) ltac:(lia)) as Hb.
unfold i64_new. change (wrap64 (16 mod 2 ^ 32 + 2 ^ 32 * (0 mod 2 ^ 32))) with 16.
unfold i64_shr_u, i64_low. change (16 mod 64) with 16.
rewrite (Z.mod_small (align_up m (2 ^ 16))) by lia.
rewrite Z.shiftr_div_pow2 by lia.
unfold align_up in *. rewrite (Z.mul_comm (2 ^ 16)), Z.div_mul by lia.
unfold ceilDiv.
set (q := (m + 2 ^ 16 - 1) / 2 ^ 16).
assert (0 <= q < 2 ^ 31) as Hc.
{ subst q. split; [apply Z.div_pos; lia|].
  apply Z.div_lt_upper_bound; lia. }
rewrite wrap64_id by lia. apply wrap32_id. lia.
Qed.

(** C4, as the code has it.  Sealing static memory rounds the memory offset
  up to the pointer size; the initial memory size handed to the module is
  the ceiling of that offset over 64 KiB when at least one static segment
  exists, and 0 pages when there is none. *)
Theorem compile_initial_pages (c : Compiler) :
0 <= memoryOffset c < 2 ^ 46 ->
exists c',
  compile_memory c = Returned tt c' /\
  memoryOffset c' =
    align_up (memoryOffset c) (Type_.byteSize (Options.usizeType (options c))) /\
  initialPages c' =
    Some (match memorySegments c with
          | [] => 0
          | _ :: _ => ceilDiv (memoryOffset c') 65536
          end).
Proof.
intros Hm.
assert (exists k, 0 <= k <= 3 /\
          Type_.byteSize (Options.usizeType (options c)) = 2 ^ k) as (k & Hk & Hbs).
{ unfold Options.usizeType. destruct (Options.isWasm64 (options c));
    [exists 3 | exists 2]; split; try lia; reflexivity. }
assert (0 < 2 ^ k <= 8) as Hpk.
{ split; [apply Z.pow_pos_nonneg; lia|].
  change 8 with (2 ^ 3). apply Z.pow_le_mono_r; lia. }
pose proof (align_up_bounds (memoryOffset c) (2 ^ k) ltac:(lia)) as Hb.
assert (i64_align (memoryOffset c) (Type_.byteSize (Options.usizeType (options c)))
        = align_up (memoryOffset c) (2 ^ k)) as Hal.
{ rewrite Hbs. apply i64_align_pow2; lia. }
unfold compile_memory, bind, gets, modify, ret. simpl.
rewrite Hal.
destruct (Options.isWasm64 (options c)); simpl;
  (eexists; split; [reflexivity|]; split; [simpl; congruence|]);
  unfold initialPages; simpl;
  (destruct (memorySegments c); simpl; [reflexivity|]);
  rewrite initial_pages_value by lia; reflexivity.
Qed.

(** C4 fails as stated: a compilation without static data ends with the
  memory offset at 8, whose ceiling over 64 KiB is 1, and 0 initial pages. *)
Lemma compile_initial_pages_counterexample :
exists c',
  compile_memory (Compiler_new Examples.program0 Examples.options32) = Returned tt c' /\
  memoryOffset c' = 8 /\
  ceilDiv (memoryOffset c') 65536 = 1 /\
  initialPages c' = Some 0 /\
  initialPages c' <> Some (ceilDiv (memoryOffset c') 65536).
Proof.
eexists. split; [vm_compute; reflexivity|].
repeat split; try reflexivity. vm_compute. discriminate.
Qed.

(** With static data: one segment of three bytes that ends at 11 gives the
  offset 12 and one page; a segment that ends at 65537, just past the
  first page, gives the offset 65540 and two pages. *)
Lemma compile_initial_pages_witness :
let c0 := Compiler_new Examples.program0 Examples.options32 in
(exists segment c1 c',
   addMemorySegment [1; 2; 3] 8 c0 = Returned segment c1 /\
   compile_memory c1 = Returned tt c' /\
   memoryOffset c' = 12 /\
   initialPages c' = Some (ceilDiv 12 65536) /\
   ceilDiv 12 65536 = 1) /\
(exists c',
   compile_memory
     (set_memoryOffset 65537
        (set_memorySegments [MemorySegment_create [1; 2; 3] 65534] c0))
     = Returned tt c' /\
   memoryOffset c' = 65540 /\
   initialPages c' = Some (ceilDiv 65540 65536) /\
   ceilDiv 65540 65536 = 2).
Proof.
intros c0. split.
- destruct (compile_initial_pages
              (set_memoryOffset 11
                 (set_memorySegments [MemorySegment_create [1; 2; 3] 8] c0)))
    as (c' & Hrun & Hoffset & Hpages).
  + vm_compute. split; [discriminate | reflexivity].
  + exists (MemorySegment_create [1; 2; 3] 8). eexists. exists c'.
    split; [vm_compute; reflexivity|]. split; [exact Hrun|].
    split; [exact Hoffset|]. split; [|reflexivity].
    rewrite Hpages. cbn [memorySegments set_memoryOffset set_memorySegments].
    rewrite Hoffset. reflexivity.
- destruct (compile_initial_pages
              (set_memoryOffset 65537
                 (set_memorySegments [MemorySegment_create [1; 2; 3] 65534] c0)))
    as (c' & Hrun & Hoffset & Hpages).
  + vm_compute. split; [discriminate | reflexivity].
  + exists c'. split; [exact Hrun|]. split; [exact Hoffset|]. split; [|reflexivity].
    rewrite Hpages. cbn [memorySegments set_memoryOffset set_memorySegments].
    rewrite Hoffset. reflexivity.
Defined.

(** ** Reading and writing the heap *)

Lemma getFunction_returned p c f :
heap c !! p = Some f -> getFunction p c = Returned f c.
Proof. intros H. unfold getFunction, bind, gets, defined. rewrite H. reflexivity. Qed.

Lemma getFunction_thrown p c :
heap c !! p = None -> getFunction p c = Thrown.
Proof. intros H. unfold getFunction, bind, gets, defined. rewrite H. reflexivity. Qed.

Lemma updateFunction_returned p g c f :
heap c !! p = Some f ->
updateFunction p g c = Returned tt (set_heap (<[p := g f]> (heap c)) c).
Proof.
intros H. unfold updateFunction. rewrite (bind_returned _ _ _ _ _ (getFunction_returned _ _ _ H)).
reflexivity.
Qed.

(** ** Small-integer wrapping and conversions to and from [void] *)

(** C8.  [ensureSmallIntegerWrap(expr, t)] returns [expr] itself when the
  current flow tells that [expr] cannot overflow [t]; otherwise, for [i8]
  and [i16] it returns the sign-extension of [expr] when SIGN_EXTENSION is
  enabled and else the pair of shifts by [32 - width]; for [u8], [u16] and
  [bool] it returns [expr] masked with 0xff, 0xffff and 1; for every other
  type it returns [expr] itself. *)
Theorem ensureSmallIntegerWrap_spec (expr : ExpressionRef) (type : Type_.t)
  (c : Compiler) (f : Function.t) :
heap c !! currentFunction c = Some f ->
let overflow := Flow_canOverflow c (Function.flow f) expr type in
let signExtension := Options.hasFeature (options c) Feature.SIGN_EXTENSION in
let shifts n := Binary ShrI32 (Binary ShlI32 expr (ConstI32 n)) (ConstI32 n) in
exists r c',
  ensureSmallIntegerWrap expr type c = Returned r c' /\
  (overflow = false -> r = expr /\ c' = c) /\
  (overflow = true ->
     match Type_.kind type with
     | TypeKind.I8 =>
         r = if signExtension then Unary ExtendI8ToI32 expr else shifts (32 - 8)
     | TypeKind.I16 =>
         r = if signExtension then Unary ExtendI16ToI32 expr else shifts (32 - 16)
     | TypeKind.U8 => r = Binary AndI32 expr (ConstI32 0xff)
     | TypeKind.U16 => r = Binary AndI32 expr (ConstI32 0xffff)
     | TypeKind.BOOL => r = Binary AndI32 expr (ConstI32 1)
     | _ => r = expr /\ c' = c
     end).
Proof.
intros Hf overflow signExtension shifts.
unfold ensureSmallIntegerWrap.
unfold bind at 1. unfold gets at 1.
rewrite (bind_returned _ _ _ _ _ (getFunction_returned _ _ _ Hf)).
fold overflow. fold signExtension.
destruct (Type_.kind type), overflow, signExtension;
  (eexists; eexists; split; [reflexivity|]);
  (split; [intros; try discriminate; split; reflexivity
          | intros; try discriminate; try reflexivity; try (split; reflexivity)]).
Qed.

(** C7.  A call of [convertExpression] from [void] to [void] fails its
  assertion.  A call that satisfies the method's assertion on the kind of
  conversion returns, from a non-void type to [void], a drop of the input
  expression and reports nothing; from [void] to a non-void type it
  reports "Type 0 is not assignable to type 1" and returns an unreachable
  expression. *)
Theorem convertExpression_void (expr : ExpressionRef) (fromType toType : Type_.t)
  (conversionKind : ConversionKind) (wrapMode : WrapMode) (reportNode : Expression)
  (c : Compiler) :
let run := convertExpression expr fromType toType conversionKind wrapMode reportNode c in
(Type_.kind fromType = TypeKind.VOID -> Type_.kind toType = TypeKind.VOID ->
 run = Thrown) /\
(conversionKind <> ConversionKind_NONE ->
 Type_.kind fromType <> TypeKind.VOID -> Type_.kind toType = TypeKind.VOID ->
 exists c', run = Returned (Drop expr) c' /\ diagnostics c' = diagnostics c) /\
(conversionKind <> ConversionKind_NONE ->
 Type_.kind fromType = TypeKind.VOID -> Type_.kind toType <> TypeKind.VOID ->
 exists c', run = Returned Unreachable c' /\
            diagnostics c' = (diagnostics c ++ [notAssignable fromType toType reportNode])%list).
Proof.
intros run. subst run. unfold convertExpression. cbv zeta.
repeat split.
- intros Hf Ht. rewrite Hf, Ht.
  destruct conversionKind; reflexivity.
- intros Hk Hf Ht. rewrite Ht.
  destruct conversionKind; [congruence| |];
    (destruct (Type_.kind fromType); try congruence;
     eexists; split; reflexivity).
- intros Hk Hf Ht. rewrite Hf.
  destruct conversionKind; [congruence| |];
    (destruct (Type_.kind toType); try congruence;
     eexists; split; reflexivity).
Qed.

(** ** The unsigned right shift *)

Lemma createdBy_app c c' l :
created (module c') = (created (module c) ++ l)%list -> createdBy c c' = l.
Proof. intros H. unfold createdBy. rewrite H. apply drop_app_length. Qed.

(** For a common type [u8], [u16] or [bool], the switch of the [>>>] case
  creates the [ShrU32] node twice. *)
Lemma compileShrU_switch_small expression operator leftExpr rightExpr c :
match Type_.kind (currentType c) with
| TypeKind.U8 | TypeKind.U16 | TypeKind.BOOL => True
| _ => False
end ->
exists c',
  compileShrU_switch expression operator leftExpr rightExpr c
    = Returned (Break (Binary ShrU32 leftExpr rightExpr)) c' /\
  createdBy c c' = [Binary ShrU32 leftExpr rightExpr; Binary ShrU32 leftExpr rightExpr].
Proof.
intros Hk. unfold compileShrU_switch, bind, gets.
destruct (Type_.kind (currentType c)); try contradiction;
  (eexists; split; [reflexivity|]; apply createdBy_app; simpl;
   rewrite <- app_assoc; reflexivity).
Qed.

(** The sibling case [>>] creates it once. *)
Lemma compileShr_switch_small expression operator leftExpr rightExpr c :
match Type_.kind (currentType c) with
| TypeKind.U8 | TypeKind.U16 | TypeKind.BOOL => True
| _ => False
end ->
exists c',
  compileShr_switch expression operator leftExpr rightExpr c
    = Returned (Break (Binary ShrU32 leftExpr rightExpr)) c' /\
  createdBy c c' = [Binary ShrU32 leftExpr rightExpr].
Proof.
intros Hk. unfold compileShr_switch, bind, gets.
destruct (Type_.kind (currentType c)); try contradiction;
  (eexists; split; [reflexivity|]; apply createdBy_app; reflexivity).
Qed.

(** ** Enum members without an initializer *)

Lemma foldM_app {A B} (f : B -> A -> M B) (l1 l2 : list A) (b : B) (c : Compiler) :
foldM f (l1 ++ l2) b c =
  match foldM f l1 b c with
  | Returned b1 c1 => foldM f l2 b1 c1
  | Thrown => Thrown
  end.
Proof.
revert b c. induction l1 as [|x l1 IH]; intros b c.
- simpl. destruct (foldM f l2 b c); reflexivity.
- cbn [foldM app]. unfold bind. destruct (f b x c) as [b' c'|]; [apply IH | reflexivity].
Qed.

(** One turn of the loop of [compileEnum], for a member without an
  initializer, in any state of the loop. *)
Lemma compileEnum_member_uninitialized (element : Enum.t)
  (previousValue : option EnumValue.t) (previousValueIsMut : bool)
  (member : EnumValue.t) (c : Compiler) :
EnumValue.kind member = ElementKind.ENUMVALUE ->
EnumValue.value member = None ->
let run := compileEnum_member element (previousValue, previousValueIsMut) member c in
match previousValue with
| None =>
    exists c',
      run = Returned (Some member, false) c' /\
      globals (module c') =
        (globals (module c)
           ++ [enumGlobal member (negb (isConstEnum element c')) (ConstI32 0)])%list /\
      startFunctionBody c' = startFunctionBody c /\
      diagnostics c' = diagnostics c
| Some previous =>
    exists c1,
      diagnostics c1 =
        (diagnostics c ++ if previousValueIsMut then [mustHaveInitializer member] else [])%list /\
      match precomputeExpression (previousPlusOne previous) c1 with
      | Thrown => run = Thrown
      | Returned init c2 =>
          exists c',
            run = Returned (Some member, negb (isConst init)) c' /\
            if isConst init then
              globals (module c') =
                (globals (module c2)
                   ++ [enumGlobal member (negb (isConstEnum element c')) init])%list /\
              startFunctionBody c' = startFunctionBody c2 /\
              diagnostics c' = diagnostics c2
            else
              globals (module c') =
                (globals (module c2) ++ [enumGlobal member true (ConstI32 0)])%list /\
              startFunctionBody c' =
                (startFunctionBody c2
                   ++ [SetGlobal (EnumValue.internalName member) init])%list /\
              diagnostics c' =
                (diagnostics c2
                   ++ if isConstEnum element c'
                      then [mustBeConstant (EnumValue.range member)] else [])%list
      end
end.
Proof.
intros Hkind Hvalue run. subst run.
unfold compileEnum_member. cbn [fst snd]. rewrite Hkind, Hvalue. cbn [isEnumValue negb].
destruct previousValue as [previous|].
- destruct previousValueIsMut; run_monad; fold (previousPlusOne previous);
    (match goal with |- context [precomputeExpression _ ?s] => exists s end);
    (split; [cbn; rewrite ?app_nil_r; reflexivity|]);
    (destruct (precomputeExpression _ _) as [init c2|]; [|reflexivity]);
    unfold isConstEnum; destruct (isConst init); cbn [negb fst snd];
    try (eexists; split; [reflexivity|]; repeat split; reflexivity);
    (destruct (Flags.is_ (default 0 (elementFlags c2 !! Enum.internalName element))
                 CommonFlags.CONST) eqn:Hc;
     eexists; (split; [reflexivity|]); cbn; rewrite Hc, ?app_nil_r;
     repeat split; reflexivity).
- eexists. split; [reflexivity|]. repeat split; reflexivity.
Qed.

Lemma bind_inv {A B} (m : M A) (k : A -> M B) c b c' :
bind m k c = Returned b c' ->
exists a c1, m c = Returned a c1 /\ k a c1 = Returned b c'.
Proof.
unfold bind. destruct (m c) as [a c1|]; [|discriminate].
intros H. exists a, c1. split; [reflexivity | exact H].
Qed.

(** After a member has been gone through, [previousValue] is that member
  when it is an enum value, and is unchanged otherwise. *)
Lemma compileEnum_member_previous element state member c state' c' :
compileEnum_member element state member c = Returned state' c' ->
fst state' = if isEnumValue (EnumValue.kind member) then Some member else fst state.
Proof.
unfold compileEnum_member.
destruct (isEnumValue (EnumValue.kind member)); cbn [negb].
- intros H.
  apply bind_inv in H as (? & ? & _ & H).
  apply bind_inv in H as (? & ? & _ & H).
  apply bind_inv in H as (? & ? & _ & H).
  inversion H. reflexivity.
- intros H. inversion H. reflexivity.
Qed.

(** So a member finds [previousValue] empty exactly when no enum value
  precedes it in the enum. *)
Lemma compileEnum_members_previous element members : forall state c state' c',
foldM (compileEnum_member element) members state c = Returned state' c' ->
fst state' = match lastEnumValue members with
             | Some v => Some v
             | None => fst state
             end.
Proof.
unfold lastEnumValue.
induction members as [|m members IH]; intros state c state' c' H.
- inversion H. reflexivity.
- cbn [foldM] in H. apply bind_inv in H as (s1 & c1 & Hstep & Hrest).
  apply IH in Hrest. apply compileEnum_member_previous in Hstep.
  rewrite Hrest, Hstep. cbn [List.filter].
  destruct (isEnumValue (EnumValue.kind m)); [|reflexivity].
  destruct (List.filter _ members) as [|x xs] eqn:E; [reflexivity|].
  change (last (m :: x :: xs)) with (last (x :: xs)).
  destruct (last (x :: xs)) eqn:E2; [reflexivity|].
  apply last_None in E2. discriminate.
Qed.

(** [compileEnum] goes through the members in order, starting without a
  previous value. *)
Lemma compileEnum_members element before member after c :
isEnumCompiled element c = false ->
Enum.members element = Some (before ++ member :: after)%list ->
compileEnum element c =
  match foldM (compileEnum_member element) before (None, false) (compileEnum_begin element c) with
  | Returned state c1 =>
      match compileEnum_member element state member c1 with
      | Returned state' c2 =>
          match foldM (compileEnum_member element) after state' c2 with
          | Returned _ c3 => Returned true (set_currentEnum None c3)
          | Thrown => Thrown
          end
      | Thrown => Thrown
      end
  | Thrown => Thrown
  end.
Proof.
intros Hc Hm. unfold compileEnum, isEnumCompiled in *.
unfold bind at 1, elementIs at 1, gets at 1. rewrite Hc, Hm.
unfold bind at 1, elementSet at 1, modify at 1.
unfold bind at 1, modify at 1.
fold (compileEnum_begin element c).
unfold bind at 1. unfold bind at 1. rewrite foldM_app.
destruct (foldM _ before _ _) as [state c1|]; [|reflexivity].
cbn [foldM]. unfold bind at 1.
destruct (compileEnum_member element state member c1) as [state' c2|]; [|reflexivity].
destruct (foldM _ after _ _) as [? c3|]; reflexivity.
Qed.

Lemma lastEnumValue_cons (m : EnumValue.t) (members : list EnumValue.t) :
lastEnumValue (m :: members) =
  match lastEnumValue members with
  | Some v => Some v
  | None => if isEnumValue (EnumValue.kind m) then Some m else None
  end.
Proof.
unfold lastEnumValue. cbn [List.filter].
destruct (isEnumValue (EnumValue.kind m)); [|destruct (last _); reflexivity].
destruct (List.filter _ members) as [|x xs] eqn:E; [reflexivity|].
change (last (m :: x :: xs)) with (last (x :: xs)).
destruct (last (x :: xs)) eqn:E2; [reflexivity|].
apply last_None in E2. discriminate.
Qed.

(** Runs the next operation of a turn of the loop; a collaborator may
  throw. *)
Ltac enum_step :=
match goal with
| |- context [bind (compileExpression ?e ?t ?k ?w) _ ?s] =>
    let E := fresh "E" in
    destruct (compileExpression e t k w s) as [? ?|] eqn:E;
    [rewrite (bind_returned _ _ _ _ _ E) | rewrite (bind_thrown _ _ _ E); exact I]
| |- context [bind (precomputeExpression ?e) _ ?s] =>
    let E := fresh "E" in
    destruct (precomputeExpression e s) as [? ?|] eqn:E;
    [rewrite (bind_returned _ _ _ _ _ E) | rewrite (bind_thrown _ _ _ E); exact I]
| |- context [if negb (isConst ?e) then _ else _] =>
    let E := fresh "Econst" in destruct (isConst e) eqn:E; cbn [negb]
| |- context [if Flags.is_ ?x ?y then _ else _] =>
    let E := fresh "Eflag" in destruct (Flags.is_ x y) eqn:E
| _ => step
| _ => progress cbn [fst snd negb]
end.

(** One turn of the loop, for an enum value with or without initializer:
  the flag that the turn hands on tells whether the value was initialized
  in the start function. *)
Lemma compileEnum_member_initialized (element : Enum.t) (state : option EnumValue.t * bool)
  (member : EnumValue.t) (c : Compiler) :
isEnumValue (EnumValue.kind member) = true ->
match compileEnum_member element state member c with
| Returned state' c' =>
    exists init,
      state' = (Some member, negb (isConst init)) /\ initialized element member init c'
| Thrown => True
end.
Proof.
intros Hkind. unfold compileEnum_member. rewrite Hkind. cbn [negb].
destruct state as [previous previousValueIsMut]. cbn [fst snd].
unfold elementSet, elementIs, error, addGlobal, onModule,
  createI32, createGetGlobal, createBinary, createSetGlobal.
destruct (EnumValue.value member) as [value|]; [|destruct previous as [p|];
  [destruct previousValueIsMut|]];
  repeat enum_step; unfold ret;
  first [ match goal with |- context [SetGlobal _ ?init] => exists init end
        | match goal with
          | |- context [{| global_name := _; global_type := _; global_mutable := _;
                           global_init := ?init |}] => exists init
          end ];
  unfold initialized, isConstEnum, enumGlobal;
  repeat match goal with H : isConst ?i = _ |- context [isConst ?i] => rewrite H end;
  cbn [isConst getExpressionId negb globals module set_module Module_set_globals
       startFunctionBody set_startFunctionBody elementFlags recordNode
       Module_set_created set_diagnostics];
  rewrite ?last_snoc; repeat split; reflexivity.
Qed.

(** The loop of [compileEnum], from any state: what it hands on after
  [members] is the last enum value among them, with the flag that tells
  whether that value was initialized in the start function. *)
Lemma compileEnum_members_initialized (element : Enum.t) (members : list EnumValue.t) :
forall (state : option EnumValue.t * bool) (c : Compiler),
  match foldM (compileEnum_member element) members state c with
  | Returned state' c' =>
      match lastEnumValue members with
      | None => state' = state /\ c' = c
      | Some previous =>
          exists init,
            state' = (Some previous, negb (isConst init)) /\
            initialized element previous init c'
      end
  | Thrown => True
  end.
Proof.
induction members as [|m members IH]; intros state c.
- cbn. split; reflexivity.
- cbn [foldM].
  pose proof (compileEnum_member_initialized element state m c) as Hstep.
  destruct (compileEnum_member element state m c) as [state1 c1|] eqn:E;
    [rewrite (bind_returned _ _ _ _ _ E) | rewrite (bind_thrown _ _ _ E); exact I].
  specialize (IH state1 c1).
  destruct (foldM (compileEnum_member element) members state1 c1) as [state' c'|];
    [|exact I].
  rewrite lastEnumValue_cons.
  destruct (lastEnumValue members) as [v|]; [exact IH|].
  destruct IH as [-> ->].
  destruct (isEnumValue (EnumValue.kind m)) eqn:Hkind.
  + exact (Hstep eq_refl).
  + unfold compileEnum_member in E. rewrite Hkind in E. cbn [negb] in E.
    injection E as <- <-. split; reflexivity.
Qed.

(** C6.  [compileEnum], for an enum that is not compiled yet, goes through
  the members in order.  When it comes to a member without an
  initializer, the previous value is the last enum value before the
  member, and the flag [previousValueIsMut] tells whether that value was
  initialized in the start function: it is set exactly when the value's
  initializer was not a constant, the value's global then being mutable
  and zero and the last statement of the start function assigning the
  initializer to it.  The member is given the constant 0 when no enum
  value precedes it; otherwise it is given the precomputed
  [previous + 1], as the initializer of its global when that is a
  constant and else by an assignment in the start function.  When the
  previous value was initialized in the start function, "Enum member must
  have initializer" is reported for the member, in a const enum as in any
  other.  [compileEnum] then goes on with the members that follow and
  returns true. *)
Theorem compileEnum_member_without_initializer (element : Enum.t)
  (before : list EnumValue.t) (member : EnumValue.t) (after : list EnumValue.t)
  (c : Compiler) :
isEnumCompiled element c = false ->
Enum.members element = Some (before ++ member :: after)%list ->
EnumValue.kind member = ElementKind.ENUMVALUE ->
EnumValue.value member = None ->
match foldM (compileEnum_member element) before (None, false)
        (compileEnum_begin element c) with
| Thrown => compileEnum element c = Thrown
| Returned (previousValue, previousValueIsMut) c0 =>
    let run := compileEnum_member element (previousValue, previousValueIsMut) member c0 in
    compileEnum element c =
      match run with
      | Returned state' c2 =>
          match foldM (compileEnum_member element) after state' c2 with
          | Returned _ c3 => Returned true (set_currentEnum None c3)
          | Thrown => Thrown
          end
      | Thrown => Thrown
      end /\
    previousValue = lastEnumValue before /\
    match previousValue with
    | None =>
        previousValueIsMut = false /\
        exists c',
          run = Returned (Some member, false) c' /\
          globals (module c') =
            (globals (module c0)
               ++ [enumGlobal member (negb (isConstEnum element c')) (ConstI32 0)])%list /\
          startFunctionBody c' = startFunctionBody c0 /\
          diagnostics c' = diagnostics c0
    | Some previous =>
        (exists previousInit,
           initialized element previous previousInit c0 /\
           previousValueIsMut = negb (isConst previousInit)) /\
        exists c1,
          diagnostics c1 =
            (diagnostics c0
               ++ if previousValueIsMut then [mustHaveInitializer member] else [])%list /\
          match precomputeExpression (previousPlusOne previous) c1 with
          | Thrown => run = Thrown
          | Returned init c2 =>
              exists c',
                run = Returned (Some member, negb (isConst init)) c' /\
                if isConst init then
                  globals (module c') =
                    (globals (module c2)
                       ++ [enumGlobal member (negb (isConstEnum element c')) init])%list /\
                  startFunctionBody c' = startFunctionBody c2 /\
                  diagnostics c' = diagnostics c2
                else
                  globals (module c') =
                    (globals (module c2) ++ [enumGlobal member true (ConstI32 0)])%list /\
                  startFunctionBody c' =
                    (startFunctionBody c2
                       ++ [SetGlobal (EnumValue.internalName member) init])%list /\
                  diagnostics c' =
                    (diagnostics c2
                       ++ if isConstEnum element c'
                          then [mustBeConstant (EnumValue.range member)] else [])%list
          end
    end
end.
Proof.
intros Hcompiled Hmembers Hkind Hvalue.
rewrite (compileEnum_members element before member after c Hcompiled Hmembers).
pose proof (compileEnum_members_initialized element before (None, false)
              (compileEnum_begin element c)) as Hloop.
destruct (foldM (compileEnum_member element) before (None, false)
            (compileEnum_begin element c))
  as [[previousValue previousValueIsMut] c0|]; [|reflexivity].
cbv zeta. split; [reflexivity|].
pose proof (compileEnum_member_uninitialized element previousValue previousValueIsMut
              member c0 Hkind Hvalue) as Hstep.
cbv zeta in Hstep.
destruct (lastEnumValue before) as [previous|].
- destruct Hloop as (init & Hstate & Hinit). injection Hstate as -> ->.
  split; [reflexivity|]. split; [|exact Hstep].
  exists init. split; [exact Hinit | reflexivity].
- destruct Hloop as [Hstate _]. injection Hstate as -> ->.
  split; [reflexivity|]. split; [reflexivity | exact Hstep].
Qed.

(** ** Static strings *)

Lemma Buffer_set_middle (pre post : list Z) (b v : Z) :
Buffer.set (pre ++ b :: post) (Z.of_nat (length pre)) v = (pre ++ Z.land v 255 :: post)%list.
Proof.
unfold Buffer.set.
destruct (Z.ltb_spec (Z.of_nat (length pre)) 0) as [H|_]; [lia|].
rewrite Nat2Z.id. rewrite insert_app_r_alt by lia.
rewrite Nat.sub_diag. reflexivity.
Qed.

Lemma writeI16_middle (pre post : list Z) (b0 b1 v p : Z) :
p = Z.of_nat (length pre) ->
Buffer.writeI16 v (pre ++ b0 :: b1 :: post) p = (pre ++ Buffer.le16 v ++ post)%list.
Proof.
intros ->. unfold Buffer.writeI16, Buffer.le16.
rewrite Buffer_set_middle.
replace (Z.of_nat (length pre) + 1) with (Z.of_nat (length (pre ++ [Z.land v 255])))
  by (rewrite length_app; simpl; lia).
change (pre ++ Z.land v 255 :: b1 :: post)%list
  with (pre ++ [Z.land v 255] ++ b1 :: post)%list.
rewrite app_assoc, Buffer_set_middle, <- app_assoc. reflexivity.
Qed.

Lemma writeI32_middle (pre post : list Z) (b0 b1 b2 b3 v p : Z) :
p = Z.of_nat (length pre) ->
Buffer.writeI32 v (pre ++ b0 :: b1 :: b2 :: b3 :: post) p
  = (pre ++ Buffer.le32 v ++ post)%list.
Proof.
intros ->. unfold Buffer.writeI32, Buffer.le32.
rewrite Buffer_set_middle.
set (x0 := Z.land v 255).
replace (Z.of_nat (length pre) + 1) with (Z.of_nat (length (pre ++ [x0])))
  by (rewrite length_app; simpl; lia).
replace (Z.of_nat (length pre) + 2) with (Z.of_nat (length ((pre ++ [x0]) ++ [Z.land (Z.shiftr v 8) 255])))
  by (rewrite !length_app; simpl; lia).
replace (Z.of_nat (length pre) + 3)
  with (Z.of_nat (length (((pre ++ [x0]) ++ [Z.land (Z.shiftr v 8) 255])
                            ++ [Z.land (Z.shiftr v 16) 255])))
  by (rewrite !length_app; simpl; lia).
change (pre ++ x0 :: b1 :: b2 :: b3 :: post)%list
  with (pre ++ [x0] ++ b1 :: b2 :: b3 :: post)%list.
rewrite app_assoc, Buffer_set_middle.
change (?l ++ ?x :: b2 :: b3 :: post)%list with (l ++ [x] ++ b2 :: b3 :: post)%list.
rewrite app_assoc, Buffer_set_middle.
change (?l ++ ?x :: b3 :: post)%list with (l ++ [x] ++ b3 :: post)%list.
rewrite app_assoc, Buffer_set_middle.
rewrite <- !app_assoc. reflexivity.
Qed.

Lemma zeros_length n : 0 <= n -> Z.of_nat (length (zeros n)) = n.
Proof. intros H. unfold zeros. rewrite length_replicate. lia. Qed.

Lemma zeros_add a b : 0 <= a -> 0 <= b -> zeros (a + b) = (zeros a ++ zeros b)%list.
Proof.
intros Ha Hb. unfold zeros. rewrite Z2Nat.inj_add by lia. apply replicate_add.
Qed.

Lemma zeros_succ n : 0 <= n -> zeros (n + 1) = 0 :: zeros n.
Proof.
intros H. unfold zeros. replace (Z.to_nat (n + 1)) with (S (Z.to_nat n)) by lia. reflexivity.
Qed.

(** Writing a 32-bit value into a region of zeros. *)
Lemma writeI32_zeros (pre post : list Z) (size offset value p : Z) :
0 <= offset -> offset + 4 <= size ->
p = Z.of_nat (length pre) + offset ->
Buffer.writeI32 value (pre ++ zeros size ++ post) p
  = (pre ++ field32 size offset value ++ post)%list.
Proof.
intros H0 H4 Hp.
replace size with (offset + (4 + (size - offset - 4))) at 1 by lia.
rewrite zeros_add by lia. rewrite (zeros_add 4) by lia.
change (zeros 4) with [0; 0; 0; 0].
unfold field32. rewrite <- !app_assoc.
rewrite (app_assoc pre (zeros offset)).
cbn [app].
rewrite writeI32_middle.
- rewrite <- !app_assoc. reflexivity.
- rewrite length_app, Nat2Z.inj_add, zeros_length by lia. exact Hp.
Qed.

Lemma writeI32_zeros_head (post : list Z) (size offset value : Z) :
0 <= offset -> offset + 4 <= size ->
Buffer.writeI32 value (zeros size ++ post) offset = (field32 size offset value ++ post)%list.
Proof.
intros H0 H4. apply (writeI32_zeros [] post size offset value offset H0 H4). reflexivity.
Qed.

(** The loop over the code units fills the zeros that follow [pre]. *)
Lemma writeCodeUnits_zeros (s : JSString) : forall (pre : list Z) (p : Z),
p = Z.of_nat (length pre) ->
writeCodeUnits s (pre ++ zeros (Z.of_nat (length s) * 2)) p = (pre ++ codeUnits s)%list.
Proof.
induction s as [|u s IH]; intros pre p Hp.
- simpl. reflexivity.
- cbn [writeCodeUnits].
  replace (Z.of_nat (length (u :: s)) * 2) with (Z.of_nat (length s) * 2 + 1 + 1)
    by (cbn [length]; lia).
  rewrite !zeros_succ by lia.
  rewrite (writeI16_middle pre _ 0 0 u p Hp).
  rewrite app_assoc. rewrite IH.
  + unfold codeUnits. cbn [flat_map]. rewrite <- app_assoc. reflexivity.
  + rewrite length_app, Nat2Z.inj_add. unfold Buffer.le16. cbn [length]. lia.
Qed.

Lemma i64_is_u32_small p : 0 <= p < 2 ^ 32 -> i64_is_u32 p = true.
Proof.
intros H. unfold i64_is_u32, i64_high.
rewrite Z.shiftr_div_pow2 by lia. rewrite Z.div_small by lia. reflexivity.
Qed.

Lemma stringOffset_value (program : Program.t) (off : Z) :
0 <= off -> 0 <= gcHeaderSizeOf program -> off + gcHeaderSizeOf program < 2 ^ 32 ->
(if Program.hasGC program then i64_add off (i64_new (Program.gcHeaderSize program) 0) else off)
= off + gcHeaderSizeOf program.
Proof.
unfold gcHeaderSizeOf. intros H0 HG Hlt.
destruct (Program.hasGC program); [|lia].
unfold i64_add, i64_new. rewrite Z.mod_0_l by lia.
rewrite Z.mod_small by lia. rewrite Z.mul_0_r, Z.add_0_r.
rewrite (wrap64_id (Program.gcHeaderSize program)) by lia.
apply wrap64_id. lia.
Qed.

(** A string that has its segment is not stored again. *)
Lemma ensureStaticString_reuse (s : JSString) (c : Compiler) (cls : Class.t)
  (segment : MemorySegment) :
Program.stringInstance (program c) = Some cls ->
stringSegments c !! s = Some segment ->
0 <= offset segment -> 0 <= gcHeaderSizeOf (program c) ->
offset segment + gcHeaderSizeOf (program c) < 2 ^ 32 ->
exists c',
  ensureStaticString s c
    = Returned (pointerTo (options c) (offset segment + gcHeaderSizeOf (program c))) c' /\
  memorySegments c' = memorySegments c /\
  stringSegments c' = stringSegments c /\
  memoryOffset c' = memoryOffset c.
Proof.
intros Hcls Hseg H0 HG Hlt.
unfold ensureStaticString. run_monad. rewrite Hcls, Hseg.
rewrite stringOffset_value by assumption.
unfold pointerTo. cbn [options set_currentType].
destruct (Options.isWasm64 (options c)).
- eexists. split; [reflexivity|]. repeat split; reflexivity.
- rewrite i64_is_u32_small by lia.
  eexists. split; [reflexivity|]. repeat split; reflexivity.
Qed.

Lemma field32_length size offset value :
0 <= offset -> offset + 4 <= size -> Z.of_nat (length (field32 size offset value)) = size.
Proof.
intros H0 H4. unfold field32, Buffer.le32.
rewrite !length_app, !Nat2Z.inj_add, !zeros_length by lia. cbn [length]. lia.
Qed.

Lemma codeUnits_length s : Z.of_nat (length (codeUnits s)) = Z.of_nat (length s) * 2.
Proof.
unfold codeUnits. induction s as [|u s IH]; [reflexivity|].
cbn [flat_map]. rewrite length_app, Nat2Z.inj_add, IH. cbn [length Buffer.le16]. lia.
Qed.

(** The buffer of a string with a GC header, as the three writes leave it. *)
Lemma stringBuffer_gc (s : JSString) (G hookOffset hook H lengthOffset : Z) :
0 <= hookOffset -> hookOffset + 4 <= G ->
0 <= lengthOffset -> lengthOffset + 4 <= H ->
writeCodeUnits s
  (Buffer.writeI32 (Z.of_nat (length s))
     (Buffer.writeI32 hook (Buffer.create (G + (H + Z.of_nat (length s) * 2))) hookOffset)
     (G + lengthOffset))
  (G + H)
= (field32 G hookOffset hook ++ field32 H lengthOffset (Z.of_nat (length s))
     ++ codeUnits s)%list.
Proof.
intros Hh0 Hh4 Hl0 Hl4.
change (Buffer.create ?n) with (zeros n).
rewrite zeros_add, zeros_add by lia.
rewrite writeI32_zeros_head by lia.
rewrite (writeI32_zeros (field32 G hookOffset hook) _ H lengthOffset)
  by (try rewrite field32_length; lia).
rewrite app_assoc.
rewrite writeCodeUnits_zeros.
- rewrite <- app_assoc. reflexivity.
- rewrite length_app, Nat2Z.inj_add, !field32_length by lia. reflexivity.
Qed.

(** And without a GC header. *)
Lemma stringBuffer_plain (s : JSString) (H lengthOffset : Z) :
0 <= lengthOffset -> lengthOffset + 4 <= H ->
writeCodeUnits s
  (Buffer.writeI32 (Z.of_nat (length s))
     (Buffer.create (H + Z.of_nat (length s) * 2)) (0 + lengthOffset))
  (0 + H)
= (field32 H lengthOffset (Z.of_nat (length s)) ++ codeUnits s)%list.
Proof.
intros Hl0 Hl4.
change (Buffer.create ?n) with (zeros n).
rewrite zeros_add by lia.
rewrite Z.add_0_l, writeI32_zeros_head by lia.
apply writeCodeUnits_zeros. rewrite field32_length by lia. lia.
Qed.

Section StaticStrings.

(** The GC hook of a class is found or made without touching static data. *)
Hypothesis ensureGCHook_frame : forall (cls : Class.t) (c : Compiler),
exists hook c', ensureGCHook cls c = Returned hook c' /\ sameStaticData c c'.

Variables (s : JSString) (c : Compiler) (cls : Class.t) (lengthOffset : Z).

Hypothesis stringInstance_defined : Program.stringInstance (program c) = Some cls.
Hypothesis length_field : Class.members cls !! "length" = Some lengthOffset.
Hypothesis length_in_header :
0 <= lengthOffset /\ lengthOffset + 4 <= stringHeaderSize cls.
Hypothesis hook_in_header :
Program.hasGC (program c) = true ->
0 <= Program.gcHookOffset (program c) /\
Program.gcHookOffset (program c) + 4 <= Program.gcHeaderSize (program c).
Hypothesis offset_nonnegative : 0 <= memoryOffset c.
Hypothesis fits_in_memory :
memoryOffset c + 8 + gcHeaderSizeOf (program c) + stringHeaderSize cls
  + Z.of_nat (length s) * 2 < 2 ^ 32.

Lemma gcHeaderSizeOf_nonnegative : 0 <= gcHeaderSizeOf (program c).
Proof.
unfold gcHeaderSizeOf. destruct (Program.hasGC (program c)); [|lia].
destruct hook_in_header; [reflexivity|lia].
Qed.

(** A string that has no segment yet gets one. *)
Lemma ensureStaticString_create :
stringSegments c !! s = None ->
exists hook c1,
  let segment :=
    MemorySegment_create
      (gcHeaderOf (program c) hook
         ++ field32 (stringHeaderSize cls) lengthOffset (Z.of_nat (length s))
         ++ codeUnits s)
      (align_up (memoryOffset c) 8) in
  ensureStaticString s c
    = Returned (pointerTo (options c) (offset segment + gcHeaderSizeOf (program c))) c1 /\
  (Program.hasGC (program c) = true ->
   exists c0, ensureGCHook cls c = Returned hook c0) /\
  memorySegments c1 = (memorySegments c ++ [segment])%list /\
  stringSegments c1 = <[s := segment]> (stringSegments c) /\
  program c1 = program c /\ options c1 = options c.
Proof.
intros Hnew.
pose proof gcHeaderSizeOf_nonnegative as HG.
destruct length_in_header as [Hl0 Hl4].
pose proof (align_up_bounds (memoryOffset c) 8 ltac:(lia)) as Hal.
unfold ensureStaticString, offsetof.
step. rewrite stringInstance_defined. step. step. rewrite Hnew.
fold (stringHeaderSize cls).
unfold gcHeaderOf, gcHeaderSizeOf in *.
destruct (Program.hasGC (program c)) eqn:HGC.
- destruct (hook_in_header eq_refl) as [Hh0 Hh4].
  destruct (ensureGCHook_frame cls c) as (hook & c0 & Hrun & Hp & Ho & Hmo & Hms & Hss).
  exists hook.
  repeat step. rewrite (bind_returned _ _ _ _ _ Hrun). step. cbn [fst snd].
  rewrite length_field. repeat step.
  rewrite stringBuffer_gc by lia.
  set (buf := (field32 _ _ hook ++ _)%list).
  assert (Z.of_nat (length buf) = Program.gcHeaderSize (program c) + stringHeaderSize cls
            + Z.of_nat (length s) * 2) as Hlen.
  { subst buf. rewrite !length_app, !Nat2Z.inj_add, !field32_length, codeUnits_length by lia.
    lia. }
  rewrite (bind_returned _ _ _ _ _ (addMemorySegment_step c0 buf 8 eq_refl
             ltac:(lia) ltac:(lia) ltac:(lia))).
  rewrite Hmo, Hms.
  set (segment := MemorySegment_create buf (align_up (memoryOffset c) 8)).
  repeat step.
  cbn [program options stringSegments memorySegments set_stringSegments
       set_memoryOffset set_memorySegments set_currentType].
  assert (i64_add (offset segment) (i64_new (Program.gcHeaderSize (program c)) 0)
          = offset segment + Program.gcHeaderSize (program c)) as Hso.
  { pose proof (stringOffset_value (program c) (offset segment)) as Hso.
    unfold gcHeaderSizeOf in Hso. rewrite HGC in Hso.
    apply Hso; subst segment; cbn [offset MemorySegment_create]; lia. }
  rewrite Hso, ?Ho.
  unfold pointerTo, createI64, createI32.
  destruct (Options.isWasm64 (options c)).
  + eexists. split; [reflexivity|]. split; [eauto|]. cbn. rewrite Hss.
    repeat split; assumption.
  + rewrite i64_is_u32_small by (subst segment; cbn [offset MemorySegment_create]; lia).
    eexists. split; [reflexivity|]. split; [eauto|]. cbn. rewrite Hss.
    repeat split; assumption.
- exists 0.
  repeat step. cbn [fst snd].
  rewrite length_field. repeat step.
  rewrite stringBuffer_plain by lia.
  set (buf := (field32 _ _ _ ++ _)%list).
  assert (Z.of_nat (length buf) = stringHeaderSize cls + Z.of_nat (length s) * 2) as Hlen.
  { subst buf. rewrite !length_app, !Nat2Z.inj_add, !field32_length, codeUnits_length by lia.
    lia. }
  rewrite (bind_returned _ _ _ _ _ (addMemorySegment_step c buf 8 eq_refl
             ltac:(lia) ltac:(lia) ltac:(lia))).
  set (segment := MemorySegment_create buf (align_up (memoryOffset c) 8)).
  repeat step.
  cbn [program options stringSegments memorySegments set_stringSegments
       set_memoryOffset set_memorySegments set_currentType].
  rewrite Z.add_0_r.
  unfold pointerTo, createI64, createI32.
  destruct (Options.isWasm64 (options c)).
  + eexists. split; [reflexivity|]. split; [discriminate|]. repeat split; reflexivity.
  + rewrite i64_is_u32_small by (subst segment; cbn [offset MemorySegment_create]; lia).
    eexists. split; [reflexivity|]. split; [discriminate|]. repeat split; reflexivity.
Qed.

(** C5.  Two calls of [ensureStaticString] with the same string create one
  memory segment between them and return the same pointer.  The
  segment's bytes are, in order: with a GC, the GC header, zero but for
  the hook index of the string class at the hook offset; the string
  header, zero but for the length as an i32 at the offset of the
  [length] field; the UTF-16 code units, two bytes each, low byte
  first.  The pointer is the segment's offset moved past the GC header. *)
Theorem ensureStaticString_canonical :
stringSegments c !! s = None ->
exists hook pointer c1 c2,
  let segment :=
    MemorySegment_create
      (gcHeaderOf (program c) hook
         ++ field32 (stringHeaderSize cls) lengthOffset (Z.of_nat (length s))
         ++ codeUnits s)
      (align_up (memoryOffset c) 8) in
  ensureStaticString s c = Returned pointer c1 /\
  ensureStaticString s c1 = Returned pointer c2 /\
  memorySegments c1 = (memorySegments c ++ [segment])%list /\
  memorySegments c2 = memorySegments c1 /\
  pointer = pointerTo (options c) (offset segment + gcHeaderSizeOf (program c)) /\
  (Program.hasGC (program c) = true ->
   exists c0, ensureGCHook cls c = Returned hook c0).
Proof.
intros Hnew.
destruct (ensureStaticString_create Hnew) as (hook & c1 & Hrun & Hhook & Hms & Hss & Hp & Ho).
cbv zeta in Hrun, Hms, Hss.
set (segment := MemorySegment_create _ _) in *.
pose proof gcHeaderSizeOf_nonnegative as HG.
destruct length_in_header as [Hl0 Hl4].
pose proof (align_up_bounds (memoryOffset c) 8 ltac:(lia)) as Hal.
destruct (ensureStaticString_reuse s c1 cls segment) as (c2 & Hrun2 & Hms2 & _).
- rewrite Hp. exact stringInstance_defined.
- rewrite Hss. apply lookup_insert_eq.
- subst segment. cbn [offset MemorySegment_create]. lia.
- rewrite Hp. exact HG.
- rewrite Hp. subst segment. cbn [offset MemorySegment_create]. lia.
- rewrite Hp, Ho in Hrun2.
  exists hook, (pointerTo (options c) (offset segment + gcHeaderSizeOf (program c))), c1, c2.
  cbv zeta. fold segment. repeat split; assumption.
Qed.

End StaticStrings.

(** ** Direct calls *)

Lemma created_recordNodes nodes : forall c,
created (module (recordNodes nodes c)) = (created (module c) ++ nodes)%list.
Proof.
induction nodes as [|e nodes IH]; intros c.
- simpl. rewrite app_nil_r. reflexivity.
- cbn [recordNodes fold_left]. fold (recordNodes nodes (recordNode e c)).
  rewrite IH. cbn. rewrite <- app_assoc. reflexivity.
Qed.

Lemma recordNodes_frame nodes : forall c,
heap (recordNodes nodes c) = heap c /\
argcVar (recordNodes nodes c) = argcVar c /\
program (recordNodes nodes c) = program c /\
options (recordNodes nodes c) = options c /\
functionTable (recordNodes nodes c) = functionTable c /\
diagnostics (recordNodes nodes c) = diagnostics c /\
currentFunction (recordNodes nodes c) = currentFunction c /\
globals (module (recordNodes nodes c)) = globals (module c) /\
functions (module (recordNodes nodes c)) = functions (module c).
Proof.
induction nodes as [|e nodes IH]; intros c.
- repeat split; reflexivity.
- cbn [recordNodes fold_left]. fold (recordNodes nodes (recordNode e c)).
  destruct (IH (recordNode e c)) as (H1 & H2 & H3 & H4 & H5 & H6 & H7 & H8 & H9).
  rewrite H1, H2, H3, H4, H5, H6, H7, H8, H9. repeat split; reflexivity.
Qed.

(** The loop of zeroes creates the native zero of each omitted parameter. *)
Lemma makeCallDirect_zeroes_run parameterTypes indices : forall c,
makeCallDirect_zeroes parameterTypes indices c =
  match zeroesFor parameterTypes indices with
  | Some zeroes => Returned zeroes (recordNodes zeroes c)
  | None => Thrown
  end.
Proof.
unfold makeCallDirect_zeroes.
induction indices as [|i indices IH]; intros c; [reflexivity|].
cbn [mapM zeroesFor].
destruct (lookupZ parameterTypes i) as [type|]; [|reflexivity].
rewrite bind_bind, bind_defined. cbv beta.
unfold toNativeZero.
destruct (nativeZero type) as [zero|]; [|reflexivity].
rewrite bind_create. unfold bind at 1. rewrite IH.
destruct (zeroesFor parameterTypes indices) as [zeroes|]; reflexivity.
Qed.

(** The loop that inlines the initializers returns exactly the operands
  that [initializersCompiled] describes. *)
Lemma makeCallDirect_inline_spec parameterNodes parameterTypes indices :
forall c inlined c',
  initializersCompiled parameterNodes parameterTypes indices c inlined c' <->
  makeCallDirect_inline parameterNodes parameterTypes indices c = Returned inlined c'.
Proof.
unfold makeCallDirect_inline.
induction indices as [|i indices IH]; intros c inlined c'.
- split.
  + intros H. inversion H. reflexivity.
  + intros H. injection H as <- <-. constructor.
- cbn [mapM]. split.
  + intros H. inversion H as [|? ? node initializer type operand operands ? c1 ?
                                Hnode Hinit Htype Hrun Hrest]. subst.
    rewrite !bind_bind, Hnode, bind_defined. cbv beta.
    rewrite bind_bind, Hinit, bind_defined. cbv beta.
    rewrite bind_bind, Htype, bind_defined. cbv beta.
    rewrite (bind_returned _ _ _ _ _ Hrun).
    apply IH in Hrest. rewrite (bind_returned _ _ _ _ _ Hrest). reflexivity.
  + intros H.
    destruct (lookupZ parameterNodes i) as [node|] eqn:Hnode; [|discriminate H].
    rewrite !bind_bind, bind_defined in H. cbv beta in H.
    destruct (ParameterNode.initializer node) as [initializer|] eqn:Hinit;
      [|discriminate H].
    rewrite bind_bind, bind_defined in H. cbv beta in H.
    destruct (lookupZ parameterTypes i) as [type|] eqn:Htype; [|discriminate H].
    rewrite bind_bind, bind_defined in H. cbv beta in H.
    apply bind_inv in H as (operand & c1 & Hrun & H).
    apply bind_inv in H as (operands & c2 & Hrest & H).
    injection H as <- <-.
    apply IH in Hrest.
    exact (initializersCompiled_cons _ _ _ _ _ _ _ _ _ _ _ _ Hnode Hinit Htype Hrun Hrest).
Qed.

(** Reads the function at [p], known to be [f] by [tac]. *)
Ltac get_function p f tac :=
match goal with
| |- context [bind (getFunction p) _ ?s] =>
    let Hx := fresh "Hget" in
    assert (heap s !! p = Some f) as Hx
      by (cbn [heap set_currentType set_heap recordNode set_module set_program]; tac);
    rewrite (bind_returned _ _ _ _ _ (getFunction_returned _ _ _ Hx)); clear Hx
end.

Lemma ensureArgcVar_run c :
exists c', ensureArgcVar c = Returned "~argc" c' /\ heap c' = heap c.
Proof.
unfold ensureArgcVar. step.
destruct (argcVar c =? 0).
- unfold createI32, addGlobal. repeat step. unfold onModule. repeat step.
  eexists. split; reflexivity.
- repeat step. eexists. split; reflexivity.
Qed.

Section DirectCalls.

Variables (instance : FunctionPtr) (operands : option (list ExpressionRef)).
Variables (c c0 : Compiler) (f0 f : Function.t).

(** The function is on the heap, the operands suffice (the method's
  assertion), and the function is compiled or gets compiled. *)
Hypothesis function_before : heap c !! instance = Some f0.
Hypothesis enough_operands : minOperandsOf f0 <= numOperandsOf operands.
Hypothesis function_compiled : compileFunction instance c = Returned true c0.
Hypothesis function_after : heap c0 !! instance = Some f.

(** C10.  For a module import called with fewer operands than it has
  parameters, one of the omitted parameters having no constant
  initializer, [makeCallDirect] fills the omitted operands with the
  native zeroes of their types and returns a [call_import] of the
  function itself: no function object and no IR function is added (no
  trampoline), the [~argc] global is neither made nor set, and the only
  nodes created are the zeroes and the call. *)
Theorem makeCallDirect_import (zeroes : list ExpressionRef) :
FunctionOps.is_ f CommonFlags.MODULE_IMPORT = true ->
numOperandsOf operands < maxOperandsOf f0 ->
allOptionalsAreConstant (FunctionPrototype.parameters (Function.prototype f))
  (omittedOf f0 (numOperandsOf operands)) = Some false ->
zeroesFor (Signature.parameterTypes (Function.signature f))
  (omittedOf f0 (numOperandsOf operands)) = Some zeroes ->
let call :=
  CallImport (Function.internalName f) (default [] operands ++ zeroes)
    (nativeReturnTypeOf f) in
exists c',
  makeCallDirect instance operands c = Returned call c' /\
  createdBy c0 c' = (zeroes ++ [call])%list /\
  heap c' = heap c0 /\
  functions (module c') = functions (module c0) /\
  globals (module c') = globals (module c0) /\
  argcVar c' = argcVar c0.
Proof.
intros Himport Hfew Hconst Hzero call.
unfold minOperandsOf, maxOperandsOf, omittedOf, maxArgumentsOf, numArgumentsOf,
  numOperandsOf in *.
unfold makeCallDirect.
rewrite (bind_returned _ _ _ _ _ (getFunction_returned _ _ _ function_before)).
cbv zeta.
apply Z.leb_le in enough_operands. rewrite enough_operands. step.
rewrite (bind_returned _ _ _ _ _ function_compiled). cbn [negb].
rewrite (bind_returned _ _ _ _ _ (getFunction_returned _ _ _ function_after)).
apply Z.ltb_lt in Hfew. rewrite Hfew.
rewrite Hconst. step.
unfold bind at 1. rewrite makeCallDirect_zeroes_run, Hzero.
rewrite Himport. cbn [negb].
destruct (recordNodes_frame zeroes c0) as (Hh & Ha & _ & _ & _ & _ & _ & Hg & Hfs).
step.
match goal with |- context [bind (getFunction instance) _ ?s] =>
  assert (heap s !! instance = Some f) as Hf'
    by (cbn [heap set_currentType]; rewrite Hh; exact function_after);
  rewrite (bind_returned _ _ _ _ _ (getFunction_returned _ _ _ Hf'))
end.
unfold createCallImport, create. repeat step.
eexists. split; [reflexivity|].
split.
{ apply createdBy_app. cbn. rewrite created_recordNodes, <- app_assoc. reflexivity. }
cbn. repeat split; assumption.
Qed.

Let n := numOperandsOf operands.
Let supplied := default [] operands.
Let nodes := FunctionPrototype.parameters (Function.prototype f).
Let types := Signature.parameterTypes (Function.signature f).

(** The call that [makeCallDirect] ends with on its direct routes. *)
Let callOf (g : Function.t) (ops : list ExpressionRef) : ExpressionRef :=
if FunctionOps.is_ f CommonFlags.MODULE_IMPORT
then CallImport (Function.internalName g) ops (nativeReturnTypeOf f)
else Call (Function.internalName g) ops (nativeReturnTypeOf f).

Lemma makeCallDirect_begin :
makeCallDirect instance operands c =
  (let returnType := Signature.returnType (Function.signature f) in
   let isCallImport := FunctionOps.is_ f CommonFlags.MODULE_IMPORT in
   let callThrough (operands : list ExpressionRef) : M ExpressionRef :=
     modify (set_currentType returnType) ;;
     f <- getFunction instance ;;
     if isCallImport
     then createCallImport (Function.internalName f) operands (Type_.toNativeType returnType)
     else createCall (Function.internalName f) operands (Type_.toNativeType returnType) in
   if n <? maxOperandsOf f0 then
     constant <- defined (allOptionalsAreConstant nodes (omittedOf f0 n)) ;;
     if constant then
       inlined <- makeCallDirect_inline nodes types (omittedOf f0 n) ;;
       callThrough (supplied ++ inlined)%list
     else
       zeroes <- makeCallDirect_zeroes types (omittedOf f0 n) ;;
       let operands := (supplied ++ zeroes)%list in
       if negb isCallImport then
         let original := instance in
         instance <- ensureTrampoline instance ;;
         compiled <- compileFunction instance ;;
         if negb compiled then createUnreachable
         else
           o <- getFunction original ;;
           updateFunction instance
             (fun t => Function.set_flow
                         (Flow.set_flags (Flow.flags (Function.flow o)) (Function.flow t)) t) ;;
           t <- getFunction instance ;;
           modify (fun c =>
             set_program
               (Program.set_instancesLookup
                  (<[Function.internalName t := instance]>
                     (Program.instancesLookup (program c))) (program c)) c) ;;
           let nativeReturnType := Type_.toNativeType returnType in
           modify (set_currentType returnType) ;;
           argc <- ensureArgcVar ;;
           n' <- createI32 (numArgumentsOf f0 n) ;;
           setArgc <- createSetGlobal argc n' ;;
           t <- getFunction instance ;;
           call <- createCall (Function.internalName t) operands nativeReturnType ;;
           createBlock None [setArgc; call] nativeReturnType
       else callThrough operands
   else callThrough supplied) c0.
Proof.
subst n supplied nodes types.
unfold minOperandsOf, maxOperandsOf, omittedOf, maxArgumentsOf, numArgumentsOf,
  numOperandsOf in *.
unfold makeCallDirect.
rewrite (bind_returned _ _ _ _ _ (getFunction_returned _ _ _ function_before)).
cbv zeta.
apply Z.leb_le in enough_operands. rewrite enough_operands. step.
rewrite (bind_returned _ _ _ _ _ function_compiled). cbn [negb].
rewrite (bind_returned _ _ _ _ _ (getFunction_returned _ _ _ function_after)).
reflexivity.
Qed.

(** All operands supplied: a call of the function itself. *)
Lemma makeCallDirect_all_operands :
maxOperandsOf f0 <= n ->
exists c', makeCallDirect instance operands c = Returned (callOf f supplied) c'.
Proof.
intros Hall. apply Z.ltb_ge in Hall.
rewrite makeCallDirect_begin. cbv zeta.
rewrite Hall. step.
get_function instance f ltac:(exact function_after).
subst callOf. cbv beta.
destruct (FunctionOps.is_ f CommonFlags.MODULE_IMPORT); eexists; reflexivity.
Qed.

(** Constant initializers: compiled as the missing operands. *)
Lemma makeCallDirect_constant_initializers (inlined : list ExpressionRef)
  (c1 : Compiler) (f1 : Function.t) :
n < maxOperandsOf f0 ->
allOptionalsAreConstant nodes (omittedOf f0 n) = Some true ->
initializersCompiled nodes types (omittedOf f0 n) c0 inlined c1 ->
heap c1 !! instance = Some f1 ->
exists c',
  makeCallDirect instance operands c = Returned (callOf f1 (supplied ++ inlined)%list) c'.
Proof.
intros Hfew Hconst Hinline Hf1. apply Z.ltb_lt in Hfew.
apply makeCallDirect_inline_spec in Hinline.
rewrite makeCallDirect_begin. cbv zeta.
rewrite Hfew, Hconst. step.
rewrite (bind_returned _ _ _ _ _ Hinline). step.
get_function instance f1 ltac:(exact Hf1).
subst callOf. cbv beta.
destruct (FunctionOps.is_ f CommonFlags.MODULE_IMPORT); eexists; reflexivity.
Qed.

(** Otherwise, for a function that is not an import: zeroes, [~argc] and
  the trampoline. *)
Lemma makeCallDirect_trampoline_route (zeroes : list ExpressionRef)
  (trampoline : FunctionPtr) (c1 : Compiler) (t o : Function.t) :
n < maxOperandsOf f0 ->
allOptionalsAreConstant nodes (omittedOf f0 n) = Some false ->
FunctionOps.is_ f CommonFlags.MODULE_IMPORT = false ->
zeroesFor types (omittedOf f0 n) = Some zeroes ->
ensureTrampoline instance (recordNodes zeroes c0) = Returned trampoline c1 ->
heap c1 !! trampoline = Some t ->
FunctionOps.is_ t CommonFlags.COMPILED = true ->
heap c1 !! instance = Some o ->
exists c',
  makeCallDirect instance operands c
    = Returned
        (Block None
           [SetGlobal "~argc" (ConstI32 (numArgumentsOf f0 n));
            Call (Function.internalName t) (supplied ++ zeroes)%list
              (nativeReturnTypeOf f)]
           (nativeReturnTypeOf f)) c'.
Proof.
intros Hfew Hconst Himport Hzero Htramp Ht Hcompiled Ho. apply Z.ltb_lt in Hfew.
rewrite makeCallDirect_begin. cbv zeta.
rewrite Hfew, Hconst. step.
unfold bind at 1. rewrite makeCallDirect_zeroes_run, Hzero.
rewrite Himport. cbn [negb].
rewrite (bind_returned _ _ _ _ _ Htramp).
unfold compileFunction at 1.
rewrite bind_bind.
rewrite (bind_returned _ _ _ _ _ (getFunction_returned _ _ _ Ht)).
rewrite Hcompiled. step. cbn [negb].
rewrite (bind_returned _ _ _ _ _ (getFunction_returned _ _ _ Ho)).
rewrite (bind_returned _ _ _ _ _ (updateFunction_returned _ _ _ _ Ht)).
set (t' := Function.set_flow _ t).
assert (heap (set_heap (<[trampoline := t']> (heap c1)) c1) !! trampoline = Some t') as Ht'.
{ cbn [heap set_heap]. apply list_lookup_insert_eq. eapply lookup_lt_Some. exact Ht. }
rewrite (bind_returned _ _ _ _ _ (getFunction_returned _ _ _ Ht')).
repeat step.
match goal with |- context [bind ensureArgcVar _ ?s] =>
  destruct (ensureArgcVar_run s) as (c2 & Hargc & Hheap);
  rewrite (bind_returned _ _ _ _ _ Hargc)
end.
unfold createI32, createSetGlobal, createCall, createBlock. repeat step.
match goal with |- context [bind (getFunction trampoline) _ ?s] =>
  assert (heap s !! trampoline = Some t') as Ht2
    by (cbn [heap recordNode set_module]; rewrite Hheap; exact Ht');
  rewrite (bind_returned _ _ _ _ _ (getFunction_returned _ _ _ Ht2))
end.
repeat step.
eexists. reflexivity.
Qed.

(** C2, as the code has it.  With all operands supplied, [makeCallDirect]
  returns a call of the function itself (a [call_import] when it is a
  module import).  With fewer operands, when the initializer of every
  omitted parameter is a constant value, it compiles those initializers
  as the missing operands of a call of the function itself: after the
  operands supplied, one operand per omitted parameter, in the order of
  the parameters, each compiled from that parameter's initializer with
  the parameter's type, converted implicitly and not wrapped.  Otherwise,
  when the function is not a module import, it pads the operands with
  the native zeroes of the omitted parameters' types and returns a
  block, typed with the native return type, of two nodes: the [~argc]
  global set to the number of supplied arguments, and a call of the
  trampoline that [ensureTrampoline] returns for the function. *)
Theorem makeCallDirect_routing :
(maxOperandsOf f0 <= n ->
 exists c', makeCallDirect instance operands c = Returned (callOf f supplied) c') /\
(n < maxOperandsOf f0 ->
 allOptionalsAreConstant nodes (omittedOf f0 n) = Some true ->
 forall inlined c1 f1,
   initializersCompiled nodes types (omittedOf f0 n) c0 inlined c1 ->
   heap c1 !! instance = Some f1 ->
   exists c',
     makeCallDirect instance operands c
       = Returned (callOf f1 (supplied ++ inlined)%list) c') /\
(n < maxOperandsOf f0 ->
 allOptionalsAreConstant nodes (omittedOf f0 n) = Some false ->
 FunctionOps.is_ f CommonFlags.MODULE_IMPORT = false ->
 forall zeroes trampoline c1 t o,
   zeroesFor types (omittedOf f0 n) = Some zeroes ->
   ensureTrampoline instance (recordNodes zeroes c0) = Returned trampoline c1 ->
   heap c1 !! trampoline = Some t ->
   FunctionOps.is_ t CommonFlags.COMPILED = true ->
   heap c1 !! instance = Some o ->
   exists c',
     makeCallDirect instance operands c
       = Returned
           (Block None
              [SetGlobal "~argc" (ConstI32 (numArgumentsOf f0 n));
               Call (Function.internalName t) (supplied ++ zeroes)%list
                 (nativeReturnTypeOf f)]
              (nativeReturnTypeOf f)) c').
Proof.
split; [|split].
- exact makeCallDirect_all_operands.
- intros Hfew Hconst inlined c1 f1 Hinline Hf1.
  exact (makeCallDirect_constant_initializers inlined c1 f1 Hfew Hconst Hinline Hf1).
- intros Hfew Hconst Himport zeroes trampoline c1 t o Hzero Htramp Ht Hcompiled Ho.
  exact (makeCallDirect_trampoline_route zeroes trampoline c1 t o
           Hfew Hconst Himport Hzero Htramp Ht Hcompiled Ho).
Qed.

End DirectCalls.

(** ** Trampolines and the function table *)

Lemma Flags_is_lor_r (a b : Z) : Flags.is_ (Z.lor a b) b = true.
Proof.
unfold Flags.is_. apply Z.eqb_eq. apply Z.bits_inj'. intros n _.
rewrite Z.land_spec, Z.lor_spec.
destruct (Z.testbit a n), (Z.testbit b n); reflexivity.
Qed.

Lemma Flags_is_lor_l (a b flag : Z) :
Flags.is_ a flag = true -> Flags.is_ (Z.lor a b) flag = true.
Proof.
unfold Flags.is_. rewrite !Z.eqb_eq. intros H. apply Z.bits_inj'. intros n _.
apply (f_equal (fun z => Z.testbit z n)) in H.
rewrite Z.land_spec in *. rewrite Z.lor_spec.
destruct (Z.testbit a n), (Z.testbit b n), (Z.testbit flag n); simpl in *; congruence.
Qed.

Lemma stable_refl c : stable c c.
Proof. intros p g H. exists g. repeat split; auto. Qed.

Lemma stable_trans c1 c2 c3 : stable c1 c2 -> stable c2 c3 -> stable c1 c3.
Proof.
intros H12 H23 p g H.
destruct (H12 p g H) as (g2 & H2 & Hn2 & Hc2 & Ht2).
destruct (H23 p g2 H2) as (g3 & H3 & Hn3 & Hc3 & Ht3).
exists g3. repeat split; [assumption | congruence | auto | auto].
Qed.

Lemma stable_heap c c' : heap c' = heap c -> stable c c'.
Proof. intros Hh p g H. exists g. rewrite Hh. repeat split; auto. Qed.

(** An already indexed function keeps its index. *)
Lemma ensureFunctionTableEntry_indexed (p : FunctionPtr) (c : Compiler) (f : Function.t) :
heap c !! p = Some f ->
FunctionOps.is_ f CommonFlags.COMPILED = true ->
0 <= Function.functionTableIndex f ->
ensureFunctionTableEntry p c = Returned (Function.functionTableIndex f) c.
Proof.
intros Hf Hc Hi. unfold ensureFunctionTableEntry.
rewrite (bind_returned _ _ _ _ _ (getFunction_returned _ _ _ Hf)).
rewrite Hc. step. apply Z.leb_le in Hi. rewrite Hi. reflexivity.
Qed.

(** A function without optional parameters is entered once: the first call
  appends its name and records the index on it, the second call returns
  that index and appends nothing. *)
Lemma ensureFunctionTableEntry_plain (p : FunctionPtr) (c : Compiler) (f : Function.t) :
heap c !! p = Some f ->
FunctionOps.is_ f CommonFlags.COMPILED = true ->
Function.functionTableIndex f < 0 ->
hasOptionalParameters f = false ->
let index := Z.of_nat (length (functionTable c)) in
exists c1,
  ensureFunctionTableEntry p c = Returned index c1 /\
  functionTable c1 = (functionTable c ++ [Function.internalName f])%list /\
  ensureFunctionTableEntry p c1 = Returned index c1.
Proof.
intros Hf Hc Hi Hopt index. unfold hasOptionalParameters in Hopt.
unfold ensureFunctionTableEntry at 1.
rewrite (bind_returned _ _ _ _ _ (getFunction_returned _ _ _ Hf)).
rewrite Hc. step. apply Z.leb_gt in Hi. rewrite Hi. step.
rewrite Hopt. step.
rewrite (bind_returned _ _ _ _ _ (getFunction_returned _ _ _ Hf)). step.
assert (heap (set_functionTable (functionTable c ++ [Function.internalName f]) c) !! p
        = Some f) as Hf' by exact Hf.
rewrite (bind_returned _ _ _ _ _ (updateFunction_returned _ _ _ _ Hf')).
eexists. split; [reflexivity|]. split; [reflexivity|].
apply (ensureFunctionTableEntry_indexed p _ (Function.set_functionTableIndex index f)).
- cbn [heap set_heap]. apply list_lookup_insert_eq. eapply lookup_lt_Some. exact Hf.
- exact Hc.
- cbn. lia.
Qed.

(** A function that has its trampoline gets it back. *)
Lemma ensureTrampoline_existing (p : FunctionPtr) (c : Compiler) (f : Function.t)
  (t : FunctionPtr) :
heap c !! p = Some f -> Function.trampoline f = Some t ->
ensureTrampoline p c = Returned t c.
Proof.
intros Hf Ht. unfold ensureTrampoline.
rewrite (bind_returned _ _ _ _ _ (getFunction_returned _ _ _ Hf)).
rewrite Ht. reflexivity.
Qed.

(** The table entry of a function with optional parameters names its
  trampoline, and the index is recorded on the trampoline: the function
  itself is left as it was. *)
Lemma ensureFunctionTableEntry_optional (p : FunctionPtr) (c : Compiler) (f : Function.t)
  (t : FunctionPtr) (tr : Function.t) :
heap c !! p = Some f ->
FunctionOps.is_ f CommonFlags.COMPILED = true ->
Function.functionTableIndex f < 0 ->
hasOptionalParameters f = true ->
Function.trampoline f = Some t -> heap c !! t = Some tr -> t <> p ->
let index := Z.of_nat (length (functionTable c)) in
ensureFunctionTableEntry p c =
  Returned index
    (set_heap (<[t := Function.set_functionTableIndex index tr]> (heap c))
       (set_functionTable (functionTable c ++ [Function.internalName tr]) c)).
Proof.
intros Hf Hc Hi Hopt Htramp Ht Hne index. unfold hasOptionalParameters in Hopt.
unfold ensureFunctionTableEntry.
rewrite (bind_returned _ _ _ _ _ (getFunction_returned _ _ _ Hf)).
rewrite Hc. step. apply Z.leb_gt in Hi. rewrite Hi. step.
rewrite Hopt.
rewrite (bind_returned _ _ _ _ _ (ensureTrampoline_existing p c f t Hf Htramp)).
rewrite (bind_returned _ _ _ _ _ (getFunction_returned _ _ _ Ht)). step.
assert (heap (set_functionTable (functionTable c ++ [Function.internalName tr]) c) !! t
        = Some tr) as Ht' by exact Ht.
rewrite (bind_returned _ _ _ _ _ (updateFunction_returned _ _ _ _ Ht')).
reflexivity.
Qed.

(** So a second call for the same function does it all again: it returns
  the next index and appends the trampoline's name once more. *)
Lemma ensureFunctionTableEntry_optional_again (p : FunctionPtr) (c : Compiler)
  (f : Function.t) (t : FunctionPtr) (tr : Function.t) :
heap c !! p = Some f ->
FunctionOps.is_ f CommonFlags.COMPILED = true ->
Function.functionTableIndex f < 0 ->
hasOptionalParameters f = true ->
Function.trampoline f = Some t -> heap c !! t = Some tr -> t <> p ->
let index := Z.of_nat (length (functionTable c)) in
exists c1 c2,
  ensureFunctionTableEntry p c = Returned index c1 /\
  ensureFunctionTableEntry p c1 = Returned (index + 1) c2 /\
  functionTable c2
    = (functionTable c ++ [Function.internalName tr; Function.internalName tr])%list.
Proof.
intros Hf Hc Hi Hopt Htramp Ht Hne index.
eexists. eexists. split; [apply (ensureFunctionTableEntry_optional p c f t tr); assumption|].
set (c1 := set_heap _ _).
assert (heap c1 !! p = Some f) as Hf1.
{ subst c1. cbn [heap set_heap set_functionTable].
  rewrite list_lookup_insert_ne by exact Hne. exact Hf. }
assert (heap c1 !! t = Some (Function.set_functionTableIndex index tr)) as Ht1.
{ subst c1. cbn [heap set_heap set_functionTable].
  apply list_lookup_insert_eq. eapply lookup_lt_Some. exact Ht. }
rewrite (ensureFunctionTableEntry_optional p c1 f t _ Hf1 Hc Hi Hopt Htramp Ht1 Hne).
subst c1. cbn [functionTable set_heap set_functionTable].
rewrite length_app. cbn [length].
replace (Z.of_nat (length (functionTable c) + 1)) with (index + 1) by (subst index; lia).
split; [reflexivity|]. cbn. rewrite <- app_assoc. reflexivity.
Qed.

Lemma lookupZ_is_Some {A} (l : list A) (i : Z) :
0 <= i < Z.of_nat (length l) -> is_Some (lookupZ l i).
Proof.
intros [H0 Hlt]. unfold lookupZ.
destruct (Z.ltb_spec i 0) as [H|_]; [lia|].
apply lookup_lt_is_Some. lia.
Qed.

(** The loop that forwards the required arguments creates one node each. *)
Lemma forwardRequired_run (types : list Type_.t) (first : Z) (indices : list Z) :
Forall (fun i => is_Some (lookupZ types i)) indices ->
forall c,
  exists r,
    mapM (fun i =>
            type <- defined (lookupZ types i) ;;
            createGetLocal (first + i) (Type_.toNativeType type)) indices c
      = Returned r (recordNodes r c) /\
    length r = length indices.
Proof.
induction 1 as [|i indices [type Hi] _ IH]; intros c.
- exists []. split; reflexivity.
- cbn [mapM]. rewrite Hi. unfold createGetLocal. repeat step.
  destruct (IH (recordNode (GetLocal (first + i) (Type_.toNativeType type)) c))
    as (r & Hr & Hlen).
  rewrite (bind_returned _ _ _ _ _ Hr).
  exists (GetLocal (first + i) (Type_.toNativeType type) :: r).
  split; [reflexivity|]. cbn [length]. rewrite Hlen. reflexivity.
Qed.

Section Trampolines.

(** Compiling an expression returns, and leaves the function objects in
  place. *)
Hypothesis compileExpression_stable :
forall e t k w c, exists r c', compileExpression e t k w c = Returned r c' /\ stable c c'.

Lemma ensureTrampoline_optional_run (types : list Type_.t)
  (declarations : list ParameterNode.t) (names : list string)
  (minArguments firstOptional : Z) (acc : ExpressionRef * list ExpressionRef)
  (i : Z) (c : Compiler) :
is_Some (lookupZ types (minArguments + i)) ->
is_Some (lookupZ declarations (minArguments + i)) ->
exists r c',
  ensureTrampoline_optional types declarations names minArguments firstOptional acc i c
    = Returned r c' /\
  stable c c' /\
  length (snd r) = S (length (snd acc)).
Proof.
intros [type Ht] [declaration Hd]. unfold ensureTrampoline_optional.
rewrite Ht, Hd. repeat step.
destruct (ParameterNode.initializer declaration) as [initializer|].
- destruct (compileExpression_stable initializer type IMPLICIT WRAP c)
    as (e & c1 & Hrun & Hstable).
  repeat step. rewrite (bind_returned _ _ _ _ _ Hrun).
  unfold createSetLocal, createBlock, createGetLocal. repeat step.
  eexists. eexists. split; [reflexivity|]. split.
  + eapply stable_trans; [exact Hstable|]. apply stable_heap. reflexivity.
  + cbn [snd]. rewrite length_app. cbn [length]. lia.
- unfold error, createUnreachable, createBlock, createGetLocal. repeat step.
  eexists. eexists. split; [reflexivity|]. split.
  + apply stable_heap. reflexivity.
  + cbn [snd]. rewrite length_app. cbn [length]. lia.
Qed.

Lemma ensureTrampoline_optionals_run (types : list Type_.t)
  (declarations : list ParameterNode.t) (names : list string)
  (minArguments firstOptional : Z) (indices : list Z) :
Forall (fun i => is_Some (lookupZ types (minArguments + i)) /\
                 is_Some (lookupZ declarations (minArguments + i))) indices ->
forall acc c,
  exists r c',
    foldM (ensureTrampoline_optional types declarations names minArguments firstOptional)
      indices acc c = Returned r c' /\
    stable c c' /\
    length (snd r) = (length (snd acc) + length indices)%nat.
Proof.
induction 1 as [|i indices [Ht Hd] _ IH]; intros acc c.
- exists acc, c. split; [reflexivity|]. split; [apply stable_refl|]. cbn [length]. lia.
- cbn [foldM].
  destruct (ensureTrampoline_optional_run types declarations names minArguments
              firstOptional acc i c Ht Hd) as (r1 & c1 & Hrun1 & Hs1 & Hl1).
  rewrite (bind_returned _ _ _ _ _ Hrun1).
  destruct (IH r1 c1) as (r & c' & Hrun & Hs & Hl).
  exists r, c'. split; [exact Hrun|]. split; [eapply stable_trans; eassumption|].
  rewrite Hl, Hl1. cbn [length]. lia.
Qed.

(** A function without a trampoline gets a new one: a compiled function
  object named after it, to which it refers from then on. *)
Lemma ensureTrampoline_fresh (p : FunctionPtr) (c : Compiler) (o : Function.t) :
heap c !! p = Some o ->
Function.trampoline o = None ->
0 <= Signature.requiredParameters (Function.signature o)
  < Z.of_nat (length (Signature.parameterTypes (Function.signature o))) ->
length (FunctionPrototype.parameters (Function.prototype o))
  = length (Signature.parameterTypes (Function.signature o)) ->
let t := length (heap c) in
exists c' tr o',
  ensureTrampoline p c = Returned t c' /\
  heap c' !! t = Some tr /\
  Function.internalName tr = Function.internalName o +:+ "|trampoline" /\
  FunctionOps.is_ tr CommonFlags.COMPILED = true /\
  heap c' !! p = Some o' /\
  Function.trampoline o' = Some t /\
  Function.internalName o' = Function.internalName o /\
  stable c c'.
Proof.
intros Ho Hnone [Hmin Hmax] Hdecls t.
set (types := Signature.parameterTypes (Function.signature o)) in *.
set (minArguments := Signature.requiredParameters (Function.signature o)) in *.
assert (p < length (heap c))%nat as Hp by (eapply lookup_lt_Some; exact Ho).
unfold ensureTrampoline.
rewrite (bind_returned _ _ _ _ _ (getFunction_returned _ _ _ Ho)).
rewrite Hnone. cbv zeta.
fold types. fold minArguments.
set (isInstance := FunctionOps.is_ o CommonFlags.INSTANCE).
set (first := if isInstance then 1 else 0).
assert ((if isInstance then minArguments + 1 else minArguments) = first + minArguments)
  as -> by (subst first; destruct isInstance; lia).
assert ((if isInstance then Z.of_nat (length types) + 1 else Z.of_nat (length types))
        = first + Z.of_nat (length types))
  as -> by (subst first; destruct isInstance; lia).
assert (0 <= first <= 1) as Hfirst by (subst first; destruct isInstance; lia).
replace (first + Z.of_nat (length types) - (first + minArguments))
  with (Z.of_nat (length types) - minArguments) by lia.
set (numOptional := Z.of_nat (length types) - minArguments).
assert ((numOptional =? 0) = false) as -> by (apply Z.eqb_neq; subst numOptional; lia).
cbn [negb]. step.
assert ((0 <=? first + minArguments) = true) as -> by (apply Z.leb_le; lia).
step. step.
(* forward `this` *)
set (thisNodes := if isInstance
                  then [GetLocal 0 (Options.nativeSizeType (options c))] else []).
assert (forall (k : list ExpressionRef -> M FunctionPtr),
          bind (if isInstance
                then e <- createGetLocal 0 (Options.nativeSizeType (options c)) ;; ret [e]
                else ret []) k c
          = k thisNodes (recordNodes thisNodes c)) as Hthis.
{ intros k. subst thisNodes. destruct isInstance; reflexivity. }
rewrite Hthis. clear Hthis.
assert (Z.of_nat (length thisNodes) = first) as HthisLen
  by (subst thisNodes first; destruct isInstance; reflexivity).
(* forward required arguments *)
destruct (forwardRequired_run types first (seqZ 0 minArguments)
            ltac:(apply Forall_seqZ; intros i Hi; apply lookupZ_is_Some; lia)
            (recordNodes thisNodes c)) as (required & Hrequired & HrequiredLen).
rewrite (bind_returned _ _ _ _ _ Hrequired).
rewrite length_seqZ in HrequiredLen.
assert ((first + Z.of_nat (length required) =? first + minArguments) = true) as ->
  by (apply Z.eqb_eq; lia).
step.
set (c1 := recordNodes required (recordNodes thisNodes c)).
assert (heap c1 = heap c) as Hheap1.
{ subst c1. destruct (recordNodes_frame required (recordNodes thisNodes c)) as (-> & _).
  destruct (recordNodes_frame thisNodes c) as (-> & _). reflexivity. }
(* create the trampoline element *)
unfold newFunction. repeat step. rewrite Hheap1. fold t.
set (tr0 := Function.set_flags _ _).
set (c2 := set_heap (heap c ++ [tr0]) c1).
assert (heap c2 !! p = Some o) as Ho2.
{ subst c2. cbn [heap set_heap]. rewrite lookup_app_l by exact Hp. exact Ho. }
rewrite (bind_returned _ _ _ _ _ (updateFunction_returned _ _ _ _ Ho2)).
set (c3 := set_heap _ c2).
repeat step.
assert ((0 <=? numOptional + 1) = true) as -> by (apply Z.leb_le; subst numOptional; lia).
step.
(* the br_table *)
set (names := trampolineLabels numOptional).
set (conditionNodes :=
       if negb (minArguments =? 0)
       then [GetGlobal "~argc" NativeType.I32; ConstI32 minArguments;
             Binary SubI32 (GetGlobal "~argc" NativeType.I32) (ConstI32 minArguments)]
       else [GetGlobal "~argc" NativeType.I32]).
set (condition :=
       if negb (minArguments =? 0)
       then Binary SubI32 (GetGlobal "~argc" NativeType.I32) (ConstI32 minArguments)
       else GetGlobal "~argc" NativeType.I32).
match goal with |- context [bind _ ?k ?s] =>
  match k with
  | (fun condition => bind (createSwitch _ _ _) _) =>
      assert (forall k' : ExpressionRef -> M FunctionPtr,
                bind (if negb (minArguments =? 0)
                      then argc <- createGetGlobal "~argc" NativeType.I32 ;;
                           k0 <- createI32 minArguments ;;
                           createBinary SubI32 argc k0
                      else createGetGlobal "~argc" NativeType.I32) k' s
                = k' condition (recordNodes conditionNodes s)) as Hcond
        by (intros k'; subst condition conditionNodes;
            destruct (negb (minArguments =? 0)); reflexivity);
      rewrite Hcond; clear Hcond
  end
end.
unfold createSwitch, createBlock, createUnreachable. repeat step.
(* the optional parameters *)
match goal with |- context [bind (foldM _ ?idx ?acc) _ ?s] =>
  destruct (ensureTrampoline_optionals_run types
              (FunctionPrototype.parameters (Function.prototype o)) names
              minArguments (first + minArguments) idx
              ltac:(apply Forall_seqZ; intros i Hi;
                    split; apply lookupZ_is_Some; rewrite ?Hdecls; subst numOptional; lia)
              acc s) as (r & c4 & Hloop & Hstable4 & HloopLen);
  rewrite (bind_returned _ _ _ _ _ Hloop);
  set (c3' := s) in *
end.
cbn [snd] in HloopLen. rewrite length_app, length_seqZ in HloopLen.
step.
assert ((Z.of_nat (length (snd r)) =? first + Z.of_nat (length types)) = true) as ->
  by (apply Z.eqb_eq; subst numOptional; lia).
step.
(* the function type and the function *)
assert (heap c3' = heap c3) as Hheap3'.
{ subst c3'. cbn [heap recordNode set_module set_currentFunction].
  destruct (recordNodes_frame conditionNodes (set_currentFunction t c3)) as (-> & _).
  reflexivity. }
assert (heap c3 !! t = Some tr0) as Ht3.
{ subst c3 c2. cbn [heap set_heap].
  rewrite list_lookup_insert_ne by lia.
  rewrite lookup_app_r by (subst t; lia). subst t. rewrite Nat.sub_diag. reflexivity. }
assert (heap c3 !! p = Some (Function.set_trampoline (Some t) o)) as Hp3.
{ subst c3. cbn [heap set_heap]. apply list_lookup_insert_eq.
  subst c2. cbn [heap set_heap]. rewrite length_app. lia. }
destruct (Hstable4 t tr0 ltac:(rewrite Hheap3'; exact Ht3))
  as (tr4 & Ht4 & Hname4 & Hcompiled4 & _).
destruct (Hstable4 p _ ltac:(rewrite Hheap3'; exact Hp3))
  as (o4 & Hp4 & Hname4' & _ & Htramp4).
unfold ensureFunctionType, getFunctionTypeBySignature, addFunctionType, onModule.
repeat step.
match goal with |- context [if ?b then _ else _] => destruct b end.
all: repeat step.
all: get_function t tr4 ltac:(exact Ht4).
all: unfold createCall, createBlock, addFunction, onModule; repeat step.
all: match goal with |- context [bind (updateFunction ?u ?g) _ ?s] =>
       assert (heap s !! u = Some tr4) as Ht5 by exact Ht4;
       rewrite (bind_returned _ _ _ _ _ (updateFunction_returned _ g _ _ Ht5))
     end.
all: eexists; exists (Function.set_ref
                        (1 + Z.of_nat (length (functions (module c4)))) tr4), o4.
all: split; [reflexivity|].
all: cbn [heap set_heap set_module recordNode set_currentFunction].
all: split; [apply list_lookup_insert_eq; eapply lookup_lt_Some; exact Ht4|].
all: split; [cbn; rewrite Hname4; reflexivity|].
all: split; [apply Hcompiled4; subst tr0; apply Flags_is_lor_r|].
all: split; [rewrite list_lookup_insert_ne by lia; exact Hp4|].
all: split; [apply Htramp4; reflexivity|].
all: split; [rewrite Hname4'; reflexivity|].
all: intros q g Hq.
all: assert (q < length (heap c))%nat as Hqlt by (eapply lookup_lt_Some; exact Hq).
all: assert (exists g3, heap c3' !! q = Some g3 /\
               Function.internalName g3 = Function.internalName g /\
               FunctionOps.is_ g3 CommonFlags.COMPILED
                 = FunctionOps.is_ g CommonFlags.COMPILED /\
               (forall u, Function.trampoline g = Some u ->
                          Function.trampoline g3 = Some u)) as (g3 & Hg3 & Hn3 & Hc3 & Ht3').
1, 3: (rewrite Hheap3'; destruct (decide (q = p)) as [->|Hne];
       [ exists (Function.set_trampoline (Some t) o); split; [exact Hp3|];
         rewrite Ho in Hq; injection Hq as <-;
         repeat split; intros u Hu; rewrite Hnone in Hu; discriminate
       | exists g; split;
         [ subst c3 c2; cbn [heap set_heap];
           rewrite list_lookup_insert_ne by congruence;
           rewrite lookup_app_l by exact Hqlt; exact Hq
         | repeat split; auto ] ]).
all: destruct (Hstable4 q g3 Hg3) as (g4 & Hg4 & Hn4 & Hc4 & Ht4').
all: exists g4.
all: cbn [heap set_heap set_module recordNode set_currentFunction].
all: split; [rewrite list_lookup_insert_ne by lia; exact Hg4|].
all: split; [congruence|].
all: split; [intros Hc; apply Hc4; rewrite Hc3; exact Hc | auto].
Qed.

Lemma compileFunction_compiled (p : FunctionPtr) (c : Compiler) (f : Function.t) :
heap c !! p = Some f -> FunctionOps.is_ f CommonFlags.COMPILED = true ->
compileFunction p c = Returned true c.
Proof.
intros Hf Hc. unfold compileFunction.
rewrite (bind_returned _ _ _ _ _ (getFunction_returned _ _ _ Hf)). rewrite Hc. reflexivity.
Qed.

(** The third route of [makeCallDirect] for a compiled function that has
  no trampoline yet: the trampoline is made on the way, and the call
  goes to the function's name followed by [|trampoline]. *)
Lemma makeCallDirect_fresh_trampoline (instance : FunctionPtr)
  (operands : option (list ExpressionRef)) (c : Compiler) (f : Function.t)
  (zeroes : list ExpressionRef) :
heap c !! instance = Some f ->
FunctionOps.is_ f CommonFlags.COMPILED = true ->
FunctionOps.is_ f CommonFlags.MODULE_IMPORT = false ->
Function.trampoline f = None ->
0 <= Signature.requiredParameters (Function.signature f)
  < Z.of_nat (length (Signature.parameterTypes (Function.signature f))) ->
length (FunctionPrototype.parameters (Function.prototype f))
  = length (Signature.parameterTypes (Function.signature f)) ->
minOperandsOf f <= numOperandsOf operands < maxOperandsOf f ->
allOptionalsAreConstant (FunctionPrototype.parameters (Function.prototype f))
  (omittedOf f (numOperandsOf operands)) = Some false ->
zeroesFor (Signature.parameterTypes (Function.signature f))
  (omittedOf f (numOperandsOf operands)) = Some zeroes ->
exists c',
  makeCallDirect instance operands c
    = Returned
        (Block None
           [SetGlobal "~argc" (ConstI32 (numArgumentsOf f (numOperandsOf operands)));
            Call (Function.internalName f +:+ "|trampoline")
              (default [] operands ++ zeroes)%list (nativeReturnTypeOf f)]
           (nativeReturnTypeOf f)) c'.
Proof.
intros Hf Hcompiled Himport Hnone Hrange Hdecls [Hmin Hmax] Hconst Hzero.
destruct (recordNodes_frame zeroes c) as (Hheap & _).
destruct (ensureTrampoline_fresh instance (recordNodes zeroes c) f
            ltac:(rewrite Hheap; exact Hf) Hnone Hrange Hdecls)
  as (c1 & tr & o & Hrun & Htr & Hname & Hc & Ho & _).
destruct (makeCallDirect_trampoline_route instance operands c c f f Hf Hmin
            (compileFunction_compiled instance c f Hf Hcompiled) Hf
            zeroes _ c1 tr o Hmax Hconst Himport Hzero Hrun Htr Hc Ho) as (c' & Hc').
exists c'. rewrite Hc', Hname. reflexivity.
Qed.

End Trampolines.

(** ** The pool of function types *)

Lemma NativeType_eqb_eq a b : NativeType_eqb a b = true <-> a = b.
Proof. destruct a, b; simpl; split; congruence. Qed.

Lemma NativeTypes_eqb_eq a : forall b, NativeTypes_eqb a b = true <-> a = b.
Proof.
induction a as [|x a IH]; intros [|y b]; simpl; split; try congruence.
- intros H. apply andb_prop in H as [Hx Ha].
  apply NativeType_eqb_eq in Hx. apply IH in Ha. congruence.
- intros H. injection H as -> ->. apply andb_true_intro. split.
  + apply NativeType_eqb_eq. reflexivity.
  + apply IH. reflexivity.
Qed.

Lemma sameSignature_eq t result params :
NativeType_eqb (functionType_result t) result
  && NativeTypes_eqb (functionType_params t) params = true
<-> signatureOf t = (result, params).
Proof.
unfold signatureOf. rewrite andb_true_iff, NativeType_eqb_eq, NativeTypes_eqb_eq.
split; [intros [-> ->]; reflexivity | intros H; injection H as -> ->; split; reflexivity].
Qed.

(** The search gives the null reference when no function type has the
  signature, and the reference of the first that has it otherwise. *)
Lemma findFunctionType_spec result params types : forall start,
0 < start ->
(findFunctionType result params types start = 0 /\
 Forall (fun t => signatureOf t <> (result, params)) types) \/
(exists (i : nat) t,
   findFunctionType result params types start = start + Z.of_nat i /\
   types !! i = Some t /\ signatureOf t = (result, params)).
Proof.
induction types as [|t types IH]; intros start Hstart.
- left. split; [reflexivity | constructor].
- cbn [findFunctionType].
  destruct (NativeType_eqb (functionType_result t) result
            && NativeTypes_eqb (functionType_params t) params) eqn:E.
  + right. exists 0%nat, t. split; [lia|]. split; [reflexivity|].
    apply sameSignature_eq. exact E.
  + assert (signatureOf t <> (result, params)) as Hne.
    { intros H. apply sameSignature_eq in H. congruence. }
    destruct (IH (start + 1) ltac:(lia)) as [[H0 Hall] | (i & t' & Hi & Ht & Hs)].
    * left. split; [exact H0 | constructor; assumption].
    * right. exists (S i), t'. split; [lia|]. split; assumption.
Qed.

Lemma findFunctionType_app result params l1 : forall l2 start,
0 < start ->
findFunctionType result params (l1 ++ l2) start =
  if findFunctionType result params l1 start =? 0
  then findFunctionType result params l2 (start + Z.of_nat (length l1))
  else findFunctionType result params l1 start.
Proof.
induction l1 as [|t l1 IH]; intros l2 start Hstart.
- cbn. rewrite Z.add_0_r. reflexivity.
- cbn [findFunctionType app].
  destruct (NativeType_eqb (functionType_result t) result
            && NativeTypes_eqb (functionType_params t) params).
  + destruct (Z.eqb_spec start 0); [lia | reflexivity].
  + rewrite IH by lia. cbn [length].
    replace (start + 1 + Z.of_nat (length l1)) with (start + Z.of_nat (S (length l1))) by lia.
    reflexivity.
Qed.

Lemma ensureFunctionType_run parameterTypes returnType thisType c :
let sig := nativeSignature parameterTypes returnType thisType in
let found := findFunctionType (fst sig) (snd sig) (functionTypes (module c)) 1 in
ensureFunctionType parameterTypes returnType thisType c =
  if found =? 0
  then Returned (1 + Z.of_nat (length (functionTypes (module c))))
         (set_module
            (Module_set_functionTypes
               (functionTypes (module c)
                  ++ [{| functionType_name :=
                           Signature.makeSignatureString (default [] parameterTypes)
                             returnType thisType;
                         functionType_result := fst sig;
                         functionType_params := snd sig |}])
               (module c)) c)
  else Returned found c.
Proof.
intros sig found. unfold ensureFunctionType, getFunctionTypeBySignature.
step. fold (nativeSignature parameterTypes returnType thisType).
change (findFunctionType _ _ _ 1) with found.
destruct (found =? 0); reflexivity.
Qed.

(** X1.  [ensureFunctionType] keeps the pool of function types free of
  duplicates: when no two function types of the module have the same
  result and parameters, the call returns a reference to a function type
  with the native result and parameters asked for ([this] first), the
  pool is still free of duplicates afterwards, it has grown by at most one
  entry, and every reference handed out before still points to the same
  function type. *)
Theorem ensureFunctionType_pool (parameterTypes : option (list Type_.t))
  (returnType : Type_.t) (thisType : option Type_.t) (c : Compiler) :
NoDup (map signatureOf (functionTypes (module c))) ->
exists ref c',
  ensureFunctionType parameterTypes returnType thisType c = Returned ref c' /\
  signatureOf <$> functionTypeAt c' ref
    = Some (nativeSignature parameterTypes returnType thisType) /\
  NoDup (map signatureOf (functionTypes (module c'))) /\
  (length (functionTypes (module c')) <= S (length (functionTypes (module c))))%nat /\
  (forall r t, functionTypeAt c r = Some t -> functionTypeAt c' r = Some t).
Proof.
intros Hnodup. rewrite ensureFunctionType_run. cbv zeta.
set (sig := nativeSignature parameterTypes returnType thisType). clearbody sig.
set (types := functionTypes (module c)) in *.
destruct (findFunctionType_spec (fst sig) (snd sig) types 1 ltac:(lia))
  as [[H0 Hall] | (i & t & Hi & Ht & Hs)].
- rewrite H0. cbn [Z.eqb].
  eexists. eexists. split; [reflexivity|].
  unfold functionTypeAt. cbn [module set_module functionTypes Module_set_functionTypes].
  split; [|split; [|split]].
  + destruct (Z.leb_spec (1 + Z.of_nat (length types)) 0) as [H|_]; [lia|].
    replace (Z.to_nat (1 + Z.of_nat (length types) - 1)) with (length types) by lia.
    rewrite lookup_app_r by lia. rewrite Nat.sub_diag. cbn.
    unfold signatureOf. cbn. rewrite <- surjective_pairing. reflexivity.
  + rewrite map_app. apply NoDup_app. split; [exact Hnodup|]. split.
    * intros s Hin Hin'. cbn in Hin'. apply list_elem_of_singleton in Hin'. subst s.
      apply list_elem_of_In, in_map_iff in Hin as (t & Ht & Hin).
      rewrite Forall_forall in Hall. apply (Hall t).
      -- apply list_elem_of_In. exact Hin.
      -- exact Ht.
    * cbn. apply NoDup_singleton.
  + rewrite length_app. cbn. lia.
  + intros r t. destruct (r <=? 0); [discriminate|].
    intros H. rewrite lookup_app_l by (eapply lookup_lt_Some; exact H). exact H.
- rewrite Hi. destruct (Z.eqb_spec (1 + Z.of_nat i) 0) as [H|_]; [lia|].
  exists (1 + Z.of_nat i), c. split; [reflexivity|].
  split; [|split; [exact Hnodup|split; [apply Nat.le_succ_diag_r|auto]]].
  unfold functionTypeAt.
  destruct (Z.leb_spec (1 + Z.of_nat i) 0) as [H|_]; [lia|].
  replace (Z.to_nat (1 + Z.of_nat i - 1)) with i by lia.
  fold types. rewrite Ht. cbn. rewrite Hs, <- surjective_pairing. reflexivity.
Qed.

(** X2.  Signatures that have the same native result and parameters share
  one function type: after [ensureFunctionType] has returned a reference
  for one signature, a call for any signature with the same native types
  (say [(i8) => bool] after [(u32) => i32]) returns the same reference
  and leaves the module as it is. *)
Theorem ensureFunctionType_shared (parameterTypes parameterTypes' : option (list Type_.t))
  (returnType returnType' : Type_.t) (thisType thisType' : option Type_.t) (c : Compiler) :
nativeSignature parameterTypes' returnType' thisType'
  = nativeSignature parameterTypes returnType thisType ->
exists ref c',
  ensureFunctionType parameterTypes returnType thisType c = Returned ref c' /\
  ensureFunctionType parameterTypes' returnType' thisType' c' = Returned ref c'.
Proof.
intros Hsame. rewrite ensureFunctionType_run. cbv zeta.
set (types := functionTypes (module c)).
destruct (findFunctionType_spec
            (fst (nativeSignature parameterTypes returnType thisType))
            (snd (nativeSignature parameterTypes returnType thisType)) types 1 ltac:(lia))
  as [[H0 Hall] | (i & t & Hi & Ht & Hs)].
- rewrite H0. cbn [Z.eqb].
  eexists. eexists. split; [reflexivity|].
  rewrite ensureFunctionType_run. cbv zeta. rewrite Hsame.
  set (sig := nativeSignature parameterTypes returnType thisType) in *. clearbody sig.
  cbn [module set_module functionTypes Module_set_functionTypes]. fold types.
  rewrite findFunctionType_app by lia. rewrite H0. cbn [Z.eqb].
  cbn [findFunctionType functionType_result functionType_params].
  assert (NativeType_eqb (fst sig) (fst sig) && NativeTypes_eqb (snd sig) (snd sig) = true)
    as ->.
  { apply andb_true_intro. split;
      [apply NativeType_eqb_eq | apply NativeTypes_eqb_eq]; reflexivity. }
  destruct (Z.eqb_spec (1 + Z.of_nat (length types)) 0) as [H|_]; [lia|]. reflexivity.
- rewrite Hi. destruct (Z.eqb_spec (1 + Z.of_nat i) 0) as [H|_]; [lia|].
  exists (1 + Z.of_nat i), c. split; [reflexivity|].
  rewrite ensureFunctionType_run. cbv zeta. rewrite Hsame.
  fold types. rewrite Hi.
  destruct (Z.eqb_spec (1 + Z.of_nat i) 0) as [H|_]; [lia|]. reflexivity.
Qed.

(** ** The argument count helpers *)

(** The reference that [ensureFunctionType] returns points to a function
  type with the signature asked for, and the call changes nothing but
  the function types. *)
Lemma ensureFunctionType_ref parameterTypes returnType thisType c :
exists ref c',
  ensureFunctionType parameterTypes returnType thisType c = Returned ref c' /\
  signatureOf <$> functionTypeAt c' ref
    = Some (nativeSignature parameterTypes returnType thisType) /\
  c' = set_module (Module_set_functionTypes (functionTypes (module c')) (module c)) c.
Proof.
rewrite ensureFunctionType_run. cbv zeta.
set (sig := nativeSignature parameterTypes returnType thisType). clearbody sig.
set (types := functionTypes (module c)).
destruct (findFunctionType_spec (fst sig) (snd sig) types 1 ltac:(lia))
  as [[H0 Hall] | (i & t & Hi & Ht & Hs)].
- rewrite H0. cbn [Z.eqb].
  eexists. eexists. split; [reflexivity|]. split; [|reflexivity].
  unfold functionTypeAt. cbn [module set_module functionTypes Module_set_functionTypes].
  destruct (Z.leb_spec (1 + Z.of_nat (length types)) 0) as [H|_]; [lia|].
  replace (Z.to_nat (1 + Z.of_nat (length types) - 1)) with (length types) by lia.
  rewrite lookup_app_r by lia. rewrite Nat.sub_diag. cbn.
  unfold signatureOf. cbn. rewrite <- surjective_pairing. reflexivity.
- rewrite Hi. destruct (Z.eqb_spec (1 + Z.of_nat i) 0) as [H|_]; [lia|].
  exists (1 + Z.of_nat i), c. split; [reflexivity|]. split.
  + unfold functionTypeAt.
    destruct (Z.leb_spec (1 + Z.of_nat i) 0) as [H|_]; [lia|].
    replace (Z.to_nat (1 + Z.of_nat i - 1)) with i by lia.
    fold types. rewrite Ht. cbn. rewrite Hs, <- surjective_pairing. reflexivity.
  + destruct c as [? ? []]. reflexivity.
Qed.

(** X3.  The [~argc] global is made once: the first [ensureArgcVar] adds a
  mutable [i32] global [~argc], initialized with 0, and remembers it; any
  call after that returns the name and leaves the compiler and the module
  as they are. *)
Theorem ensureArgcVar_once (c : Compiler) :
exists c1,
  ensureArgcVar c = Returned "~argc" c1 /\
  globals (module c1)
    = (globals (module c) ++ if argcVar c =? 0 then [argcGlobal] else [])%list /\
  argcVar c1 <> 0 /\
  ensureArgcVar c1 = Returned "~argc" c1.
Proof.
unfold ensureArgcVar at 1. step.
destruct (argcVar c =? 0) eqn:E.
- unfold createI32, addGlobal, onModule. repeat step.
  eexists. split; [reflexivity|]. split; [reflexivity|].
  cbn [argcVar set_argcVar]. split; [lia|].
  unfold ensureArgcVar. step. cbn [argcVar set_argcVar].
  match goal with |- context [?a =? 0] => destruct (Z.eqb_spec a 0) as [H|_]; [lia|] end.
  reflexivity.
- repeat step. exists c. split; [reflexivity|]. split; [rewrite app_nil_r; reflexivity|].
  apply Z.eqb_neq in E. split; [exact E|].
  unfold ensureArgcVar. step. apply Z.eqb_neq in E. rewrite E. reflexivity.
Qed.

(** What [ensureArgcSet] does when the helper is missing, and when it is
  there. *)
Lemma ensureArgcSet_run (c : Compiler) :
exists c1,
  ensureArgcSet c = Returned "~setargc" c1 /\
  (if argcSet c =? 0 then
     exists typeRef,
       functions (module c1) = (functions (module c) ++ [setargcFunction typeRef])%list /\
       signatureOf <$> functionTypeAt c1 typeRef = Some (NativeType.None, [NativeType.I32]) /\
       functionExports (module c1)
         = (functionExports (module c) ++ [("~setargc", "_setargc")])%list /\
       globals (module c1)
         = (globals (module c) ++ if argcVar c =? 0 then [argcGlobal] else [])%list /\
       argcVar c1 <> 0
   else c1 = c) /\
  argcSet c1 <> 0 /\
  ensureArgcSet c1 = Returned "~setargc" c1 /\
  heap c1 = heap c.
Proof.
unfold ensureArgcSet at 1. step.
destruct (argcSet c =? 0) eqn:E.
- destruct (ensureFunctionType_ref (Some [Type_.u32]) Type_.void None c)
    as (typeRef & c0 & Hrun & Hat & Hc0).
  repeat step. rewrite (bind_returned _ _ _ _ _ Hrun).
  destruct (ensureArgcVar_run c0) as (c2 & Hargc & _).
  assert (exists c2,
            ensureArgcVar c0 = Returned "~argc" c2 /\
            globals (module c2)
              = (globals (module c0) ++ if argcVar c0 =? 0 then [argcGlobal] else [])%list /\
            argcVar c2 <> 0 /\
            c2 = set_argcVar (argcVar c2)
                   (set_module (Module_set_created (created (module c2))
                                  (Module_set_globals (globals (module c2)) (module c0))) c0))
    as (c3 & Hargc3 & Hglobals & Hvar & Hc3).
  { clear. unfold ensureArgcVar. step.
    destruct (argcVar c0 =? 0) eqn:E.
    - unfold createI32, addGlobal, onModule. repeat step.
      eexists. split; [reflexivity|]. split; [reflexivity|].
      cbn [argcVar set_argcVar]. split; [lia|]. reflexivity.
    - repeat step. exists c0. split; [reflexivity|].
      split; [rewrite app_nil_r; reflexivity|].
      apply Z.eqb_neq in E. split; [exact E|].
      destruct c0 as [? ? []]. reflexivity. }
  clear c2 Hargc.
  repeat step. rewrite (bind_returned _ _ _ _ _ Hargc3).
  unfold createGetLocal, createSetGlobal, addFunction, addFunctionExport, onModule.
  repeat step.
  eexists. split; [reflexivity|].
  cbn [argcSet set_argcSet set_module module functions functionExports globals argcVar
       Module_set_functionExports Module_set_functions recordNode Module_set_created
       functionTypes].
  assert (functions (module c3) = functions (module c)) as Hf.
  { rewrite Hc3, Hc0. reflexivity. }
  assert (functionExports (module c3) = functionExports (module c)) as He.
  { rewrite Hc3, Hc0. reflexivity. }
  assert (functionTypes (module c3) = functionTypes (module c0)) as Ht.
  { rewrite Hc3. reflexivity. }
  assert (globals (module c0) = globals (module c)) as Hg0 by (rewrite Hc0; reflexivity).
  assert (argcVar c0 = argcVar c) as Hv0 by (rewrite Hc0; reflexivity).
  assert (heap c3 = heap c) as Hh by (rewrite Hc3, Hc0; reflexivity).
  split; [|split; [|split; [|exact Hh]]].
  + exists typeRef. rewrite Hf, He, Hglobals, Hg0, Hv0.
    split; [reflexivity|]. split; [|split; [reflexivity|split; [reflexivity|exact Hvar]]].
    unfold functionTypeAt in *.
    cbn [module set_module functionTypes Module_set_functionExports Module_set_functions
         Module_set_created].
    rewrite Ht. exact Hat.
  + lia.
  + unfold ensureArgcSet. step. cbn [argcSet set_argcSet set_module recordNode].
    match goal with |- context [?a =? 0] => destruct (Z.eqb_spec a 0) as [H|_]; [lia|] end.
    reflexivity.
- repeat step. exists c. split; [reflexivity|]. split; [reflexivity|].
  apply Z.eqb_neq in E. split; [exact E|]. split; [|reflexivity].
  unfold ensureArgcSet. step. apply Z.eqb_neq in E. rewrite E. reflexivity.
Qed.

(** X4.  The [~setargc] helper is made once.  The first [ensureArgcSet]
  adds the function [~setargc], of a function type that takes one [i32]
  and returns nothing, whose body sets the [~argc] global to its first
  local; it makes sure the [~argc] global exists and exports the function
  as [_setargc].  Any call after that changes nothing. *)
Theorem ensureArgcSet_once (c : Compiler) :
exists c1,
  ensureArgcSet c = Returned "~setargc" c1 /\
  (if argcSet c =? 0 then
     exists typeRef,
       functions (module c1) = (functions (module c) ++ [setargcFunction typeRef])%list /\
       signatureOf <$> functionTypeAt c1 typeRef = Some (NativeType.None, [NativeType.I32]) /\
       functionExports (module c1)
         = (functionExports (module c) ++ [("~setargc", "_setargc")])%list /\
       globals (module c1)
         = (globals (module c) ++ if argcVar c =? 0 then [argcGlobal] else [])%list /\
       argcVar c1 <> 0
   else c1 = c) /\
  argcSet c1 <> 0 /\
  ensureArgcSet c1 = Returned "~setargc" c1.
Proof.
destruct (ensureArgcSet_run c) as (c1 & Hrun & Hmade & Hset & Hagain & _).
exists c1. split; [exact Hrun|]. split; [exact Hmade|]. split; [exact Hset | exact Hagain].
Qed.

(** ** The function table, for functions without optional parameters *)

(** X5.  For a compiled function that has no table entry yet and no
  optional parameters (or is a trampoline), [ensureFunctionTableEntry]
  appends the function's name to the table and returns the index of that
  slot; the entries that were there stay, and a second call returns the
  same index and changes nothing. *)
Theorem ensureFunctionTableEntry_stable_index (p : FunctionPtr) (c : Compiler)
  (f : Function.t) :
heap c !! p = Some f ->
FunctionOps.is_ f CommonFlags.COMPILED = true ->
Function.functionTableIndex f < 0 ->
hasOptionalParameters f = false ->
exists index c1,
  ensureFunctionTableEntry p c = Returned index c1 /\
  lookupZ (functionTable c1) index = Some (Function.internalName f) /\
  functionTable c1 = (functionTable c ++ [Function.internalName f])%list /\
  ensureFunctionTableEntry p c1 = Returned index c1.
Proof.
intros Hf Hc Hi Hopt.
destruct (ensureFunctionTableEntry_plain p c f Hf Hc Hi Hopt) as (c1 & Hrun & Htable & Hagain).
exists (Z.of_nat (length (functionTable c))), c1.
split; [exact Hrun|]. split; [|split; [exact Htable | exact Hagain]].
rewrite Htable. unfold lookupZ.
destruct (Z.ltb_spec (Z.of_nat (length (functionTable c))) 0) as [H|_]; [lia|].
rewrite Nat2Z.id. rewrite lookup_app_r by lia. rewrite Nat.sub_diag. reflexivity.
Qed.

(** ** Conversions between value types *)

Lemma TypeKind_eqb_neq (a b : TypeKind.t) : a <> b -> TypeKind.eqb a b = false.
Proof. destruct a, b; intros H; try reflexivity; exfalso; apply H; reflexivity. Qed.

(** Wrapping creates nodes and changes nothing else that the conversion
  looks at. *)
Lemma ensureSmallIntegerWrap_frame (expr : ExpressionRef) (type : Type_.t) (c : Compiler)
  (f : Function.t) :
heap c !! currentFunction c = Some f ->
exists r c',
  ensureSmallIntegerWrap expr type c = Returned r c' /\
  currentType c' = currentType c /\
  diagnostics c' = diagnostics c /\
  heap c' = heap c /\
  currentFunction c' = currentFunction c.
Proof.
intros Hf. unfold ensureSmallIntegerWrap. step.
rewrite (bind_returned _ _ _ _ _ (getFunction_returned _ _ _ Hf)).
destruct (Type_.kind type);
  try (destruct (Flow_canOverflow c (Function.flow f) expr type));
  try (destruct (Options.hasFeature (options c) Feature.SIGN_EXTENSION));
  eexists; eexists; (split; [reflexivity|]); repeat split; reflexivity.
Qed.

(** X6.  Converting an expression to the type it has is the identity: for
  a type other than [void], without a request to wrap, [convertExpression]
  returns the expression it was given and creates no node; the current
  type is the target type afterwards. *)
Theorem convertExpression_same_type (expr : ExpressionRef) (type : Type_.t)
  (conversionKind : ConversionKind) (reportNode : Expression) (c : Compiler) :
conversionKind <> ConversionKind_NONE ->
Type_.kind type <> TypeKind.VOID ->
exists c',
  convertExpression expr type type conversionKind WrapMode_NONE reportNode c
    = Returned expr c' /\
  created (module c') = created (module c) /\
  currentType c' = type.
Proof.
intros Hkind Hvoid. unfold convertExpression. cbv zeta.
rewrite (TypeKind_eqb_neq _ _ Hvoid).
assert (negb (isNone conversionKind) = true) as -> by (destruct conversionKind; [congruence | reflexivity | reflexivity]).
step. unfold error.
destruct (negb (Type_isAssignableTo type type) && isImplicit conversionKind);
  repeat step;
  (destruct (Type_.is_ type TypeFlags.FLOAT) eqn:Efloat;
   [ destruct (TypeKind.eqb (Type_.kind type) TypeKind.F32) eqn:Ef32;
     [ assert (TypeKind.eqb (Type_.kind type) TypeKind.F64 = false) as ->
         by (destruct (Type_.kind type); try discriminate; reflexivity)
     | ]
   | rewrite andb_false_r;
     destruct (Type_.is_ type TypeFlags.LONG) eqn:Elong; cbn [negb];
     [ | rewrite Z.ltb_irrefl, andb_false_r ] ]);
  repeat step; cbn [snd fst isWrap];
  (eexists; split; [reflexivity|]; split; reflexivity).
Qed.

(** X7.  Between two types other than [void] (the target a float or an
  integer type when the source is a float), inside a function,
  [convertExpression] returns an expression and leaves the target type as
  the current type.  It reports exactly one diagnostic, "Conversion from
  type 0 to 1 requires an explicit cast", when the conversion is implicit
  and the source type is not assignable to the target type, and none
  otherwise: an explicit conversion never reports. *)
Theorem convertExpression_reports (expr : ExpressionRef) (fromType toType : Type_.t)
  (conversionKind : ConversionKind) (wrapMode : WrapMode) (reportNode : Expression)
  (c : Compiler) (f : Function.t) :
heap c !! currentFunction c = Some f ->
conversionKind <> ConversionKind_NONE ->
Type_.kind fromType <> TypeKind.VOID ->
Type_.kind toType <> TypeKind.VOID ->
(Type_.is_ fromType TypeFlags.FLOAT = true ->
 Type_.is_ toType TypeFlags.FLOAT || Type_.is_ toType TypeFlags.INTEGER = true) ->
exists r c',
  convertExpression expr fromType toType conversionKind wrapMode reportNode c
    = Returned r c' /\
  currentType c' = toType /\
  diagnostics c' =
    (diagnostics c
       ++ if negb (Type_isAssignableTo fromType toType) && isImplicit conversionKind
          then [requiresExplicitCast fromType toType reportNode] else [])%list.
Proof.
intros Hf Hkind Hfrom Hto Hnumeric. unfold convertExpression. cbv zeta.
rewrite (TypeKind_eqb_neq _ _ Hfrom), (TypeKind_eqb_neq _ _ Hto).
assert (negb (isNone conversionKind) = true) as ->
  by (destruct conversionKind; [congruence | reflexivity | reflexivity]).
step. unfold error. fold (requiresExplicitCast fromType toType reportNode).
set (report := negb (Type_isAssignableTo fromType toType) && isImplicit conversionKind).
set (c0 := if report
           then set_diagnostics
                  (diagnostics c ++ [requiresExplicitCast fromType toType reportNode]) c
           else c).
assert (heap c0 !! currentFunction c0 = Some f) as Hf0
  by (subst c0; destruct report; exact Hf).
assert (diagnostics c0
        = (diagnostics c
             ++ if report then [requiresExplicitCast fromType toType reportNode] else [])%list)
  as Hd0 by (subst c0; destruct report; [reflexivity | rewrite app_nil_r; reflexivity]).
match goal with |- context [bind (if report then ?m else _) ?k c] =>
  assert (bind (if report then m else ret tt) k c = k tt c0) as ->
    by (subst c0; destruct report; reflexivity)
end.
cbv beta. rewrite <- Hd0. clearbody c0. clear Hd0 report Hf c.
unfold_create.
(* the conversion proper *)
assert (forall (r : ExpressionRef) (w : WrapMode) (c1 : Compiler),
          heap c1 !! currentFunction c1 = Some f ->
          diagnostics c1 = diagnostics c0 ->
          exists r' c',
            (modify (set_currentType toType) ;;
             if isWrap (snd (r, w)) then ensureSmallIntegerWrap (fst (r, w)) toType
             else ret (fst (r, w))) c1 = Returned r' c' /\
            currentType c' = toType /\ diagnostics c' = diagnostics c0) as Hend.
{ intros r w c1 Hf1 Hd1. step. cbn [fst snd].
  destruct w; cbn [isWrap].
  - eexists. eexists. split; [reflexivity|]. split; [reflexivity | exact Hd1].
  - destruct (ensureSmallIntegerWrap_frame r toType (set_currentType toType c1) f Hf1)
      as (r' & c' & Hrun & Ht & Hd & _).
    exists r', c'. split; [exact Hrun|]. split; [exact Ht | rewrite Hd; exact Hd1]. }
destruct (Type_.is_ fromType TypeFlags.FLOAT) eqn:Efloat.
- specialize (Hnumeric eq_refl).
  destruct (Type_.is_ toType TypeFlags.FLOAT) eqn:Etofloat.
  + destruct (TypeKind.eqb (Type_.kind fromType) TypeKind.F32);
      [destruct (TypeKind.eqb (Type_.kind toType) TypeKind.F64)
      |destruct (TypeKind.eqb (Type_.kind toType) TypeKind.F32)];
      repeat step; apply Hend; solve [exact Hf0 | reflexivity].
  + cbn [orb] in Hnumeric. rewrite Hnumeric.
    repeat step. apply Hend; solve [exact Hf0 | reflexivity].
- destruct (Type_.is_ fromType TypeFlags.INTEGER && Type_.is_ toType TypeFlags.FLOAT).
  { repeat step. apply Hend; solve [exact Hf0 | reflexivity]. }
  destruct (Type_.is_ fromType TypeFlags.LONG).
  { destruct (negb (Type_.is_ toType TypeFlags.LONG));
      repeat step; apply Hend; solve [exact Hf0 | reflexivity]. }
  destruct (Type_.is_ toType TypeFlags.LONG).
  { destruct (ensureSmallIntegerWrap_frame expr fromType c0 f Hf0)
      as (r1 & c1 & Hrun & _ & Hd & Hh & Hcf).
    repeat step. rewrite (bind_returned _ _ _ _ _ Hrun). repeat step.
    apply Hend; [cbn; rewrite Hh, Hcf; exact Hf0 | cbn; exact Hd]. }
  destruct (Type_.is_ fromType TypeFlags.SHORT && (Type_.size fromType <? Type_.size toType)).
  { destruct (ensureSmallIntegerWrap_frame expr fromType c0 f Hf0)
      as (r1 & c1 & Hrun & _ & Hd & Hh & Hcf).
    repeat step. rewrite (bind_returned _ _ _ _ _ Hrun). repeat step.
    apply Hend; [rewrite Hh, Hcf; exact Hf0 | exact Hd]. }
  repeat step. apply Hend; solve [exact Hf0 | reflexivity].
Qed.

(** ** The layout of static memory *)

Lemma i64_new_small x : 0 <= x < 2 ^ 32 -> i64_new x 0 = x.
Proof.
intros H. unfold i64_new. rewrite Z.mod_0_l by lia.
rewrite Z.mod_small by lia. rewrite Z.mul_0_r, Z.add_0_r. apply wrap64_id. lia.
Qed.

Lemma inOrder_bound segments : forall start,
inOrder start segments ->
Forall (fun s => start <= offset s /\ start <= segmentEnd s) segments.
Proof.
induction segments as [|s segments IH]; intros start H; [constructor|].
destruct H as [Hs Hrest]. specialize (IH _ Hrest).
assert (offset s <= segmentEnd s) by (unfold segmentEnd; lia).
constructor; [lia|].
eapply Forall_impl; [exact IH|]. cbv beta. intros x [? ?]. lia.
Qed.

Lemma inOrder_pairwise segments : forall start (i j : nat) si sj,
inOrder start segments ->
(i < j)%nat -> segments !! i = Some si -> segments !! j = Some sj ->
segmentEnd si <= offset sj.
Proof.
induction segments as [|s segments IH]; intros start i j si sj H Hij Hi Hj; [discriminate|].
destruct H as [Hs Hrest].
destruct j as [|j]; [lia|]. cbn in Hj.
destruct i as [|i].
- cbn in Hi. injection Hi as <-.
  pose proof (inOrder_bound _ _ Hrest) as Hb. rewrite Forall_forall in Hb.
  destruct (Hb sj) as [H _]; [eapply list_elem_of_lookup_2; exact Hj | exact H].
- cbn in Hi. apply (IH (segmentEnd s) i j si sj Hrest); [lia | assumption | assumption].
Qed.

(** A sequence of [addMemorySegment] calls lays the segments out one after
  the other. *)
Lemma addMemorySegments_layout (requests : list (Buffer.Uint8Array * Z)) : forall c,
forallb wellFormedRequest requests = true ->
0 <= memoryOffset c ->
memoryOffset c + requested requests < 2 ^ 63 ->
exists segments c',
  addMemorySegments requests c = Returned segments c' /\
  memorySegments c' = (memorySegments c ++ segments)%list /\
  Forall2 (fun r s => buffer s = fst r /\ (snd r | offset s)) requests segments /\
  inOrder (memoryOffset c) segments /\
  memoryOffset c <= memoryOffset c' /\
  Forall (fun s => segmentEnd s <= memoryOffset c') segments.
Proof.
induction requests as [|[buf al] reqs IH]; intros c Hwf H0 Hlt.
- exists [], c. cbn. rewrite app_nil_r. repeat split; try constructor; lia.
- simpl in Hwf. apply andb_prop in Hwf as [Hr Hrs].
  unfold wellFormedRequest in Hr. simpl in Hr. apply andb_prop in Hr as [Hp Hlen].
  apply Z.ltb_lt in Hlen.
  pose proof (requested_nonneg _ Hrs) as Hnn.
  unfold requested in Hlt, Hnn. simpl in Hlt. fold (requested reqs) in Hlt, Hnn.
  pose proof (addMemorySegment_step c buf al Hp Hlen H0 ltac:(lia)) as Hstep.
  cbv zeta in Hstep.
  destruct (isPowerOfTwo_spec _ Hp) as (k & Hk & Hal).
  assert (0 < al) by (subst al; apply Z.pow_pos_nonneg; lia).
  pose proof (align_up_bounds (memoryOffset c) al ltac:(lia)) as Hb.
  set (s := MemorySegment_create buf (align_up (memoryOffset c) al)) in *.
  set (c1 := set_memoryOffset _ _) in Hstep.
  destruct (IH c1 Hrs) as (segs & c' & Hrun & Hsegs & Hall & Hord & Hmono & Hend).
  { subst c1. simpl. lia. }
  { subst c1. simpl. lia. }
  exists (s :: segs), c'.
  assert (memoryOffset c1 = segmentEnd s) as Hc1 by reflexivity.
  split; [|split; [|split; [|split; [|split]]]].
  + unfold addMemorySegments in *. cbn [mapM fst snd].
    rewrite (bind_returned _ _ _ _ _ Hstep).
    rewrite (bind_returned _ _ _ _ _ Hrun). reflexivity.
  + rewrite Hsegs. subst c1. simpl. rewrite <- app_assoc. reflexivity.
  + constructor; [|exact Hall]. split; [reflexivity|]. cbn. apply align_up_divide.
  + split; [subst s; cbn; lia|]. rewrite <- Hc1. exact Hord.
  + rewrite Hc1 in Hmono. unfold segmentEnd in Hmono. subst s. cbn in Hmono. lia.
  + constructor; [rewrite <- Hc1; exact Hmono | exact Hend].
Qed.

(** X8.  Static memory starts at [max(memoryBase, 8)], so that no segment
  covers the address of [null]: in a compiler made by the constructor,
  the segments added by any sequence of [addMemorySegment] calls hold the
  requested buffers, each starts at a multiple of its alignment at or
  after that start, no segment reaches into a later one, and all of them
  end before the memory offset. *)
Theorem addMemorySegments_disjoint (program : Program.t) (options : Options.t)
  (requests : list (Buffer.Uint8Array * Z)) :
- 2 ^ 31 <= Options.memoryBase options < 2 ^ 31 ->
forallb wellFormedRequest requests = true ->
Z.max (Options.memoryBase options) 8 + requested requests < 2 ^ 63 ->
exists segments c',
  addMemorySegments requests (Compiler_new program options) = Returned segments c' /\
  memorySegments c' = segments /\
  Forall2 (fun r s => buffer s = fst r /\ (snd r | offset s)) requests segments /\
  Forall (fun s => Z.max (Options.memoryBase options) 8 <= offset s) segments /\
  (forall (i j : nat) si sj,
     (i < j)%nat -> segments !! i = Some si -> segments !! j = Some sj ->
     segmentEnd si <= offset sj) /\
  Forall (fun s => segmentEnd s <= memoryOffset c') segments.
Proof.
intros Hbase Hwf Hlt.
assert (memoryOffset (Compiler_new program options) = Z.max (Options.memoryBase options) 8)
  as Hstart.
{ cbn [memoryOffset Compiler_new]. apply i64_new_small. lia. }
destruct (addMemorySegments_layout requests (Compiler_new program options) Hwf)
  as (segments & c' & Hrun & Hsegs & Hall & Hord & _ & Hend).
{ rewrite Hstart. lia. }
{ rewrite Hstart. exact Hlt. }
rewrite Hstart in Hord.
exists segments, c'. split; [exact Hrun|]. split; [exact Hsegs|]. split; [exact Hall|].
split; [|split; [|exact Hend]].
- eapply Forall_impl; [apply (inOrder_bound _ _ Hord)|]. cbv beta. intros s [? _]. assumption.
- intros i j si sj. apply (inOrder_pairwise _ _ i j si sj Hord).
Qed.

(** What sealing static memory does. *)
Lemma compile_memory_run (c : Compiler) :
0 <= memoryOffset c < 2 ^ 46 ->
let base := align_up (memoryOffset c) (Type_.byteSize (Options.usizeType (options c))) in
exists c',
  compile_memory c = Returned tt c' /\
  memoryOffset c' = base /\
  memorySegments c' = memorySegments c /\
  globals (module c') = (globals (module c) ++ [heapBase (options c) base])%list /\
  memory (module c') =
    Some {| memory_initial := match memorySegments c with
                              | [] => 0
                              | _ :: _ => ceilDiv base 65536
                              end;
            memory_maximum := 65535;
            memory_segments := memorySegments c;
            memory_target := Options.target (options c);
            memory_exportName := "memory" |}.
Proof.
intros Hm base.
assert (exists k, 0 <= k <= 3 /\
          Type_.byteSize (Options.usizeType (options c)) = 2 ^ k) as (k & Hk & Hbs).
{ unfold Options.usizeType. destruct (Options.isWasm64 (options c));
    [exists 3 | exists 2]; split; try lia; reflexivity. }
assert (0 < 2 ^ k <= 8) as Hpk.
{ split; [apply Z.pow_pos_nonneg; lia|].
  change 8 with (2 ^ 3). apply Z.pow_le_mono_r; lia. }
pose proof (align_up_bounds (memoryOffset c) (2 ^ k) ltac:(lia)) as Hb.
assert (i64_align (memoryOffset c) (Type_.byteSize (Options.usizeType (options c)))
        = base) as Hal.
{ subst base. rewrite Hbs. apply i64_align_pow2; lia. }
assert (0 <= base <= 2 ^ 47 - 2 ^ 16) as Hbase by (subst base; rewrite Hbs; lia).
clearbody base.
unfold compile_memory, bind, gets, modify, ret. simpl.
rewrite Hal. unfold heapBase, pointerTo, Options.nativeSizeType.
destruct (Options.isWasm64 (options c)); simpl;
  (eexists; split; [reflexivity|]; split; [reflexivity|]; split; [reflexivity|];
   split; [reflexivity|]);
  (destruct (memorySegments c); simpl; [reflexivity|]);
  rewrite initial_pages_value by lia; reflexivity.
Qed.

(** X9.  Sealing static memory defines one more global, [HEAP_BASE]: an
  immutable global of the pointer type of the target, whose value is the
  memory offset rounded up to the pointer size.  It lies at or after the
  end of every static segment, given that the segments end before the
  memory offset (as they do when [addMemorySegment] has placed them). *)
Theorem compile_memory_heap_base (c : Compiler) :
0 <= memoryOffset c < 2 ^ 46 ->
Forall (fun s => segmentEnd s <= memoryOffset c) (memorySegments c) ->
exists base c',
  compile_memory c = Returned tt c' /\
  globals (module c') = (globals (module c) ++ [heapBase (options c) base])%list /\
  base = memoryOffset c' /\
  (Type_.byteSize (Options.usizeType (options c)) | base) /\
  memoryOffset c <= base < memoryOffset c + Type_.byteSize (Options.usizeType (options c)) /\
  Forall (fun s => segmentEnd s <= base) (memorySegments c').
Proof.
intros Hm Hsegs.
destruct (compile_memory_run c Hm) as (c' & Hrun & Hoff & Hms & Hglobals & _).
cbv zeta in *.
set (size := Type_.byteSize (Options.usizeType (options c))) in *.
assert (0 < size) as Hsize.
{ subst size. unfold Options.usizeType. destruct (Options.isWasm64 (options c)); reflexivity. }
pose proof (align_up_bounds (memoryOffset c) size Hsize) as Hb.
exists (align_up (memoryOffset c) size), c'.
split; [exact Hrun|]. split; [exact Hglobals|]. split; [symmetry; exact Hoff|].
split; [apply align_up_divide|]. split; [lia|].
rewrite Hms. eapply Forall_impl; [exact Hsegs|]. cbv beta. intros s Hs. lia.
Qed.

(** X10.  The initial memory holds all static data: after sealing, the
  memory of the module is exported as [memory], carries the compiler's
  segments, and every segment ends within the initial pages of 64 KiB
  each; the initial size does not exceed the maximum of 65535 pages. *)
Theorem compile_memory_covers_segments (c : Compiler) :
0 <= memoryOffset c <= 65535 * 65536 - 8 ->
Forall (fun s => segmentEnd s <= memoryOffset c) (memorySegments c) ->
exists c' m,
  compile_memory c = Returned tt c' /\
  memory (module c') = Some m /\
  memory_exportName m = "memory" /\
  memory_segments m = memorySegments c /\
  Forall (fun s => segmentEnd s <= memory_initial m * 65536) (memory_segments m) /\
  0 <= memory_initial m <= memory_maximum m.
Proof.
intros Hm Hsegs.
destruct (compile_memory_run c ltac:(lia)) as (c' & Hrun & _ & _ & _ & Hmem).
cbv zeta in *.
set (size := Type_.byteSize (Options.usizeType (options c))) in *.
assert (0 < size <= 8) as Hsize.
{ subst size. unfold Options.usizeType.
  destruct (Options.isWasm64 (options c)); split; reflexivity || discriminate. }
pose proof (align_up_bounds (memoryOffset c) size ltac:(lia)) as Hb.
set (base := align_up (memoryOffset c) size) in *.
assert (base <= ceilDiv base 65536 * 65536 < base + 65536) as Hpages.
{ pose proof (align_up_bounds base 65536 ltac:(lia)) as H.
  unfold align_up, ceilDiv in *. lia. }
eexists. eexists. split; [exact Hrun|]. split; [exact Hmem|].
cbn [memory_exportName memory_segments memory_initial memory_maximum].
split; [reflexivity|]. split; [reflexivity|].
destruct (memorySegments c) as [|s0 segments] eqn:E.
- split; [constructor | lia].
- split.
  + eapply Forall_impl; [exact Hsegs|]. cbv beta. intros s Hs. lia.
  + lia.
Qed.

(** ** What a trampoline forwards *)

Lemma forwarded_imap (types : list Type_.t) (first : Z) :
map (forwarded types first) (seqZ 0 (Z.of_nat (length types)))
= imap (fun j type => GetLocal (first + Z.of_nat j) (Type_.toNativeType type)) types.
Proof.
apply list_eq. intros i.
rewrite list_lookup_fmap, list_lookup_imap.
destruct (types !! i) as [type|] eqn:E.
- assert (i < length types)%nat as Hi by (eapply lookup_lt_Some; exact E).
  rewrite lookup_seqZ_lt by lia. cbn. unfold forwarded, lookupZ.
  destruct (Z.ltb_spec (0 + Z.of_nat i) 0) as [H|_]; [lia|].
  replace (Z.to_nat (0 + Z.of_nat i)) with i by lia. rewrite E. reflexivity.
- assert (length types <= i)%nat as Hi by (apply lookup_ge_None; exact E).
  rewrite lookup_seqZ_ge by lia. reflexivity.
Qed.

(** The loop over the required parameters forwards each of them. *)
Lemma forwardRequired_nodes (types : list Type_.t) (first : Z) (indices : list Z) :
Forall (fun i => is_Some (lookupZ types i)) indices ->
forall c,
  mapM (fun i =>
          type <- defined (lookupZ types i) ;;
          createGetLocal (first + i) (Type_.toNativeType type)) indices c
    = Returned (map (forwarded types first) indices)
        (recordNodes (map (forwarded types first) indices) c).
Proof.
induction 1 as [|i indices [type Hi] _ IH]; intros c.
- reflexivity.
- cbn [mapM]. rewrite Hi. unfold createGetLocal. repeat step.
  rewrite (bind_returned _ _ _ _ _ (IH _)).
  cbn [map].
  assert (forwarded types first i = GetLocal (first + i) (Type_.toNativeType type)) as ->
    by (unfold forwarded; rewrite Hi; reflexivity).
  reflexivity.
Qed.

Section Forwarding.

(** Compiling an expression returns, and leaves the function objects in
  place. *)
Hypothesis compileExpression_stable :
forall e t k w c, exists r c', compileExpression e t k w c = Returned r c' /\ stable c c'.

Lemma ensureTrampoline_optional_nodes (types : list Type_.t)
  (declarations : list ParameterNode.t) (names : list string)
  (minArguments first : Z) (acc : ExpressionRef * list ExpressionRef)
  (i : Z) (c : Compiler) :
is_Some (lookupZ types (minArguments + i)) ->
is_Some (lookupZ declarations (minArguments + i)) ->
exists r c',
  ensureTrampoline_optional types declarations names minArguments
    (first + minArguments) acc i c = Returned r c' /\
  stable c c' /\
  snd r = (snd acc ++ [forwarded types first (minArguments + i)])%list.
Proof.
intros [type Ht] [declaration Hd]. unfold ensureTrampoline_optional.
rewrite Ht, Hd. repeat step.
assert (GetLocal (first + minArguments + i) (Type_.toNativeType type)
        = forwarded types first (minArguments + i)) as Hforwarded.
{ unfold forwarded. rewrite Ht. cbn. f_equal. lia. }
destruct (ParameterNode.initializer declaration) as [initializer|].
- destruct (compileExpression_stable initializer type IMPLICIT WRAP c)
    as (e & c1 & Hrun & Hstable).
  repeat step. rewrite (bind_returned _ _ _ _ _ Hrun).
  unfold createSetLocal, createBlock, createGetLocal. repeat step.
  eexists. eexists. split; [reflexivity|]. split.
  + eapply stable_trans; [exact Hstable|]. apply stable_heap. reflexivity.
  + cbn [snd]. rewrite Hforwarded. reflexivity.
- unfold error, createUnreachable, createBlock, createGetLocal. repeat step.
  eexists. eexists. split; [reflexivity|]. split.
  + apply stable_heap. reflexivity.
  + cbn [snd]. rewrite Hforwarded. reflexivity.
Qed.

Lemma ensureTrampoline_optionals_nodes (types : list Type_.t)
  (declarations : list ParameterNode.t) (names : list string)
  (minArguments first : Z) (indices : list Z) :
Forall (fun i => is_Some (lookupZ types (minArguments + i)) /\
                 is_Some (lookupZ declarations (minArguments + i))) indices ->
forall acc c,
  exists r c',
    foldM (ensureTrampoline_optional types declarations names minArguments
             (first + minArguments)) indices acc c = Returned r c' /\
    stable c c' /\
    snd r = (snd acc
               ++ map (fun i => forwarded types first (minArguments + i)) indices)%list.
Proof.
induction 1 as [|i indices [Ht Hd] _ IH]; intros acc c.
- exists acc, c. split; [reflexivity|]. split; [apply stable_refl|].
  cbn. rewrite app_nil_r. reflexivity.
- cbn [foldM].
  destruct (ensureTrampoline_optional_nodes types declarations names minArguments
              first acc i c Ht Hd) as (r1 & c1 & Hrun1 & Hs1 & Hl1).
  rewrite (bind_returned _ _ _ _ _ Hrun1).
  destruct (IH r1 c1) as (r & c' & Hrun & Hs & Hl).
  exists r, c'. split; [exact Hrun|]. split; [eapply stable_trans; eassumption|].
  rewrite Hl, Hl1. cbn [map]. rewrite <- app_assoc. reflexivity.
Qed.


Lemma forwarded_all (types : list Type_.t) (first minArguments : Z) :
0 <= minArguments <= Z.of_nat (length types) ->
(map (forwarded types first) (seqZ 0 minArguments)
   ++ map (fun i => forwarded types first (minArguments + i))
        (seqZ 0 (Z.of_nat (length types) - minArguments)))%list
= imap (fun j type => GetLocal (first + Z.of_nat j) (Type_.toNativeType type)) types.
Proof.
intros Hmin. rewrite <- forwarded_imap.
replace (Z.of_nat (length types))
  with (minArguments + (Z.of_nat (length types) - minArguments)) at 2 by lia.
rewrite seqZ_app by lia. rewrite map_app. f_equal.
rewrite Z.add_0_l.
replace (seqZ minArguments (Z.of_nat (length types) - minArguments))
  with (Z.add minArguments <$> seqZ 0 (Z.of_nat (length types) - minArguments))
  by (rewrite fmap_add_seqZ, Z.add_0_r; reflexivity).
exact (list_fmap_compose (Z.add minArguments) (forwarded types first) _).
Qed.

(** A function without a trampoline gets one: a compiled function object
  named after it, and an IR function that ends in a call of the
  original with all operands. *)
Lemma ensureTrampoline_made (p : FunctionPtr) (c : Compiler) (o : Function.t) :
heap c !! p = Some o ->
Function.trampoline o = None ->
0 <= Signature.requiredParameters (Function.signature o)
  < Z.of_nat (length (Signature.parameterTypes (Function.signature o))) ->
length (FunctionPrototype.parameters (Function.prototype o))
  = length (Signature.parameterTypes (Function.signature o)) ->
let t := length (heap c) in
exists c' tr o' fs typeRef locals body,
  ensureTrampoline p c = Returned t c' /\
  heap c' !! t = Some tr /\
  Function.internalName tr = Function.internalName o +:+ "|trampoline" /\
  FunctionOps.is_ tr CommonFlags.COMPILED = true /\
  heap c' !! p = Some o' /\
  Function.trampoline o' = Some t /\
  currentFunction c' = currentFunction c /\
  functions (module c') =
    (fs ++ [{| function_name := Function.internalName o +:+ "|trampoline";
               function_type := typeRef;
               function_locals := locals;
               function_body :=
                 Block None
                   [body;
                    Call (Function.internalName o)
                      (trampolineOperands o (Options.nativeSizeType (options c)))
                      (nativeReturnTypeOf o)]
                   (nativeReturnTypeOf o) |}])%list.
Proof.
intros Ho Hnone [Hmin Hmax] Hdecls t.
unfold trampolineOperands, nativeReturnTypeOf. cbv zeta.
set (types := Signature.parameterTypes (Function.signature o)) in *.
set (minArguments := Signature.requiredParameters (Function.signature o)) in *.
assert (p < length (heap c))%nat as Hp by (eapply lookup_lt_Some; exact Ho).
unfold ensureTrampoline.
rewrite (bind_returned _ _ _ _ _ (getFunction_returned _ _ _ Ho)).
rewrite Hnone. cbv zeta.
fold types. fold minArguments.
set (isInstance := FunctionOps.is_ o CommonFlags.INSTANCE).
set (first := if isInstance then 1 else 0).
assert ((if isInstance then minArguments + 1 else minArguments) = first + minArguments)
  as -> by (subst first; destruct isInstance; lia).
assert ((if isInstance then Z.of_nat (length types) + 1 else Z.of_nat (length types))
        = first + Z.of_nat (length types))
  as -> by (subst first; destruct isInstance; lia).
assert (0 <= first <= 1) as Hfirst by (subst first; destruct isInstance; lia).
replace (first + Z.of_nat (length types) - (first + minArguments))
  with (Z.of_nat (length types) - minArguments) by lia.
set (numOptional := Z.of_nat (length types) - minArguments).
assert ((numOptional =? 0) = false) as -> by (apply Z.eqb_neq; subst numOptional; lia).
cbn [negb]. step.
assert ((0 <=? first + minArguments) = true) as -> by (apply Z.leb_le; lia).
step. step.
(* forward `this` *)
set (thisNodes := if isInstance
                  then [GetLocal 0 (Options.nativeSizeType (options c))] else []).
assert (forall (k : list ExpressionRef -> M FunctionPtr),
          bind (if isInstance
                then e <- createGetLocal 0 (Options.nativeSizeType (options c)) ;; ret [e]
                else ret []) k c
          = k thisNodes (recordNodes thisNodes c)) as Hthis.
{ intros k. subst thisNodes. destruct isInstance; reflexivity. }
rewrite Hthis. clear Hthis.
assert (Z.of_nat (length thisNodes) = first) as HthisLen
  by (subst thisNodes first; destruct isInstance; reflexivity).
(* forward required arguments *)
rewrite (bind_returned _ _ _ _ _
           (forwardRequired_nodes types first (seqZ 0 minArguments)
              ltac:(apply Forall_seqZ; intros i Hi; apply lookupZ_is_Some; lia)
              (recordNodes thisNodes c))).
set (required := map (forwarded types first) (seqZ 0 minArguments)).
assert (length required = Z.to_nat minArguments) as HrequiredLen
  by (subst required; rewrite length_map, length_seqZ; reflexivity).
assert ((first + Z.of_nat (length required) =? first + minArguments) = true) as ->
  by (apply Z.eqb_eq; lia).
step.
set (c1 := recordNodes required (recordNodes thisNodes c)).
assert (heap c1 = heap c /\ currentFunction c1 = currentFunction c) as [Hheap1 Hcurrent1].
{ subst c1.
  destruct (recordNodes_frame required (recordNodes thisNodes c))
    as (-> & _ & _ & _ & _ & _ & -> & _).
  destruct (recordNodes_frame thisNodes c) as (-> & _ & _ & _ & _ & _ & -> & _).
  split; reflexivity. }
(* create the trampoline element *)
unfold newFunction. repeat step. rewrite Hheap1. fold t.
set (tr0 := Function.set_flags _ _).
set (c2 := set_heap (heap c ++ [tr0]) c1).
assert (heap c2 !! p = Some o) as Ho2.
{ subst c2. cbn [heap set_heap]. rewrite lookup_app_l by exact Hp. exact Ho. }
rewrite (bind_returned _ _ _ _ _ (updateFunction_returned _ _ _ _ Ho2)).
set (c3 := set_heap _ c2).
repeat step.
assert ((0 <=? numOptional + 1) = true) as -> by (apply Z.leb_le; subst numOptional; lia).
step.
assert (currentFunction c3 = currentFunction c) as Hcurrent3 by exact Hcurrent1.
rewrite Hcurrent3.
(* the br_table *)
set (names := trampolineLabels numOptional).
set (conditionNodes :=
       if negb (minArguments =? 0)
       then [GetGlobal "~argc" NativeType.I32; ConstI32 minArguments;
             Binary SubI32 (GetGlobal "~argc" NativeType.I32) (ConstI32 minArguments)]
       else [GetGlobal "~argc" NativeType.I32]).
set (condition :=
       if negb (minArguments =? 0)
       then Binary SubI32 (GetGlobal "~argc" NativeType.I32) (ConstI32 minArguments)
       else GetGlobal "~argc" NativeType.I32).
match goal with |- context [bind _ ?k ?s] =>
  match k with
  | (fun condition => bind (createSwitch _ _ _) _) =>
      assert (forall k' : ExpressionRef -> M FunctionPtr,
                bind (if negb (minArguments =? 0)
                      then argc <- createGetGlobal "~argc" NativeType.I32 ;;
                           k0 <- createI32 minArguments ;;
                           createBinary SubI32 argc k0
                      else createGetGlobal "~argc" NativeType.I32) k' s
                = k' condition (recordNodes conditionNodes s)) as Hcond
        by (intros k'; subst condition conditionNodes;
            destruct (negb (minArguments =? 0)); reflexivity);
      rewrite Hcond; clear Hcond
  end
end.
unfold createSwitch, createBlock, createUnreachable. repeat step.
(* the optional parameters *)
match goal with |- context [bind (foldM _ ?idx ?acc) _ ?s] =>
  destruct (ensureTrampoline_optionals_nodes types
              (FunctionPrototype.parameters (Function.prototype o)) names
              minArguments first idx
              ltac:(apply Forall_seqZ; intros i Hi;
                    split; apply lookupZ_is_Some; rewrite ?Hdecls; subst numOptional; lia)
              acc s) as (r & c4 & Hloop & Hstable4 & Hnodes);
  rewrite (bind_returned _ _ _ _ _ Hloop);
  set (c3' := s) in *
end.
cbn [snd] in Hnodes.
assert (snd r
        = (thisNodes
             ++ imap (fun j type =>
                        GetLocal (first + Z.of_nat j) (Type_.toNativeType type)) types)%list)
  as Hoperands.
{ rewrite Hnodes, <- app_assoc. f_equal. subst required numOptional.
  apply forwarded_all. lia. }
step.
assert ((Z.of_nat (length (snd r)) =? first + Z.of_nat (length types)) = true) as ->.
{ apply Z.eqb_eq. rewrite Hoperands, length_app, length_imap. lia. }
step.
(* the function type and the function *)
assert (heap c3' = heap c3) as Hheap3'.
{ subst c3'. cbn [heap recordNode set_module set_currentFunction].
  destruct (recordNodes_frame conditionNodes (set_currentFunction t c3)) as (-> & _).
  reflexivity. }
assert (heap c3 !! t = Some tr0) as Ht3.
{ subst c3 c2. cbn [heap set_heap].
  rewrite list_lookup_insert_ne by lia.
  rewrite lookup_app_r by (subst t; lia). subst t. rewrite Nat.sub_diag. reflexivity. }
assert (heap c3 !! p = Some (Function.set_trampoline (Some t) o)) as Hp3.
{ subst c3. cbn [heap set_heap]. apply list_lookup_insert_eq.
  subst c2. cbn [heap set_heap]. rewrite length_app. lia. }
destruct (Hstable4 t tr0 ltac:(rewrite Hheap3'; exact Ht3))
  as (tr4 & Ht4 & Hname4 & Hcompiled4 & _).
destruct (Hstable4 p _ ltac:(rewrite Hheap3'; exact Hp3))
  as (o4 & Hp4 & Hname4' & _ & Htramp4).
rewrite Hoperands.
destruct (ensureFunctionType_ref
            (Some (Signature.parameterTypes
                     (Signature.set_requiredParameters (Z.of_nat (length types))
                        (Signature.create types
                           (Signature.returnType (Function.signature o))
                           (Signature.thisType (Function.signature o))))))
            (Signature.returnType
               (Signature.set_requiredParameters (Z.of_nat (length types))
                  (Signature.create types
                     (Signature.returnType (Function.signature o))
                     (Signature.thisType (Function.signature o)))))
            (Signature.thisType
               (Signature.set_requiredParameters (Z.of_nat (length types))
                  (Signature.create types
                     (Signature.returnType (Function.signature o))
                     (Signature.thisType (Function.signature o)))))
            (set_currentFunction (currentFunction c) c4))
  as (typeRef & c5 & Htype & _ & Hc5).
rewrite (bind_returned _ _ _ _ _ Htype).
assert (heap c5 = heap c4) as Hheap5 by (rewrite Hc5; reflexivity).
assert (currentFunction c5 = currentFunction c) as Hcurrent5 by (rewrite Hc5; reflexivity).
get_function t tr4 ltac:(rewrite Hheap5; exact Ht4).
unfold createCall, createBlock, addFunction, onModule. repeat step.
match goal with |- context [bind (updateFunction ?u ?g) _ ?s] =>
  assert (heap s !! u = Some tr4) as Ht5
    by (cbn [heap recordNode set_module]; rewrite Hheap5; exact Ht4);
  rewrite (bind_returned _ _ _ _ _ (updateFunction_returned _ g _ _ Ht5))
end.
eexists. exists (Function.set_ref (1 + Z.of_nat (length (functions (module c5)))) tr4), o4.
eexists. eexists. eexists. eexists.
split; [reflexivity|].
cbn [heap set_heap set_module recordNode set_currentFunction currentFunction module
     functions Module_set_functions Module_set_created].
rewrite Hheap5.
split; [apply list_lookup_insert_eq; eapply lookup_lt_Some; exact Ht4|].
split; [cbn; rewrite Hname4; reflexivity|].
split; [apply Hcompiled4; subst tr0; apply Flags_is_lor_r|].
split; [rewrite list_lookup_insert_ne by lia; exact Hp4|].
split; [apply Htramp4; reflexivity|].
split; [exact Hcurrent5|].
reflexivity.
Qed.

(** X11.  A function gets one trampoline.  For a function with optional
  parameters that has none yet, [ensureTrampoline] makes a function
  object named after the function, followed by [|trampoline], and marked
  as compiled; a second call returns that same trampoline and changes
  nothing, so that no second trampoline is compiled. *)
Theorem ensureTrampoline_once (p : FunctionPtr) (c : Compiler) (o : Function.t) :
heap c !! p = Some o ->
Function.trampoline o = None ->
0 <= Signature.requiredParameters (Function.signature o)
  < Z.of_nat (length (Signature.parameterTypes (Function.signature o))) ->
length (FunctionPrototype.parameters (Function.prototype o))
  = length (Signature.parameterTypes (Function.signature o)) ->
exists t c' tr,
  ensureTrampoline p c = Returned t c' /\
  heap c' !! t = Some tr /\
  Function.internalName tr = Function.internalName o +:+ "|trampoline" /\
  FunctionOps.is_ tr CommonFlags.COMPILED = true /\
  ensureTrampoline p c' = Returned t c'.
Proof.
intros Ho Hnone Hrange Hdecls.
destruct (ensureTrampoline_made p c o Ho Hnone Hrange Hdecls)
  as (c' & tr & o' & _ & _ & _ & _ & Hrun & Htr & Hname & Hcompiled & Ho' & Htramp & _).
exists (length (heap c)), c', tr.
split; [exact Hrun|]. split; [exact Htr|]. split; [exact Hname|]. split; [exact Hcompiled|].
exact (ensureTrampoline_existing p c' o' _ Ho' Htramp).
Qed.

(** X12.  A trampoline passes every operand on.  The IR function that
  [ensureTrampoline] adds for a function is named after it, followed by
  [|trampoline], and its body ends in a call of the original function in
  which operand [i] is local [i] of the trampoline, read with the native
  type of the parameter ([this], of the pointer type, first); the call
  has as many operands as the function has parameters, [this] included.
  The function that was current before is current again afterwards. *)
Theorem ensureTrampoline_forwards (p : FunctionPtr) (c : Compiler) (o : Function.t) :
heap c !! p = Some o ->
Function.trampoline o = None ->
0 <= Signature.requiredParameters (Function.signature o)
  < Z.of_nat (length (Signature.parameterTypes (Function.signature o))) ->
length (FunctionPrototype.parameters (Function.prototype o))
  = length (Signature.parameterTypes (Function.signature o)) ->
let operands := trampolineOperands o (Options.nativeSizeType (options c)) in
exists t c' fs def body,
  ensureTrampoline p c = Returned t c' /\
  functions (module c') = (fs ++ [def])%list /\
  function_name def = Function.internalName o +:+ "|trampoline" /\
  function_body def =
    Block None [body; Call (Function.internalName o) operands (nativeReturnTypeOf o)]
      (nativeReturnTypeOf o) /\
  Z.of_nat (length operands) = maxOperandsOf o /\
  currentFunction c' = currentFunction c.
Proof.
intros Ho Hnone Hrange Hdecls operands.
destruct (ensureTrampoline_made p c o Ho Hnone Hrange Hdecls)
  as (c' & tr & o' & fs & typeRef & locals & body & Hrun & _ & _ & _ & _ & _ & Hcurrent
      & Hfunctions).
eexists. exists c', fs. eexists. exists body.
split; [exact Hrun|]. split; [exact Hfunctions|].
cbn [function_name function_body].
split; [reflexivity|]. split; [reflexivity|]. split; [|exact Hcurrent].
subst operands. unfold trampolineOperands, maxOperandsOf, maxArgumentsOf. cbv zeta.
rewrite length_app, length_imap.
destruct (FunctionOps.is_ o CommonFlags.INSTANCE); cbn [length]; lia.
Qed.

(** X13.  Exporting a function.  A function without optional parameters
  is exported under the given name (after the prefix) when it is
  compiled, and not at all otherwise; nothing else changes.  A function
  with optional parameters is exported through its trampoline, whether
  the trampoline is made now or exists already (a trampoline that
  exists being, as [ensureTrampoline] has made it, a compiled function
  object named after the function, followed by [|trampoline]): the
  export that is added last names the trampoline, and the [~setargc]
  helper exists afterwards.  With a trampoline that exists, no function
  object is made. *)
Theorem makeModuleExport_function_exports (name prefix : string) (p : FunctionPtr)
  (c : Compiler) (f : Function.t) :
heap c !! p = Some f ->
(forall t, Function.trampoline f = Some t ->
   exists tr,
     heap c !! t = Some tr /\
     Function.internalName tr = Function.internalName f +:+ "|trampoline" /\
     FunctionOps.is_ tr CommonFlags.COMPILED = true) ->
0 <= Signature.requiredParameters (Function.signature f) ->
length (FunctionPrototype.parameters (Function.prototype f))
  = length (Signature.parameterTypes (Function.signature f)) ->
exists c',
  makeModuleExport_function name p prefix c = Returned tt c' /\
  if Signature.requiredParameters (Function.signature f)
       <? Z.of_nat (length (Signature.parameterTypes (Function.signature f)))
  then
    (exists exports,
       functionExports (module c')
         = (exports ++ [(Function.internalName f +:+ "|trampoline", prefix +:+ name)])%list)
    /\ argcSet c' <> 0
    /\ (forall t, Function.trampoline f = Some t -> heap c' = heap c)
  else
    c' = set_module
           (Module_set_functionExports
              (functionExports (module c)
                 ++ if FunctionOps.is_ f CommonFlags.COMPILED
                    then [(Function.internalName f, prefix +:+ name)] else [])
              (module c)) c.
Proof.
intros Hf Hexisting Hmin Hdecls. unfold makeModuleExport_function.
rewrite (bind_returned _ _ _ _ _ (getFunction_returned _ _ _ Hf)).
destruct (Z.ltb_spec (Signature.requiredParameters (Function.signature f))
            (Z.of_nat (length (Signature.parameterTypes (Function.signature f)))))
  as [Hlt|Hge].
- destruct (Function.trampoline f) as [t|] eqn:Htrampoline.
  + destruct (Hexisting t eq_refl) as (tr & Htr & Hname & Hcompiled).
    pose proof (ensureTrampoline_existing p c f t Hf Htrampoline) as Hrun.
    destruct (ensureArgcSet_run c) as (c2 & Hset & _ & Hnonzero & _ & Hheap).
    repeat step. rewrite (bind_returned _ _ _ _ _ Hrun).
    repeat step. rewrite (bind_returned _ _ _ _ _ Hset). repeat step.
    get_function t tr ltac:(rewrite Hheap; exact Htr).
    rewrite Hcompiled. unfold addFunctionExport, onModule. repeat step.
    eexists. split; [reflexivity|]. split; [|split; [exact Hnonzero|]].
    * eexists. cbn. rewrite Hname. reflexivity.
    * intros _ _. cbn [heap set_module]. exact Hheap.
  + destruct (ensureTrampoline_made p c f Hf Htrampoline ltac:(lia) Hdecls)
      as (c1 & tr & _ & _ & _ & _ & _ & Hrun & Htr & Hname & Hcompiled & _).
    destruct (ensureArgcSet_run c1) as (c2 & Hset & _ & Hnonzero & _ & Hheap).
    repeat step. rewrite (bind_returned _ _ _ _ _ Hrun).
    repeat step. rewrite (bind_returned _ _ _ _ _ Hset). repeat step.
    get_function (length (heap c)) tr ltac:(rewrite Hheap; exact Htr).
    rewrite Hcompiled. unfold addFunctionExport, onModule. repeat step.
    eexists. split; [reflexivity|]. split; [|split; [exact Hnonzero|]].
    * eexists. cbn. rewrite Hname. reflexivity.
    * intros t Ht. discriminate Ht.
- repeat step. rewrite (bind_returned _ _ _ _ _ (getFunction_returned _ _ _ Hf)).
  destruct (FunctionOps.is_ f CommonFlags.COMPILED).
  + unfold addFunctionExport, onModule. repeat step.
    eexists. split; reflexivity.
  + exists c. split; [reflexivity|]. rewrite app_nil_r.
    destruct c as [? ? []]. reflexivity.
Qed.

End Forwarding.

(** ** The number of operands of a direct call *)

Lemma mapM_length {A B} (f : A -> M B) (l : list A) : forall c r c',
mapM f l c = Returned r c' -> length r = length l.
Proof.
induction l as [|x l IH]; intros c r c' H.
- inversion H. reflexivity.
- cbn [mapM] in H.
  apply bind_inv in H as (y & c1 & _ & H).
  apply bind_inv in H as (ys & c2 & Hys & H).
  inversion H. cbn [length]. f_equal. eapply IH. exact Hys.
Qed.

Lemma zeroesFor_length parameterTypes indices : forall zeroes,
zeroesFor parameterTypes indices = Some zeroes -> length zeroes = length indices.
Proof.
induction indices as [|i indices IH]; intros zeroes H.
- inversion H. reflexivity.
- cbn [zeroesFor] in H.
  destruct (lookupZ parameterTypes i) as [type|]; [|discriminate].
  destruct (nativeZero type); [|discriminate].
  destruct (zeroesFor parameterTypes indices) as [zs|]; [|discriminate].
  inversion H. cbn [length]. f_equal. apply IH. reflexivity.
Qed.

(** Performs the first operation of a run that is assumed to return. *)
Ltac bind_cases E :=
match goal with
| |- context [bind ?m ?k ?s] =>
    destruct (m s) eqn:E;
    [ rewrite (bind_returned m k s _ _ E)
    | rewrite (bind_thrown m k s E); intros; discriminate ]
end.

Section Arity.

Variables (instance : FunctionPtr) (operands : option (list ExpressionRef)).
Variables (c c0 : Compiler) (f0 f : Function.t).

Hypothesis function_before : heap c !! instance = Some f0.
Hypothesis enough_operands : minOperandsOf f0 <= numOperandsOf operands.
Hypothesis function_compiled : compileFunction instance c = Returned true c0.
Hypothesis function_after : heap c0 !! instance = Some f.

Lemma omitted_length :
numOperandsOf operands < maxOperandsOf f0 ->
Z.of_nat (length (default [] operands))
  + Z.of_nat (length (omittedOf f0 (numOperandsOf operands)))
= maxOperandsOf f0.
Proof.
unfold omittedOf. rewrite length_seqZ.
unfold maxOperandsOf, numArgumentsOf, numOperandsOf, maxArgumentsOf.
destruct operands as [ops|]; cbn [from_option id];
  destruct (FunctionOps.is_ f0 CommonFlags.INSTANCE); cbn [length]; intros; lia.
Qed.

(** X14.  A direct call passes an operand for every parameter.  When
  [makeCallDirect], for a function that is or gets compiled, returns an
  expression, that expression is unreachable (the trampoline could not
  be compiled) or a call, bare or in the block that sets [~argc], and
  the call has as many operands as were supplied or, when fewer were
  supplied than the function has parameters, exactly as many as the
  function has parameters ([this] included). *)
Theorem makeCallDirect_arity (e : ExpressionRef) (c' : Compiler) :
makeCallDirect instance operands c = Returned e c' ->
e = Unreachable \/
exists ops,
  callOperands e = Some ops /\
  Z.of_nat (length ops) = Z.max (numOperandsOf operands) (maxOperandsOf f0).
Proof.
rewrite (makeCallDirect_begin instance operands c c0 f0 f
           function_before enough_operands function_compiled function_after).
cbv zeta.
assert (numOperandsOf operands = Z.of_nat (length (default [] operands))) as Hn
  by (unfold numOperandsOf; destruct operands; reflexivity).
assert (forall (ops : list ExpressionRef) (s : Compiler),
          Z.of_nat (length ops) = Z.max (numOperandsOf operands) (maxOperandsOf f0) ->
          (modify (set_currentType (Signature.returnType (Function.signature f))) ;;
           g <- getFunction instance ;;
           if FunctionOps.is_ f CommonFlags.MODULE_IMPORT
           then createCallImport (Function.internalName g) ops
                  (Type_.toNativeType (Signature.returnType (Function.signature f)))
           else createCall (Function.internalName g) ops
                  (Type_.toNativeType (Signature.returnType (Function.signature f)))) s
          = Returned e c' ->
          e = Unreachable \/
          exists ops',
            callOperands e = Some ops' /\
            Z.of_nat (length ops')
              = Z.max (numOperandsOf operands) (maxOperandsOf f0)) as Hthrough.
{ intros ops s Hlen. step. bind_cases E.
  destruct (FunctionOps.is_ f CommonFlags.MODULE_IMPORT);
    unfold createCallImport, createCall, create; repeat step;
    intros H; injection H as <- _; right; exists ops; (split; [reflexivity | exact Hlen]). }
destruct (Z.ltb_spec (numOperandsOf operands) (maxOperandsOf f0)) as [Hfew|Hall].
- pose proof (omitted_length Hfew) as Hlen.
  match goal with |- context [defined ?o] => destruct o as [[|]|] end;
    [| |intros; discriminate]; step.
  + bind_cases E. apply Hthrough.
    rewrite length_app, Nat2Z.inj_add, (mapM_length _ _ _ _ _ E). lia.
  + unfold bind at 1. rewrite makeCallDirect_zeroes_run.
    match goal with |- context [zeroesFor ?a ?b] =>
      destruct (zeroesFor a b) as [zeroes|] eqn:Ez; [|intros; discriminate]
    end.
    assert (Z.of_nat (length (default [] operands ++ zeroes))
            = Z.max (numOperandsOf operands) (maxOperandsOf f0)) as Hops.
    { rewrite length_app, Nat2Z.inj_add, (zeroesFor_length _ _ _ Ez). lia. }
    destruct (FunctionOps.is_ f CommonFlags.MODULE_IMPORT) eqn:Eimport; cbn [negb].
    * step. bind_cases Eg. unfold createCallImport, create. repeat step.
      intros H; injection H as <- _. right.
      eexists. split; [reflexivity | exact Hops].
    * bind_cases Et. bind_cases Ec.
      match goal with |- context [negb ?b] => destruct b end; cbn [negb];
        [|unfold createUnreachable, create; repeat step;
          intros H; injection H as <- _; left; reflexivity].
      bind_cases Eo. bind_cases Eu. bind_cases Eg. repeat step.
      match goal with |- context [bind ensureArgcVar _ ?s] =>
        destruct (ensureArgcVar_run s) as (cargc & Hargc & _);
        rewrite (bind_returned _ _ _ _ _ Hargc)
      end.
      unfold createI32, createSetGlobal. repeat step.
      bind_cases Eg'.
      unfold createCall, createBlock, create. repeat step.
      intros H; injection H as <- _. right.
      eexists. split; [reflexivity | exact Hops].
- apply Hthrough. rewrite <- Hn. lia.
Qed.

End Arity.

(** ** The members of a const enum *)

Lemma immutableConstant_new (gs : list GlobalDef) (name : string) (type : NativeType.t)
  (v : Z) :
Forall (fun g => global_name g <> name) gs ->
immutableConstant
  (gs ++ [{| global_name := name; global_type := type; global_mutable := false;
             global_init := ConstI32 v |}]) name = Some v.
Proof.
unfold immutableConstant. induction 1 as [|g gs Hg _ IH].
- cbn. rewrite String.eqb_refl. reflexivity.
- cbn [app List.find].
  destruct (String.eqb_spec (global_name g) name) as [H|_]; [contradiction | exact IH].
Qed.

Lemma isConstEnum_elementFlags (element : Enum.t) (c c' : Compiler) (name : string) (flag : Z) :
elementFlags c'
  = <[name := Flags.set (default 0 (elementFlags c !! name)) flag]> (elementFlags c) ->
isConstEnum element c = true -> isConstEnum element c' = true.
Proof.
unfold isConstEnum. intros -> H.
destruct (decide (name = Enum.internalName element)) as [->|Hne].
- rewrite lookup_insert_eq. cbn. apply Flags_is_lor_l. exact H.
- rewrite lookup_insert_ne by exact Hne. exact H.
Qed.

Section Numbering.

(** Precomputation replaces the successor of an immutable constant
  global by its value, and changes no declaration. *)
Hypothesis precomputeExpression_folds : forall (c : Compiler) (name : string) (v : Z),
immutableConstant (globals (module c)) name = Some v ->
- 2 ^ 31 <= v + 1 < 2 ^ 31 ->
exists c',
  precomputeExpression (Binary AddI32 (GetGlobal name NativeType.I32) (ConstI32 1)) c
    = Returned (ConstI32 (v + 1)) c' /\
  sameDeclarations c c'.

Variable element : Enum.t.

(** One member without an initializer, in a const enum. *)
Lemma compileEnum_member_numbered (member : EnumValue.t) (previous : option EnumValue.t)
  (k : Z) (c : Compiler) :
EnumValue.kind member = ElementKind.ENUMVALUE ->
EnumValue.value member = None ->
isConstEnum element c = true ->
match previous with
| None => k = 0
| Some p =>
    immutableConstant (globals (module c)) (EnumValue.internalName p) = Some (k - 1)
end ->
0 <= k < 2 ^ 31 ->
exists c',
  compileEnum_member element (previous, false) member c = Returned (Some member, false) c' /\
  globals (module c') = (globals (module c) ++ [enumGlobal member false (ConstI32 k)])%list /\
  startFunctionBody c' = startFunctionBody c /\
  diagnostics c' = diagnostics c /\
  isConstEnum element c' = true.
Proof.
intros Hkind Hvalue Hconst Hprevious Hk.
unfold compileEnum_member. cbn [fst snd]. rewrite Hkind, Hvalue. cbn [isEnumValue negb].
unfold elementSet, elementIs. step.
set (c1 := set_elementFlags _ c).
assert (isConstEnum element c1 = true) as Hconst1.
{ apply (isConstEnum_elementFlags element c c1 (EnumValue.internalName member)
           CommonFlags.COMPILED); [reflexivity | exact Hconst]. }
destruct previous as [p|].
- cbn [negb]. repeat step.
  unfold createGetGlobal, createI32, createBinary. repeat step.
  match goal with |- context [bind (precomputeExpression ?e) _ ?s] =>
    destruct (precomputeExpression_folds s (EnumValue.internalName p) (k - 1)
                Hprevious ltac:(lia))
      as (c2 & Hrun & Hg & Hf & Hs & Hd)
  end.
  replace (k - 1 + 1) with k in Hrun by lia.
  rewrite (bind_returned _ _ _ _ _ Hrun).
  cbn [isConst getExpressionId negb]. repeat step. cbn [fst snd]. repeat step.
  assert (Flags.is_ (default 0 (elementFlags c2 !! Enum.internalName element))
            CommonFlags.CONST = true) as Hconst2.
  { rewrite Hf. exact Hconst1. }
  rewrite Hconst2. unfold addGlobal, onModule. repeat step.
  eexists. split; [reflexivity|].
  cbn [globals module set_module Module_set_globals startFunctionBody diagnostics].
  rewrite Hg, Hs, Hd. unfold enumGlobal.
  split; [reflexivity|]. split; [reflexivity|]. split; [reflexivity|].
  unfold isConstEnum. cbn [elementFlags set_module]. exact Hconst2.
- subst k. unfold createI32. repeat step. cbn [fst snd]. repeat step.
  assert (Flags.is_
            (default 0 (elementFlags (recordNode (ConstI32 0) c1)
                          !! Enum.internalName element))
            CommonFlags.CONST = true) as Hconst2 by exact Hconst1.
  rewrite Hconst2. unfold addGlobal, onModule. repeat step.
  eexists. split; [reflexivity|].
  split; [reflexivity|]. split; [reflexivity|]. split; [reflexivity|]. exact Hconst1.
Qed.

Lemma compileEnum_members_numbered (members : list EnumValue.t) :
forall (c : Compiler) (previous : option EnumValue.t) (k : Z),
  Forall (fun m => EnumValue.kind m = ElementKind.ENUMVALUE /\ EnumValue.value m = None)
    members ->
  NoDup (map EnumValue.internalName members) ->
  Forall (fun m => Forall (fun g => global_name g <> EnumValue.internalName m)
                     (globals (module c))) members ->
  isConstEnum element c = true ->
  match previous with
  | None => k = 0
  | Some p =>
      immutableConstant (globals (module c)) (EnumValue.internalName p) = Some (k - 1)
  end ->
  0 <= k -> k + Z.of_nat (length members) <= 2 ^ 31 ->
  exists state c',
    foldM (compileEnum_member element) members (previous, false) c = Returned state c' /\
    globals (module c') =
      (globals (module c)
         ++ imap (fun j m => enumGlobal m false (ConstI32 (k + Z.of_nat j))) members)%list /\
    startFunctionBody c' = startFunctionBody c /\
    diagnostics c' = diagnostics c.
Proof.
induction members as [|m members IH]; intros c previous k Hall Hnodup Hfresh Hconst Hprev Hk Hlen.
- exists (previous, false), c. cbn. rewrite app_nil_r. repeat split; reflexivity.
- apply Forall_cons in Hall as [[Hkind Hvalue] Hall].
  cbn [map] in Hnodup. apply NoDup_cons in Hnodup as [Hnotin Hnodup].
  apply Forall_cons in Hfresh as [Hfresh_m Hfresh].
  cbn [length] in Hlen.
  destruct (compileEnum_member_numbered m previous k c Hkind Hvalue Hconst Hprev
              ltac:(lia)) as (c1 & Hrun1 & Hg1 & Hs1 & Hd1 & Hconst1).
  destruct (IH c1 (Some m) (k + 1) Hall Hnodup) as (state & c' & Hrun & Hg & Hs & Hd).
  + rewrite Hg1. rewrite Forall_forall in Hfresh. apply Forall_forall. intros m' Hin.
    apply Forall_app. split; [apply Hfresh; exact Hin|].
    constructor; [|constructor]. cbn. intros Heq. apply Hnotin.
    rewrite Heq. apply list_elem_of_fmap_2. exact Hin.
  + exact Hconst1.
  + rewrite Hg1. replace (k + 1 - 1) with k by lia.
    apply immutableConstant_new. exact Hfresh_m.
  + lia.
  + lia.
  + exists state, c'. cbn [foldM]. rewrite (bind_returned _ _ _ _ _ Hrun1).
    split; [exact Hrun|]. rewrite Hg, Hg1, Hs, Hs1, Hd, Hd1.
    split; [|split; reflexivity].
    rewrite <- app_assoc. cbn [imap app]. rewrite Z.add_0_r. do 2 f_equal.
    apply imap_ext. intros j m' _. cbn. do 2 f_equal. lia.
Qed.

(** X15.  The members of a const enum that has no initializers are
  numbered from 0.  Given that precomputation replaces the successor of
  an immutable constant global by its value, [compileEnum] returns true
  for such an enum, adds one immutable [i32] global per member, in
  order, the [k]-th (counting from 0) initialized with the constant [k],
  puts nothing into the start function and reports nothing. *)
Theorem compileEnum_const_numbering (members : list EnumValue.t) (c : Compiler) :
Enum.members element = Some members ->
Forall (fun m => EnumValue.kind m = ElementKind.ENUMVALUE /\ EnumValue.value m = None)
  members ->
NoDup (map EnumValue.internalName members) ->
Forall (fun m => Forall (fun g => global_name g <> EnumValue.internalName m)
                   (globals (module c))) members ->
isEnumCompiled element c = false ->
isConstEnum element c = true ->
Z.of_nat (length members) <= 2 ^ 31 ->
exists c',
  compileEnum element c = Returned true c' /\
  globals (module c') =
    (globals (module c)
       ++ imap (fun k m => enumGlobal m false (ConstI32 (Z.of_nat k))) members)%list /\
  startFunctionBody c' = startFunctionBody c /\
  diagnostics c' = diagnostics c /\
  currentEnum c' = None.
Proof.
intros Hmembers Hall Hnodup Hfresh Hcompiled Hconst Hlen.
unfold compileEnum, elementIs, elementSet. step.
unfold isEnumCompiled in Hcompiled. rewrite Hcompiled. repeat step.
rewrite Hmembers. repeat step.
match goal with |- context [bind (foldM _ _ _) _ ?s] =>
  destruct (compileEnum_members_numbered members s None 0 Hall Hnodup Hfresh)
    as (state & c1 & Hrun & Hg & Hs & Hd)
end.
- apply (isConstEnum_elementFlags element c _ (Enum.internalName element)
           CommonFlags.COMPILED); [reflexivity | exact Hconst].
- reflexivity.
- lia.
- lia.
- repeat step. rewrite (bind_returned _ _ _ _ _ Hrun). repeat step.
  eexists. split; [reflexivity|].
  cbn [globals module set_currentEnum startFunctionBody diagnostics currentEnum].
  rewrite Hg, Hs, Hd. repeat split; reflexivity.
Qed.

End Numbering.

(** ** An enum is compiled once *)

Lemma isCompiled_elementSet (name internalName : string) (c : Compiler) (flag : Z) :
isCompiled name c = true ->
Flags.is_
  (default 0
     (<[internalName := Flags.set (default 0 (elementFlags c !! internalName)) flag]>
        (elementFlags c) !! name))
  CommonFlags.COMPILED = true.
Proof.
unfold isCompiled. intros H.
destruct (decide (internalName = name)) as [->|Hne].
- rewrite lookup_insert_eq. cbn. apply Flags_is_lor_l. exact H.
- rewrite lookup_insert_ne by exact Hne. exact H.
Qed.

Lemma isCompiled_elementSet_same (internalName : string) (c : Compiler) :
Flags.is_
  (default 0
     (<[internalName := Flags.set (default 0 (elementFlags c !! internalName))
                          CommonFlags.COMPILED]>
        (elementFlags c) !! internalName))
  CommonFlags.COMPILED = true.
Proof. rewrite lookup_insert_eq. cbn. apply Flags_is_lor_r. Qed.

Section Once.

(** Compiling or precomputing an expression returns, and unmarks nothing. *)
Hypothesis compileExpression_keeps : forall e t k w c,
exists r c', compileExpression e t k w c = Returned r c' /\ keepsCompiled c c'.
Hypothesis precomputeExpression_keeps : forall e c,
exists r c', precomputeExpression e c = Returned r c' /\ keepsCompiled c c'.

(** Runs the next operation of a member's compilation. *)
Ltac member_step :=
match goal with
| |- context [bind (compileExpression ?e ?t ?k ?w) _ ?s] =>
    let r := fresh "r" in let c' := fresh "c" in
    let Hrun := fresh "Hrun" in let Hkeeps := fresh "Hkeeps" in
    destruct (compileExpression_keeps e t k w s) as (r & c' & Hrun & Hkeeps);
    rewrite (bind_returned _ _ _ _ _ Hrun); clear Hrun
| |- context [bind (precomputeExpression ?e) _ ?s] =>
    let r := fresh "r" in let c' := fresh "c" in
    let Hrun := fresh "Hrun" in let Hkeeps := fresh "Hkeeps" in
    destruct (precomputeExpression_keeps e s) as (r & c' & Hrun & Hkeeps);
    rewrite (bind_returned _ _ _ _ _ Hrun); clear Hrun
| |- context [if negb (isConst ?e) then _ else _] => destruct (isConst e); cbn [negb]
| |- context [if Flags.is_ ?x ?y then _ else _] => destruct (Flags.is_ x y)
| _ => step
| _ => progress cbn [fst snd negb]
end.

Ltac kept :=
unfold keepsCompiled, isCompiled in *;
cbn [elementFlags set_elementFlags recordNode set_module set_diagnostics
     set_startFunctionBody set_currentEnum];
repeat match goal with
| H : forall internalName : string, _ -> Flags.is_ (default 0 (elementFlags ?s !! _)) _ = true
  |- Flags.is_ (default 0 (elementFlags ?s !! _)) _ = true =>
    apply H; clear H;
    cbn [elementFlags set_elementFlags recordNode set_module set_diagnostics
         set_startFunctionBody set_currentEnum]
end.

Lemma compileEnum_member_keeps (element : Enum.t) (state : option EnumValue.t * bool)
  (member : EnumValue.t) (c : Compiler) :
exists state' c',
  compileEnum_member element state member c = Returned state' c' /\
  keepsCompiled c c' /\
  (isEnumValue (EnumValue.kind member) = true ->
   isCompiled (EnumValue.internalName member) c' = true).
Proof.
unfold compileEnum_member.
destruct (isEnumValue (EnumValue.kind member)); cbn [negb];
  [|exists state, c; split; [reflexivity|]; split; [intros name H; exact H | discriminate]].
destruct state as [previous previousValueIsMut]. cbn [fst snd].
unfold elementSet, elementIs, error, addGlobal, onModule,
  createI32, createGetGlobal, createBinary, createSetGlobal.
destruct (EnumValue.value member) as [value|]; [|destruct previous as [p|];
  [destruct previousValueIsMut|]];
  repeat member_step;
  (eexists; eexists; split; [reflexivity|]; split;
   [intros name Hname; kept; apply isCompiled_elementSet; exact Hname
   |intros _; kept; apply isCompiled_elementSet_same]).
Qed.

Lemma compileEnum_members_keep (element : Enum.t) (members : list EnumValue.t) :
forall (state : option EnumValue.t * bool) (c : Compiler),
  exists state' c',
    foldM (compileEnum_member element) members state c = Returned state' c' /\
    keepsCompiled c c' /\
    Forall (fun m => isEnumValue (EnumValue.kind m) = true ->
                     isCompiled (EnumValue.internalName m) c' = true) members.
Proof.
induction members as [|m members IH]; intros state c.
- exists state, c. split; [reflexivity|]. split; [intros name H; exact H | constructor].
- destruct (compileEnum_member_keeps element state m c) as (state1 & c1 & Hrun1 & Hk1 & Hm).
  destruct (IH state1 c1) as (state' & c' & Hrun & Hk & Hall).
  exists state', c'. cbn [foldM]. rewrite (bind_returned _ _ _ _ _ Hrun1).
  split; [exact Hrun|]. split.
  + intros name H. apply Hk, Hk1, H.
  + constructor; [|exact Hall]. intros Hkind. apply Hk, Hm, Hkind.
Qed.

(** X19.  An enum is compiled once.  Given that compiling and
  precomputing an expression return and unmark nothing, [compileEnum]
  returns true on every enum,
  whatever its members and their initializers are; afterwards the enum
  and each of its values are marked as compiled, whatever was marked
  before still is, and a second call returns true at once and changes
  nothing.  A call that found the enum unmarked leaves no enum as the
  current one. *)
Theorem compileEnum_once (element : Enum.t) (c : Compiler) :
exists c',
  compileEnum element c = Returned true c' /\
  isEnumCompiled element c' = true /\
  keepsCompiled c c' /\
  (isEnumCompiled element c = false ->
   currentEnum c' = None /\
   forall members, Enum.members element = Some members ->
     Forall (fun m => isEnumValue (EnumValue.kind m) = true ->
                      isCompiled (EnumValue.internalName m) c' = true) members) /\
  compileEnum element c' = Returned true c'.
Proof.
assert (forall s, isEnumCompiled element s = true -> compileEnum element s = Returned true s)
  as Hagain.
{ intros s Hs. unfold compileEnum, elementIs. step.
  unfold isEnumCompiled in Hs. rewrite Hs. reflexivity. }
destruct (isEnumCompiled element c) eqn:Hcompiled.
{ exists c. split; [apply Hagain; exact Hcompiled|]. split; [exact Hcompiled|].
  split; [intros name H; exact H|]. split; [discriminate | apply Hagain; exact Hcompiled]. }
unfold compileEnum at 1. unfold elementIs, elementSet. step.
unfold isEnumCompiled in Hcompiled. rewrite Hcompiled. repeat step.
set (c0 := set_currentEnum _ _).
assert (keepsCompiled c c0) as Hk0.
{ intros name Hname. subst c0. unfold isCompiled.
  cbn [elementFlags set_currentEnum set_elementFlags].
  apply isCompiled_elementSet. exact Hname. }
assert (isCompiled (Enum.internalName element) c0 = true) as He0.
{ subst c0. unfold isCompiled. cbn [elementFlags set_currentEnum set_elementFlags].
  apply isCompiled_elementSet_same. }
destruct (Enum.members element) as [members|] eqn:Hmembers.
- destruct (compileEnum_members_keep element members (None, false) c0)
    as (state & c1 & Hrun & Hk & Hall).
  repeat step. rewrite (bind_returned _ _ _ _ _ Hrun). repeat step.
  eexists. split; [reflexivity|].
  assert (isEnumCompiled element (set_currentEnum None c1) = true) as He.
  { apply Hk in He0. exact He0. }
  split; [exact He|]. split; [intros name H; apply Hk, Hk0, H|].
  split; [|apply Hagain; exact He].
  intros _. split; [reflexivity|]. intros members' Heq. injection Heq as <-. exact Hall.
- repeat step. eexists. split; [reflexivity|].
  split; [exact He0|]. split; [exact Hk0|]. split; [|apply Hagain; exact He0].
  intros _. split; [reflexivity|]. intros members' Heq. discriminate Heq.
Qed.

End Once.

(** ** Different static strings *)

Lemma pointerTo_inj (options : Options.t) (x y : Z) :
0 <= x < 2 ^ 32 -> 0 <= y < 2 ^ 32 ->
pointerTo options x = pointerTo options y -> x = y.
Proof.
intros Hx Hy. unfold pointerTo, i64_low, wrap32.
pose proof (Z.div_mod (x + 2 ^ 31) (2 ^ 32) ltac:(lia)) as Hdx.
pose proof (Z.div_mod (y + 2 ^ 31) (2 ^ 32) ltac:(lia)) as Hdy.
pose proof (Z.mod_pos_bound (x + 2 ^ 31) (2 ^ 32) ltac:(lia)) as Hbx.
pose proof (Z.mod_pos_bound (y + 2 ^ 31) (2 ^ 32) ltac:(lia)) as Hby.
destruct (Options.isWasm64 options); intros H; injection H as H; lia.
Qed.

Lemma gcHeaderSize_nonnegative (program : Program.t) :
(Program.hasGC program = true ->
 0 <= Program.gcHookOffset program /\
 Program.gcHookOffset program + 4 <= Program.gcHeaderSize program) ->
0 <= gcHeaderSizeOf program.
Proof.
unfold gcHeaderSizeOf. intros H. destruct (Program.hasGC program); [|lia].
destruct H; [reflexivity | lia].
Qed.

Section DistinctStrings.

(** The GC hook of a class is found or made without touching static data. *)
Hypothesis ensureGCHook_frame : forall (cls : Class.t) (c : Compiler),
exists hook c', ensureGCHook cls c = Returned hook c' /\ sameStaticData c c'.

(** A string that has no segment yet gets one where the static data
  ended, and the static data ends with it. *)
Lemma ensureStaticString_fresh (s : JSString) (c : Compiler) (cls : Class.t)
  (lengthOffset : Z) :
Program.stringInstance (program c) = Some cls ->
Class.members cls !! "length" = Some lengthOffset ->
0 <= lengthOffset /\ lengthOffset + 4 <= stringHeaderSize cls ->
(Program.hasGC (program c) = true ->
 0 <= Program.gcHookOffset (program c) /\
 Program.gcHookOffset (program c) + 4 <= Program.gcHeaderSize (program c)) ->
0 <= memoryOffset c ->
memoryOffset c + 8 + gcHeaderSizeOf (program c) + stringHeaderSize cls
  + Z.of_nat (length s) * 2 < 2 ^ 32 ->
stringSegments c !! s = None ->
exists segment c1,
  ensureStaticString s c
    = Returned (pointerTo (options c) (offset segment + gcHeaderSizeOf (program c))) c1 /\
  offset segment = align_up (memoryOffset c) 8 /\
  Z.of_nat (length (buffer segment))
    = gcHeaderSizeOf (program c) + stringHeaderSize cls + Z.of_nat (length s) * 2 /\
  memorySegments c1 = (memorySegments c ++ [segment])%list /\
  stringSegments c1 = <[s := segment]> (stringSegments c) /\
  memoryOffset c1 = segmentEnd segment /\
  program c1 = program c /\ options c1 = options c.
Proof.
intros stringInstance_defined length_field [Hl0 Hl4] hook_in_header offset_nonnegative
  fits_in_memory Hnew.
pose proof (gcHeaderSize_nonnegative (program c) hook_in_header) as HG.
pose proof (align_up_bounds (memoryOffset c) 8 ltac:(lia)) as Hal.
unfold ensureStaticString, offsetof.
step. rewrite stringInstance_defined. step. step. rewrite Hnew.
fold (stringHeaderSize cls).
unfold gcHeaderSizeOf in *.
destruct (Program.hasGC (program c)) eqn:HGC.
- destruct (hook_in_header eq_refl) as [Hh0 Hh4].
  destruct (ensureGCHook_frame cls c) as (hook & c0 & Hrun & Hp & Ho & Hmo & Hms & Hss).
  repeat step. rewrite (bind_returned _ _ _ _ _ Hrun). step. cbn [fst snd].
  rewrite length_field. repeat step.
  rewrite stringBuffer_gc by lia.
  set (buf := (field32 _ _ hook ++ _)%list).
  assert (Z.of_nat (length buf) = Program.gcHeaderSize (program c) + stringHeaderSize cls
            + Z.of_nat (length s) * 2) as Hlen.
  { subst buf. rewrite !length_app, !Nat2Z.inj_add, !field32_length, codeUnits_length by lia.
    lia. }
  rewrite (bind_returned _ _ _ _ _ (addMemorySegment_step c0 buf 8 eq_refl
             ltac:(lia) ltac:(lia) ltac:(lia))).
  rewrite Hmo, Hms.
  set (segment := MemorySegment_create buf (align_up (memoryOffset c) 8)).
  exists segment.
  repeat step.
  cbn [program options stringSegments memorySegments set_stringSegments
       set_memoryOffset set_memorySegments set_currentType].
  assert (i64_add (offset segment) (i64_new (Program.gcHeaderSize (program c)) 0)
          = offset segment + Program.gcHeaderSize (program c)) as Hso.
  { pose proof (stringOffset_value (program c) (offset segment)) as Hso.
    unfold gcHeaderSizeOf in Hso. rewrite HGC in Hso.
    apply Hso; subst segment; cbn [offset MemorySegment_create]; lia. }
  rewrite Hso, ?Ho.
  unfold pointerTo, createI64, createI32.
  destruct (Options.isWasm64 (options c)).
  + eexists. split; [reflexivity|]. cbn. rewrite Hss.
    repeat split; assumption.
  + rewrite i64_is_u32_small by (subst segment; cbn [offset MemorySegment_create]; lia).
    eexists. split; [reflexivity|]. cbn. rewrite Hss.
    repeat split; assumption.
- repeat step. cbn [fst snd].
  rewrite length_field. repeat step.
  rewrite stringBuffer_plain by lia.
  set (buf := (field32 _ _ _ ++ _)%list).
  assert (Z.of_nat (length buf) = 0 + stringHeaderSize cls + Z.of_nat (length s) * 2) as Hlen.
  { subst buf. rewrite !length_app, !Nat2Z.inj_add, !field32_length, codeUnits_length by lia.
    lia. }
  rewrite (bind_returned _ _ _ _ _ (addMemorySegment_step c buf 8 eq_refl
             ltac:(lia) ltac:(lia) ltac:(lia))).
  set (segment := MemorySegment_create buf (align_up (memoryOffset c) 8)).
  exists segment.
  repeat step.
  cbn [program options stringSegments memorySegments set_stringSegments
       set_memoryOffset set_memorySegments set_currentType].
  rewrite (Z.add_0_r (offset segment)).
  unfold pointerTo, createI64, createI32.
  destruct (Options.isWasm64 (options c)).
  + eexists. split; [reflexivity|]. cbn. repeat split; try reflexivity; assumption.
  + rewrite i64_is_u32_small by (subst segment; cbn [offset MemorySegment_create]; lia).
    eexists. split; [reflexivity|]. cbn. repeat split; try reflexivity; assumption.
Qed.

Variables (s t : JSString) (c : Compiler) (cls : Class.t) (lengthOffset : Z).

Hypothesis stringInstance_defined : Program.stringInstance (program c) = Some cls.
Hypothesis length_field : Class.members cls !! "length" = Some lengthOffset.
Hypothesis length_in_header :
0 <= lengthOffset /\ lengthOffset + 4 <= stringHeaderSize cls.
Hypothesis hook_in_header :
Program.hasGC (program c) = true ->
0 <= Program.gcHookOffset (program c) /\
Program.gcHookOffset (program c) + 4 <= Program.gcHeaderSize (program c).
Hypothesis offset_nonnegative : 0 <= memoryOffset c.
Hypothesis both_fit_in_memory :
memoryOffset c + 16 + 2 * gcHeaderSizeOf (program c) + 2 * stringHeaderSize cls
  + Z.of_nat (length s) * 2 + Z.of_nat (length t) * 2 < 2 ^ 32.
Hypothesis different : s <> t.
Hypothesis s_new : stringSegments c !! s = None.
Hypothesis t_new : stringSegments c !! t = None.

(** X16.  Two different strings that are not yet stored get two
  segments that do not overlap, the second at or after the end of the
  first, and two different pointers; storing the second string leaves
  the pointer of the first as it was. *)
Theorem ensureStaticString_distinct :
exists (ps pt : ExpressionRef) (ss st : MemorySegment) (c1 c2 c3 : Compiler),
  ensureStaticString s c = Returned ps c1 /\
  ensureStaticString t c1 = Returned pt c2 /\
  ensureStaticString s c2 = Returned ps c3 /\
  memorySegments c2 = (memorySegments c ++ [ss; st])%list /\
  memorySegments c3 = memorySegments c2 /\
  segmentEnd ss <= offset st /\
  ps = pointerTo (options c) (offset ss + gcHeaderSizeOf (program c)) /\
  pt = pointerTo (options c) (offset st + gcHeaderSizeOf (program c)) /\
  ps <> pt.
Proof.
pose proof (gcHeaderSize_nonnegative (program c) hook_in_header) as HG.
destruct length_in_header as [Hl0 Hl4].
pose proof (align_up_bounds (memoryOffset c) 8 ltac:(lia)) as Hal.
destruct (ensureStaticString_fresh s c cls lengthOffset stringInstance_defined length_field
            length_in_header hook_in_header offset_nonnegative ltac:(lia) s_new)
  as (ss & c1 & Hrun1 & Hoff1 & Hlen1 & Hms1 & Hss1 & Hmo1 & Hp1 & Ho1).
assert (segmentEnd ss = offset ss + gcHeaderSizeOf (program c) + stringHeaderSize cls
                          + Z.of_nat (length s) * 2) as Hend1.
{ unfold segmentEnd. lia. }
pose proof (align_up_bounds (memoryOffset c1) 8 ltac:(lia)) as Hal1.
destruct (ensureStaticString_fresh t c1 cls lengthOffset) as
  (st & c2 & Hrun2 & Hoff2 & Hlen2 & Hms2 & Hss2 & Hmo2 & Hp2 & Ho2).
{ rewrite Hp1. exact stringInstance_defined. }
{ exact length_field. }
{ exact length_in_header. }
{ rewrite Hp1. exact hook_in_header. }
{ lia. }
{ rewrite Hp1. lia. }
{ rewrite Hss1, lookup_insert_ne by exact different. exact t_new. }
rewrite Hp1, Ho1 in Hrun2.
destruct (ensureStaticString_reuse s c2 cls ss) as (c3 & Hrun3 & Hms3 & _).
{ rewrite Hp2, Hp1. exact stringInstance_defined. }
{ rewrite Hss2, lookup_insert_ne by (intros H; apply different; symmetry; exact H).
  rewrite Hss1. apply lookup_insert_eq. }
{ lia. }
{ rewrite Hp2, Hp1. exact HG. }
{ rewrite Hp2, Hp1. lia. }
rewrite Hp2, Hp1, Ho2, Ho1 in Hrun3.
exists (pointerTo (options c) (offset ss + gcHeaderSizeOf (program c))),
  (pointerTo (options c) (offset st + gcHeaderSizeOf (program c))), ss, st, c1, c2, c3.
split; [exact Hrun1|]. split; [exact Hrun2|]. split; [exact Hrun3|].
split; [rewrite Hms2, Hms1, <- app_assoc; reflexivity|].
split; [exact Hms3|].
split; [lia|]. split; [reflexivity|]. split; [reflexivity|].
intros Heq. apply pointerTo_inj in Heq; lia.
Qed.

End DistinctStrings.

(** ** Integer literals and inlined constants *)

Lemma i64_is_u32_range (v : Z) :
- 2 ^ 63 <= v < 2 ^ 63 -> i64_is_u32 v = (0 <=? v) && (v <? 2 ^ 32).
Proof.
intros Hv. unfold i64_is_u32, i64_high, wrap32.
rewrite Z.shiftr_div_pow2 by lia.
pose proof (Z.div_mod v (2 ^ 32) ltac:(lia)) as Hdm.
pose proof (Z.mod_pos_bound v (2 ^ 32) ltac:(lia)) as Hm.
assert (- 2 ^ 31 <= v / 2 ^ 32 < 2 ^ 31) as Hq by lia.
rewrite (Z.mod_small (v / 2 ^ 32 + 2 ^ 31)) by lia.
destruct (Z.eqb_spec (v / 2 ^ 32 + 2 ^ 31 - 2 ^ 31) 0) as [H0|H0];
  destruct (Z.leb_spec 0 v); destruct (Z.ltb_spec v (2 ^ 32)); cbn; try reflexivity; lia.
Qed.

Lemma i64_is_bool_range (v : Z) : Glue.i64_is_bool v = (0 <=? v) && (v <? 2).
Proof.
unfold Glue.i64_is_bool.
destruct (Z.eqb_spec v 0); destruct (Z.eqb_spec v 1); destruct (Z.leb_spec 0 v);
  destruct (Z.ltb_spec v 2); cbn; try reflexivity; lia.
Qed.

Lemma negated_range (value : Z) :
- 2 ^ 63 <= Glue.i64_sub (i64_new 0 0) value < 2 ^ 63.
Proof.
unfold Glue.i64_sub, wrap64.
pose proof (Z.mod_pos_bound (i64_new 0 0 - value + 2 ^ 63) (2 ^ 64) ltac:(lia)). lia.
Qed.

(** X17.  An integer literal is compiled to a constant of the type that
  the compiler records as the current one, and the literal's value (the
  negated one under an implicit negation) is a number of that type: the
  type is the contextual type when the value is one of its numbers, and
  otherwise the smallest of i32, u32 and i64 that has the value.  One
  node is created. *)
Theorem compileLiteralExpression_integer_fits (value : Z) (contextualType : Type_.t)
  (implicitNegate : bool) (c : Compiler) :
- 2 ^ 63 <= value < 2 ^ 63 ->
currentType c = contextualType ->
sizedForTarget (options c) contextualType ->
let v := if implicitNegate then Glue.i64_sub (i64_new 0 0) value else value in
exists (e : ExpressionRef) (c' : Compiler),
  compileLiteralExpression_integer value contextualType implicitNegate c = Returned e c' /\
  e = constantOf (currentType c') v /\
  hasValue (currentType c') v = true /\
  currentType c'
    = (if hasValue contextualType v then contextualType else bestFitting v) /\
  created (module c') = (created (module c) ++ [e])%list.
Proof.
intros Hvalue Hcurrent Hsized v.
assert (- 2 ^ 63 <= v < 2 ^ 63) as Hv.
{ subst v. destruct implicitNegate; [apply negated_range | exact Hvalue]. }
unfold compileLiteralExpression_integer. fold v. step.
rewrite (i64_is_u32_range v Hv), i64_is_bool_range.
unfold Glue.i64_is_i8, Glue.i64_is_i16, Glue.i64_is_i32, Glue.i64_is_u8, Glue.i64_is_u16.
unfold sizedForTarget in Hsized.
unfold bestFitting, hasValue, constantOf, Type_.toNativeType.
destruct contextualType as [kind flags size cls]. cbn [Type_.kind Type_.size] in *.
unfold createI32, createI64, createF32, createF64.
destruct kind; cbn [Type_.kind Type_.size Type_.i32 Type_.u32 Type_.i64 Type_.mk];
  try rewrite Hsized;
  repeat match goal with
  | |- context [if negb ?b then _ else _] => destruct b; cbn [negb orb]
  | |- context [if (?a <=? ?b) && (?x <? ?y) then _ else _] =>
      destruct ((a <=? b) && (x <? y)) eqn:?
  | |- context [if i64_is_f32 v then _ else _] => destruct (i64_is_f32 v) eqn:?
  | |- context [if i64_is_f64 v then _ else _] => destruct (i64_is_f64 v) eqn:?
  end;
  repeat step;
  (eexists; eexists; split; [reflexivity|]);
  cbn [currentType set_currentType module set_module created Module_set_created recordNode
       Type_.kind Type_.size Type_.i32 Type_.u32 Type_.i64 Type_.mk orb];
  rewrite ?Hcurrent; cbn [Type_.kind Type_.size];
  repeat split; try reflexivity; try assumption;
  repeat match goal with
  | H : ?b = _ |- context [?b] => rewrite H
  end; try reflexivity; try assumption; try (rewrite Hsized; reflexivity).
Qed.

(** X18.  An inlined constant is compiled to one constant, whose native
  type is that of the type the compiler records as the current one: the
  contextual type when an integer constant is widened to it, and the
  element's type otherwise, but [f32] for a built-in [f64] constant in the
  context [f32].  A constant of a 32-bit or 64-bit integer type holds the
  element's integer value, or zero where the element has none. *)
Theorem compileInlineConstant_typed (element : VariableLikeElement.t)
  (contextualType : Type_.t) (retainType : bool) (c : Compiler) :
let type := VariableLikeElement.type element in
let current :=
  if negb retainType
     && Type_.is_ type TypeFlags.INTEGER
     && Type_.is_ contextualType TypeFlags.INTEGER
     && (Type_.size type <? Type_.size contextualType)
  then contextualType else type in
let demoted :=
  match Type_.kind current with
  | TypeKind.F64 =>
      VariableLikeElement.isBuiltin element
      && TypeKind.eqb (Type_.kind contextualType) TypeKind.F32
  | _ => false
  end in
let value :=
  if isIntegerConstant element then VariableLikeElement.constantIntegerValue element
  else 0 in
Flags.is_ (VariableLikeElement.flags element) CommonFlags.INLINED = true ->
Type_.kind current <> TypeKind.VOID ->
sizedForTarget (options c) current ->
exists (e : ExpressionRef) (c' : Compiler),
  compileInlineConstant element contextualType retainType c = Returned e c' /\
  currentType c' = (if demoted then Type_.f32 else current) /\
  constantType e = Some (Type_.toNativeType (currentType c')) /\
  (isWordInteger (Type_.kind current) = true -> e = constantOf current value) /\
  created (module c') = (created (module c) ++ [e])%list.
Proof.
intros type current demoted value Hinlined Hvoid Hsized.
unfold compileInlineConstant. cbv zeta. fold type. fold current.
rewrite Hinlined. repeat step.
cbn [options set_currentType].
unfold sizedForTarget in Hsized. subst demoted value.
unfold constantOf, Type_.toNativeType, createI32, createI64, createF32, createF64.
destruct (Type_.kind current) eqn:Hkind; try (exfalso; apply Hvoid; reflexivity);
  try rewrite Hsized;
  repeat match goal with
  | |- context [if negb ?b then _ else _] => destruct b eqn:?; cbn [negb]
  end;
  try destruct (isIntegerConstant element);
  repeat step;
  (eexists; eexists; split; [reflexivity|]);
  cbn [currentType set_currentType module set_module created Module_set_created recordNode
       constantType Type_.toNativeType Type_.kind Type_.f32 Type_.mk];
  rewrite ?Hkind, ?Hsized;
  repeat split; try reflexivity; try (cbn; intros; discriminate).
Qed.

End Methods.

(** * The facts at concrete inputs *)

Lemma addMemorySegment_monotone_witness :
  exists segments c',
    addMemorySegments [([1; 2; 3], 8); ([4], 4); ([], 16)] Examples.c32
      = Returned segments c' /\
    placed 8 [([1; 2; 3], 8); ([4], 4); ([], 16)] segments (memoryOffset c') /\
    8 <= memoryOffset c' /\
    memorySegments c' = segments.
Proof.
  apply (addMemorySegment_monotone [([1; 2; 3], 8); ([4], 4); ([], 16)] Examples.c32).
  - reflexivity.
  - vm_compute. discriminate.
  - vm_compute. reflexivity.
Defined.

Lemma ensureSmallIntegerWrap_spec_witness :
  exists r c',
    ensureSmallIntegerWrap Examples.canOverflow (GetLocal 0 NativeType.I32) Type_.i8
      Examples.c32 = Returned r c' /\
    r = Binary ShrI32 (Binary ShlI32 (GetLocal 0 NativeType.I32) (ConstI32 24)) (ConstI32 24).
Proof.
  destruct (ensureSmallIntegerWrap_spec Examples.canOverflow
              (GetLocal 0 NativeType.I32) Type_.i8 Examples.c32 Examples.start eq_refl)
    as (r & c' & Hrun & _ & Hwrap).
  exists r, c'. split; [exact Hrun|]. apply Hwrap. reflexivity.
Defined.

Lemma convertExpression_void_witness :
  (exists c',
     convertExpression Examples.canOverflow Examples.isAssignableTo
       (GetLocal 2 NativeType.I32) Type_.i32 Type_.void IMPLICIT WrapMode_NONE
       (IntegerLiteralExpression 0 Examples.noRange) Examples.c32
     = Returned (Drop (GetLocal 2 NativeType.I32)) c' /\
     diagnostics c' = []) /\
  (exists c',
     convertExpression Examples.canOverflow Examples.isAssignableTo
       Nop Type_.void Type_.i32 IMPLICIT WrapMode_NONE
       (IntegerLiteralExpression 0 Examples.noRange) Examples.c32
     = Returned Unreachable c' /\
     diagnostics c' =
       [notAssignable Type_.void Type_.i32 (IntegerLiteralExpression 0 Examples.noRange)]).
Proof.
  split.
  - apply (convertExpression_void Examples.canOverflow Examples.isAssignableTo
             (GetLocal 2 NativeType.I32) Type_.i32 Type_.void IMPLICIT WrapMode_NONE
             (IntegerLiteralExpression 0 Examples.noRange) Examples.c32);
      [discriminate | discriminate | reflexivity].
  - apply (convertExpression_void Examples.canOverflow Examples.isAssignableTo
             Nop Type_.void Type_.i32 IMPLICIT WrapMode_NONE
             (IntegerLiteralExpression 0 Examples.noRange) Examples.c32);
      [discriminate | reflexivity | discriminate].
Defined.

(** C3, on the code.  Compiling [a >>> b] with [a] and [b] of type [u8]
    creates two [ShrU32] nodes, the first of which is left unused; the
    sibling [a >> b] creates one. *)
Theorem compileBinaryExpression_shr_u_twice :
  exists c',
    compileBinaryExpression Examples.canOverflow Examples.compileExpression
      Examples.lookupOverload Examples.compileBinaryOverload
      Examples.compileAssignmentWithValue Examples.compileBinaryExpression_other
      Examples.a_shr_u_b Type_.u8 Examples.c32
    = Returned (Binary ShrU32
                  (Binary AndI32 (GetLocal 0 NativeType.I32) (ConstI32 255))
                  (GetLocal 1 NativeType.I32)) c' /\
    Type_.kind (currentType c') = TypeKind.U8 /\
    countShrU32 (createdBy Examples.c32 c') = 2%nat.
Proof. eexists. split; [vm_compute; reflexivity|]. split; reflexivity. Qed.

Lemma compileBinaryExpression_shr_once :
  exists c',
    compileBinaryExpression Examples.canOverflow Examples.compileExpression
      Examples.lookupOverload Examples.compileBinaryOverload
      Examples.compileAssignmentWithValue Examples.compileBinaryExpression_other
      Examples.a_shr_b Type_.u8 Examples.c32
    = Returned (Binary ShrU32
                  (Binary AndI32 (GetLocal 0 NativeType.I32) (ConstI32 255))
                  (GetLocal 1 NativeType.I32)) c' /\
    countShrU32 (createdBy Examples.c32 c') = 1%nat.
Proof. eexists. split; [vm_compute; reflexivity|]. reflexivity. Qed.

Lemma Examples_ensureGCHook_frame (cls : Class.t) (c : Compiler) :
  exists hook c', Examples.ensureGCHook cls c = Returned hook c' /\ sameStaticData c c'.
Proof. eexists. eexists. split; [reflexivity|]. repeat split; reflexivity. Qed.

(** The string "hi" in a program with a GC whose header has 8 bytes and
    the hook word at offset 4: the hook index 0, the length 2 and the code
    units 104 and 105, at offset 8; the pointer skips the GC header. *)
Lemma ensureStaticString_hi :
  exists c1,
    ensureStaticString Examples.ensureGCHook [104; 105]
      (Examples.compiler Examples.programGC Examples.options32)
      = Returned (ConstI32 16) c1 /\
    memorySegments c1
      = [{| buffer := [0; 0; 0; 0; 0; 0; 0; 0; 2; 0; 0; 0; 104; 0; 105; 0]; offset := 8 |}] /\
    memoryOffset c1 = 24.
Proof. eexists. split; [vm_compute; reflexivity|]. split; reflexivity. Qed.

Lemma ensureStaticString_canonical_witness :
  exists hook pointer c1 c2,
    let s := [104; 105] in
    let c := Examples.compiler Examples.programGC Examples.options32 in
    let segment :=
      MemorySegment_create
        (gcHeaderOf Examples.programGC hook ++ field32 4 0 2 ++ codeUnits s) 8 in
    ensureStaticString Examples.ensureGCHook s c = Returned pointer c1 /\
    ensureStaticString Examples.ensureGCHook s c1 = Returned pointer c2 /\
    memorySegments c1 = [segment] /\
    memorySegments c2 = memorySegments c1 /\
    pointer = ConstI32 16 /\
    (true = true -> exists c0, Examples.ensureGCHook Examples.stringClass c = Returned hook c0).
Proof.
  apply (ensureStaticString_canonical Examples.ensureGCHook Examples_ensureGCHook_frame
           [104; 105] (Examples.compiler Examples.programGC Examples.options32)
           Examples.stringClass 0).
  - reflexivity.
  - reflexivity.
  - vm_compute. split; discriminate.
  - intros _. vm_compute. split; discriminate.
  - vm_compute. discriminate.
  - vm_compute. reflexivity.
  - reflexivity.
Defined.

(** C1, on the code.  [f(a: i32, b: i32 = 2)] is compiled and has no table
    entry.  The first [ensureFunctionTableEntry(f)] returns 0 and puts
    [f]'s trampoline into slot 0; it records the index on the trampoline
    and leaves [f.functionTableIndex] at -1, so the second call returns 1
    and appends the trampoline once more. *)
Theorem ensureFunctionTableEntry_twice :
  exists c1 c2 f1 t1,
    ensureFunctionTableEntry Examples.compileExpression 1%nat Examples.c32 = Returned 0 c1 /\
    functionTable c1 = ["f|trampoline"] /\
    heap c1 !! 1%nat = Some f1 /\
    Function.functionTableIndex f1 = -1 /\
    Function.trampoline f1 = Some 4%nat /\
    heap c1 !! 4%nat = Some t1 /\
    Function.internalName t1 = "f|trampoline" /\
    Function.functionTableIndex t1 = 0 /\
    ensureFunctionTableEntry Examples.compileExpression 1%nat c1 = Returned 1 c2 /\
    functionTable c2 = ["f|trampoline"; "f|trampoline"].
Proof.
  destruct (ensureFunctionTableEntry Examples.compileExpression 1%nat Examples.c32)
    as [i c1|] eqn:E1; vm_compute in E1; [|discriminate].
  injection E1 as <- <-.
  eexists. eexists. eexists. eexists.
  split; [reflexivity|]. split; [reflexivity|]. split; [reflexivity|].
  split; [reflexivity|]. split; [reflexivity|]. split; [reflexivity|].
  split; [reflexivity|]. split; [reflexivity|].
  split; vm_compute; reflexivity.
Qed.

(** When compiling an initializer enters a function into the table, as for
    [k(a: i32, cb: i32 = g)], the index returned for [k] was read before
    the trampoline was made: slot 0 names [g], and the trampoline is in
    slot 1. *)
Lemma ensureFunctionTableEntry_initializer_entry :
  exists c1,
    ensureFunctionTableEntry Examples.compileExpression_referencing 4%nat Examples.c32k
      = Returned 0 c1 /\
    functionTable c1 = ["g"; "k|trampoline"].
Proof. eexists. split; vm_compute; reflexivity. Qed.

(** C2 fails as stated: [imp(a: i32, b?: i32)] is a module import; called
    with one operand, its omitted parameter having no constant initializer,
    it gets a bare [call_import] with a zero for [b], not a block that sets
    [~argc] and calls a trampoline. *)
Lemma makeCallDirect_routing_counterexample :
  exists c' imp',
    allOptionalsAreConstant (FunctionPrototype.parameters (Function.prototype Examples.imp))
      (omittedOf Examples.imp 1) = Some false /\
    makeCallDirect Examples.compileExpression Examples.compileFunction_uncompiled
      3%nat (Some [ConstI32 5]) Examples.c32
    = Returned (CallImport "imp" [ConstI32 5; ConstI32 0] NativeType.I32) c' /\
    heap c' !! 3%nat = Some imp' /\
    Function.trampoline imp' = None /\
    argcVar c' = 0 /\
    globals (module c') = [].
Proof.
  eexists. eexists. split; [reflexivity|].
  split; [vm_compute; reflexivity|].
  repeat split; reflexivity.
Qed.

Lemma makeCallDirect_import_witness :
  exists c',
    makeCallDirect Examples.compileExpression Examples.compileFunction_uncompiled
      3%nat (Some [ConstI32 5]) Examples.c32
    = Returned (CallImport "imp" [ConstI32 5; ConstI32 0] NativeType.I32) c' /\
    createdBy Examples.c32 c'
      = [ConstI32 0; CallImport "imp" [ConstI32 5; ConstI32 0] NativeType.I32] /\
    heap c' = heap Examples.c32 /\
    functions (module c') = [] /\
    globals (module c') = [] /\
    argcVar c' = 0.
Proof.
  apply (makeCallDirect_import Examples.compileExpression Examples.compileFunction_uncompiled
           3%nat (Some [ConstI32 5]) Examples.c32 Examples.c32 Examples.imp Examples.imp
           eq_refl ltac:(vm_compute; discriminate) eq_refl eq_refl [ConstI32 0]
           eq_refl eq_refl eq_refl eq_refl).
Defined.

Lemma makeCallDirect_routing_witness :
  (exists c',
     makeCallDirect Examples.compileExpression Examples.compileFunction_uncompiled
       1%nat (Some [ConstI32 5; ConstI32 7]) Examples.c32
     = Returned (Call "f" [ConstI32 5; ConstI32 7] NativeType.I32) c') /\
  (exists c',
     makeCallDirect Examples.compileExpression Examples.compileFunction_uncompiled
       4%nat (Some [ConstI32 5]) Examples.c32f3
     = Returned (Call "f3" [ConstI32 5; ConstI32 2; ConstI32 3] NativeType.I32) c') /\
  (exists c',
     makeCallDirect Examples.compileExpression Examples.compileFunction_uncompiled
       2%nat (Some [ConstI32 5]) Examples.c32
     = Returned
         (Block None
            [SetGlobal "~argc" (ConstI32 1);
             Call "h|trampoline" [ConstI32 5; ConstI32 0] NativeType.I32]
            NativeType.I32) c').
Proof.
  split; [|split].
  - apply (makeCallDirect_routing Examples.compileExpression
             Examples.compileFunction_uncompiled 1%nat (Some [ConstI32 5; ConstI32 7])
             Examples.c32 Examples.c32 Examples.f Examples.f
             eq_refl ltac:(vm_compute; discriminate) eq_refl eq_refl).
    vm_compute. discriminate.
  - destruct (makeCallDirect_routing Examples.compileExpression
                Examples.compileFunction_uncompiled 4%nat (Some [ConstI32 5])
                Examples.c32f3 Examples.c32f3 Examples.f3 Examples.f3
                eq_refl ltac:(vm_compute; discriminate) eq_refl eq_refl)
      as (_ & Hinline & _).
    assert (exists c1,
              initializersCompiled Examples.compileExpression
                (FunctionPrototype.parameters (Function.prototype Examples.f3))
                (Signature.parameterTypes (Function.signature Examples.f3))
                [1; 2] Examples.c32f3 [ConstI32 2; ConstI32 3] c1 /\
              heap c1 !! 4%nat = Some Examples.f3) as (c1 & Hcompiled & Hheap).
    { eexists. split.
      - eapply initializersCompiled_cons;
          [reflexivity | reflexivity | reflexivity | reflexivity |].
        eapply initializersCompiled_cons;
          [reflexivity | reflexivity | reflexivity | reflexivity |].
        apply initializersCompiled_nil.
      - reflexivity. }
    exact (Hinline eq_refl eq_refl [ConstI32 2; ConstI32 3] c1 Examples.f3 Hcompiled Hheap).
  - destruct (ensureTrampoline Examples.compileExpression 2%nat
                (recordNodes [ConstI32 0] Examples.c32)) as [t c1|] eqn:E.
    + assert (E' := E). vm_compute in E'. injection E' as Hi Hc. subst t c1.
      destruct (makeCallDirect_routing Examples.compileExpression
                  Examples.compileFunction_uncompiled 2%nat (Some [ConstI32 5])
                  Examples.c32 Examples.c32 Examples.h Examples.h
                  eq_refl ltac:(vm_compute; discriminate) eq_refl eq_refl)
        as (_ & _ & Htramp).
      exact (Htramp eq_refl eq_refl eq_refl [ConstI32 0] _ _ _ _ eq_refl E
               eq_refl eq_refl eq_refl).
    + vm_compute in E. discriminate.
Defined.

(** [const enum E { A = n, B }], with [n] a local: [A] is initialized in the
    start function, and [B] gets the diagnostic.  [enum F { X }]: [X] is 0. *)
Lemma compileEnum_member_without_initializer_witness :
  let A := {| EnumValue.kind := ElementKind.ENUMVALUE; EnumValue.internalName := "E.A";
              EnumValue.value := Some (Examples.identifier "n");
              EnumValue.range := Examples.noRange |} in
  let B := {| EnumValue.kind := ElementKind.ENUMVALUE; EnumValue.internalName := "E.B";
              EnumValue.value := None; EnumValue.range := Examples.noRange |} in
  let E := {| Enum.internalName := "E"; Enum.members := Some [A; B] |} in
  let c := set_elementFlags {[ "E" := CommonFlags.CONST ]} Examples.c32 in
  let X := {| EnumValue.kind := ElementKind.ENUMVALUE; EnumValue.internalName := "F.X";
              EnumValue.value := None; EnumValue.range := Examples.noRange |} in
  let F := {| Enum.internalName := "F"; Enum.members := Some [X] |} in
  (exists c0 c1 c' init,
     foldM (compileEnum_member Examples.compileExpression Examples.precomputeExpression E)
       [A] (None, false) (compileEnum_begin E c) = Returned (Some A, true) c0 /\
     initialized E A init c0 /\
     isConst init = false /\
     diagnostics c1 = (diagnostics c0 ++ [mustHaveInitializer B])%list /\
     compileEnum Examples.compileExpression Examples.precomputeExpression E c
       = Returned true c' /\
     diagnostics c'
       = [mustBeConstant Examples.noRange; mustHaveInitializer B;
          mustBeConstant Examples.noRange] /\
     startFunctionBody c'
       = [SetGlobal "E.A" (GetLocal 2 NativeType.I32);
          SetGlobal "E.B" (previousPlusOne A)]) /\
  (exists c',
     compileEnum_member Examples.compileExpression Examples.precomputeExpression
       F (None, false) X (compileEnum_begin F Examples.c32) = Returned (Some X, false) c' /\
     globals (module c') = [enumGlobal X (negb (isConstEnum F c')) (ConstI32 0)] /\
     startFunctionBody c' = [] /\
     diagnostics c' = []).
Proof.
  intros A B E c X F. split.
  - pose proof (compileEnum_member_without_initializer Examples.compileExpression
                  Examples.precomputeExpression E [A] B [] c eq_refl eq_refl eq_refl eq_refl)
      as H.
    destruct (foldM (compileEnum_member Examples.compileExpression
                       Examples.precomputeExpression E)
                [A] (None, false) (compileEnum_begin E c))
      as [[previousValue previousValueIsMut] c0|] eqn:E1.
    + assert (previousValue = Some A /\ previousValueIsMut = true) as [-> ->].
      { assert (E1' := E1). vm_compute in E1'. injection E1' as <- <- _.
        split; reflexivity. }
      cbv zeta in H.
      destruct H as (_ & _ & (init & Hinit & Hflag) & c1 & Hdiagnostics & _).
      exists c0, c1. eexists. exists init.
      split; [reflexivity|]. split; [exact Hinit|].
      split; [destruct (isConst init); [discriminate Hflag | reflexivity]|].
      split; [exact Hdiagnostics|].
      split; [vm_compute; reflexivity|]. split; reflexivity.
    + vm_compute in E1. discriminate E1.
  - destruct (compileEnum_member_without_initializer Examples.compileExpression
                Examples.precomputeExpression F [] X [] Examples.c32
                eq_refl eq_refl eq_refl eq_refl) as (_ & _ & _ & H).
    exact H.
Defined.

(** * More facts at concrete inputs *)

Lemma Examples_compileExpression_stable (e : Expression) (t : Type_.t) (k : ConversionKind)
    (w : WrapMode) (c : Compiler) :
  exists r c', Examples.compileExpression e t k w c = Returned r c' /\ stable c c'.
Proof.
  unfold Examples.compileExpression.
  destruct e as [v r | kind name r | callee arguments r | op left right r];
    try destruct kind; try destruct (Examples.localOf name) as [[index type]|];
    (eexists; eexists; split; [reflexivity | apply stable_heap; reflexivity]).
Qed.

Lemma Examples_precomputeExpression_folds (c : Compiler) (name : string) (v : Z) :
  immutableConstant (globals (module c)) name = Some v ->
  - 2 ^ 31 <= v + 1 < 2 ^ 31 ->
  exists c',
    Examples.precomputeExpression (Binary AddI32 (GetGlobal name NativeType.I32) (ConstI32 1)) c
      = Returned (ConstI32 (v + 1)) c' /\
    sameDeclarations c c'.
Proof.
  intros H _. unfold Examples.precomputeExpression. rewrite bind_gets.
  change (Examples.constantGlobal (globals (module c)) name)
    with (immutableConstant (globals (module c)) name).
  rewrite H. eexists. split; [reflexivity|]. repeat split; reflexivity.
Qed.

(** A pool of two function types, [(i32) -> i32] and [(i32, i32) -> none]:
    asking for [(u8) -> bool] finds the first, and asking for a method
    [(f64) -> i32] on an [i32] adds a third. *)
Lemma ensureFunctionType_pool_witness :
  let pool :=
    match (ensureFunctionType (Some [Type_.i32]) Type_.i32 None ;;
           ensureFunctionType (Some [Type_.i32; Type_.i32]) Type_.void None) Examples.c32 with
    | Returned _ c => c
    | Thrown => Examples.c32
    end in
  map signatureOf (functionTypes (module pool))
    = [(NativeType.I32, [NativeType.I32]);
       (NativeType.None, [NativeType.I32; NativeType.I32])] /\
  (exists ref c',
     ensureFunctionType (Some [Type_.u8]) Type_.bool None pool = Returned ref c' /\
     signatureOf <$> functionTypeAt c' ref = Some (NativeType.I32, [NativeType.I32]) /\
     NoDup (map signatureOf (functionTypes (module c'))) /\
     (length (functionTypes (module c')) <= 3)%nat /\
     (forall r t, functionTypeAt pool r = Some t -> functionTypeAt c' r = Some t)) /\
  (exists ref c',
     ensureFunctionType (Some [Type_.f64]) Type_.i32 (Some Type_.i32) pool = Returned ref c' /\
     signatureOf <$> functionTypeAt c' ref
       = Some (NativeType.I32, [NativeType.I32; NativeType.F64]) /\
     NoDup (map signatureOf (functionTypes (module c'))) /\
     (length (functionTypes (module c')) <= 3)%nat /\
     (forall r t, functionTypeAt pool r = Some t -> functionTypeAt c' r = Some t)).
Proof.
  intros pool.
  assert (NoDup (map signatureOf (functionTypes (module pool)))) as Hpool.
  { vm_compute. apply NoDup_cons_2; [|apply NoDup_singleton].
    intros H. apply list_elem_of_singleton in H. discriminate H. }
  split; [vm_compute; reflexivity|]. split.
  - apply (ensureFunctionType_pool (Some [Type_.u8]) Type_.bool None pool Hpool).
  - apply (ensureFunctionType_pool (Some [Type_.f64]) Type_.i32 (Some Type_.i32) pool Hpool).
Defined.

Lemma ensureFunctionType_shared_witness :
  exists ref c',
    ensureFunctionType (Some [Type_.i32]) Type_.i32 None Examples.c32 = Returned ref c' /\
    ensureFunctionType (Some [Type_.u8]) Type_.bool None c' = Returned ref c'.
Proof.
  apply (ensureFunctionType_shared (Some [Type_.i32]) (Some [Type_.u8]) Type_.i32 Type_.bool
           None None Examples.c32).
  reflexivity.
Defined.

Lemma ensureFunctionTableEntry_stable_index_witness :
  exists index c1,
    ensureFunctionTableEntry Examples.compileExpression 0%nat Examples.c32
      = Returned index c1 /\
    lookupZ (functionTable c1) index = Some "start" /\
    functionTable c1 = ["start"] /\
    ensureFunctionTableEntry Examples.compileExpression 0%nat c1 = Returned index c1.
Proof.
  apply (ensureFunctionTableEntry_stable_index Examples.compileExpression 0%nat Examples.c32
           Examples.start).
  - reflexivity.
  - reflexivity.
  - reflexivity.
  - reflexivity.
Defined.

Lemma convertExpression_same_type_witness :
  exists c',
    convertExpression Examples.canOverflow Examples.isAssignableTo
      (GetLocal 2 NativeType.I32) Type_.i32 Type_.i32 IMPLICIT WrapMode_NONE
      (IntegerLiteralExpression 0 Examples.noRange) Examples.c32
    = Returned (GetLocal 2 NativeType.I32) c' /\
    created (module c') = [] /\
    currentType c' = Type_.i32.
Proof.
  apply (convertExpression_same_type Examples.canOverflow Examples.isAssignableTo
           (GetLocal 2 NativeType.I32) Type_.i32 IMPLICIT
           (IntegerLiteralExpression 0 Examples.noRange) Examples.c32).
  - discriminate.
  - discriminate.
Defined.

Lemma convertExpression_reports_witness :
  exists r c',
    convertExpression Examples.canOverflow Examples.isAssignableTo
      (GetLocal 2 NativeType.I32) Type_.i32 Type_.u8 IMPLICIT WrapMode_NONE
      (IntegerLiteralExpression 0 Examples.noRange) Examples.c32
    = Returned r c' /\
    currentType c' = Type_.u8 /\
    diagnostics c'
      = [requiresExplicitCast Type_.i32 Type_.u8 (IntegerLiteralExpression 0 Examples.noRange)].
Proof.
  apply (convertExpression_reports Examples.canOverflow Examples.isAssignableTo
           (GetLocal 2 NativeType.I32) Type_.i32 Type_.u8 IMPLICIT WrapMode_NONE
           (IntegerLiteralExpression 0 Examples.noRange) Examples.c32 Examples.start).
  - reflexivity.
  - discriminate.
  - discriminate.
  - discriminate.
  - intros H. vm_compute in H. discriminate H.
Defined.

Lemma addMemorySegments_disjoint_witness :
  exists segments c',
    addMemorySegments [([1; 2; 3], 8); ([4], 4)]
      (Compiler_new Examples.program0 Examples.options32) = Returned segments c' /\
    memorySegments c' = segments /\
    Forall (fun s => 8 <= offset s) segments /\
    (forall (i j : nat) (si sj : MemorySegment),
       (i < j)%nat -> segments !! i = Some si -> segments !! j = Some sj ->
       segmentEnd si <= offset sj).
Proof.
  destruct (addMemorySegments_disjoint Examples.program0 Examples.options32
              [([1; 2; 3], 8); ([4], 4)])
    as (segments & c' & Hrun & Hsegments & _ & Hbase & Hdisjoint & _).
  - vm_compute. split; [discriminate | reflexivity].
  - vm_compute. reflexivity.
  - vm_compute. reflexivity.
  - exists segments, c'.
    split; [exact Hrun|]. split; [exact Hsegments|]. split; [exact Hbase | exact Hdisjoint].
Defined.

Lemma compile_memory_heap_base_witness :
  let c :=
    set_memoryOffset 11
      (set_memorySegments [{| buffer := [1; 2; 3]; offset := 8 |}] Examples.c32) in
  exists base c',
    compile_memory c = Returned tt c' /\
    globals (module c') = [heapBase Examples.options32 base] /\
    base = memoryOffset c' /\
    (4 | base) /\
    Forall (fun s => segmentEnd s <= base) (memorySegments c').
Proof.
  intros c.
  destruct (compile_memory_heap_base c)
    as (base & c' & Hrun & Hglobals & Hbase & Haligned & _ & Hsegments).
  - vm_compute. split; [discriminate | reflexivity].
  - repeat constructor. vm_compute. discriminate.
  - exists base, c'.
    split; [exact Hrun|]. split; [exact Hglobals|]. split; [exact Hbase|].
    split; [exact Haligned | exact Hsegments].
Defined.

Lemma compile_memory_covers_segments_witness :
  let c :=
    set_memoryOffset 11
      (set_memorySegments [{| buffer := [1; 2; 3]; offset := 8 |}] Examples.c32) in
  exists c' m,
    compile_memory c = Returned tt c' /\
    memory (module c') = Some m /\
    memory_exportName m = "memory" /\
    memory_segments m = [{| buffer := [1; 2; 3]; offset := 8 |}] /\
    Forall (fun s => segmentEnd s <= memory_initial m * 65536) (memory_segments m) /\
    0 <= memory_initial m <= memory_maximum m.
Proof.
  intros c.
  apply (compile_memory_covers_segments c).
  - vm_compute. split; discriminate.
  - repeat constructor. vm_compute. discriminate.
Defined.

Lemma ensureTrampoline_once_witness :
  exists t c' tr,
    ensureTrampoline Examples.compileExpression 2%nat Examples.c32 = Returned t c' /\
    heap c' !! t = Some tr /\
    Function.internalName tr = "h|trampoline" /\
    FunctionOps.is_ tr CommonFlags.COMPILED = true /\
    ensureTrampoline Examples.compileExpression 2%nat c' = Returned t c'.
Proof.
  apply (ensureTrampoline_once Examples.compileExpression Examples_compileExpression_stable
           2%nat Examples.c32 Examples.h).
  - reflexivity.
  - reflexivity.
  - vm_compute. split; [discriminate | reflexivity].
  - reflexivity.
Defined.

Lemma ensureTrampoline_forwards_witness :
  exists t c' fs def body,
    ensureTrampoline Examples.compileExpression 1%nat Examples.c32 = Returned t c' /\
    functions (module c') = (fs ++ [def])%list /\
    function_name def = "f|trampoline" /\
    function_body def
      = Block None
          [body;
           Call "f" [GetLocal 0 NativeType.I32; GetLocal 1 NativeType.I32] NativeType.I32]
          NativeType.I32.
Proof.
  pose proof (ensureTrampoline_forwards Examples.compileExpression
                Examples_compileExpression_stable 1%nat Examples.c32 Examples.f) as H.
  cbv zeta in H.
  destruct H as (t & c' & fs & def & body & Hrun & Hfs & Hname & Hbody & _).
  - reflexivity.
  - reflexivity.
  - vm_compute. split; [discriminate | reflexivity].
  - reflexivity.
  - exists t, c', fs, def, body.
    split; [exact Hrun|]. split; [exact Hfs|]. split; [exact Hname | exact Hbody].
Defined.

(** [f] gets its trampoline when it is exported; [h] has one already, made
    by an earlier [ensureTrampoline], and is exported through that one. *)
Lemma makeModuleExport_function_exports_witness :
  let c1 :=
    match ensureTrampoline Examples.compileExpression 2%nat Examples.c32 with
    | Returned _ c => c
    | Thrown => Examples.c32
    end in
  (exists c',
     makeModuleExport_function Examples.compileExpression "f" 1%nat "" Examples.c32
       = Returned tt c' /\
     (exists exports,
        functionExports (module c') = (exports ++ [("f|trampoline", "f")])%list) /\
     argcSet c' <> 0) /\
  (exists h1, heap c1 !! 2%nat = Some h1 /\ Function.trampoline h1 = Some 4%nat) /\
  (exists c',
     makeModuleExport_function Examples.compileExpression "h" 2%nat "" c1
       = Returned tt c' /\
     (exists exports,
        functionExports (module c') = (exports ++ [("h|trampoline", "h")])%list) /\
     argcSet c' <> 0 /\
     heap c' = heap c1).
Proof.
  intros c1. split; [|split].
  - destruct (makeModuleExport_function_exports Examples.compileExpression
                Examples_compileExpression_stable "f" "" 1%nat Examples.c32 Examples.f)
      as (c' & Hrun & Hexports & Hargc & _).
    + reflexivity.
    + intros t Ht. discriminate Ht.
    + vm_compute. discriminate.
    + reflexivity.
    + exists c'. split; [exact Hrun|]. split; [exact Hexports | exact Hargc].
  - eexists. split; vm_compute; reflexivity.
  - destruct (makeModuleExport_function_exports Examples.compileExpression
                Examples_compileExpression_stable "h" "" 2%nat c1
                (default Examples.h (heap c1 !! 2%nat)))
      as (c' & Hrun & Hexports & Hargc & Hheap).
    + vm_compute. reflexivity.
    + intros t Ht. vm_compute in Ht. injection Ht as <-.
      eexists. split; [vm_compute; reflexivity|]. split; vm_compute; reflexivity.
    + vm_compute. discriminate.
    + reflexivity.
    + exists c'. split; [exact Hrun|]. split; [exact Hexports|].
      split; [exact Hargc|]. apply (Hheap 4%nat). vm_compute. reflexivity.
Defined.

Lemma makeCallDirect_arity_witness :
  exists e c',
    makeCallDirect Examples.compileExpression Examples.compileFunction_uncompiled
      1%nat (Some [ConstI32 5]) Examples.c32 = Returned e c' /\
    (e = Unreachable \/
     exists ops, callOperands e = Some ops /\ Z.of_nat (length ops) = 2).
Proof.
  destruct (makeCallDirect Examples.compileExpression Examples.compileFunction_uncompiled
              1%nat (Some [ConstI32 5]) Examples.c32) as [e c'|] eqn:E.
  - exists e, c'. split; [reflexivity|].
    apply (makeCallDirect_arity Examples.compileExpression
             Examples.compileFunction_uncompiled 1%nat (Some [ConstI32 5])
             Examples.c32 Examples.c32 Examples.f Examples.f
             eq_refl ltac:(vm_compute; discriminate) eq_refl eq_refl e c' E).
  - vm_compute in E. discriminate E.
Defined.

Lemma compileEnum_const_numbering_witness :
  let member := fun name =>
    {| EnumValue.kind := ElementKind.ENUMVALUE; EnumValue.internalName := name;
       EnumValue.value := None; EnumValue.range := Examples.noRange |} in
  let members := [member "E.A"; member "E.B"; member "E.C"] in
  let E := {| Enum.internalName := "E"; Enum.members := Some members |} in
  let c := set_elementFlags {[ "E" := CommonFlags.CONST ]} Examples.c32 in
  exists c',
    compileEnum Examples.compileExpression Examples.precomputeExpression E c
      = Returned true c' /\
    globals (module c')
      = [enumGlobal (member "E.A") false (ConstI32 0);
         enumGlobal (member "E.B") false (ConstI32 1);
         enumGlobal (member "E.C") false (ConstI32 2)] /\
    startFunctionBody c' = [] /\
    diagnostics c' = [] /\
    currentEnum c' = None.
Proof.
  intros member members E c.
  apply (compileEnum_const_numbering Examples.compileExpression Examples.precomputeExpression
           Examples_precomputeExpression_folds E members c).
  - reflexivity.
  - repeat constructor.
  - apply (bool_decide_unpack _). vm_compute. exact I.
  - repeat constructor.
  - vm_compute. reflexivity.
  - vm_compute. reflexivity.
  - vm_compute. discriminate.
Defined.

Lemma ensureStaticString_distinct_witness :
  let c := Examples.compiler Examples.programGC Examples.options32 in
  exists ps pt ss st c1 c2 c3,
    ensureStaticString Examples.ensureGCHook [104; 105] c = Returned ps c1 /\
    ensureStaticString Examples.ensureGCHook [104] c1 = Returned pt c2 /\
    ensureStaticString Examples.ensureGCHook [104; 105] c2 = Returned ps c3 /\
    memorySegments c2 = [ss; st] /\
    segmentEnd ss <= offset st /\
    ps <> pt.
Proof.
  intros c.
  destruct (ensureStaticString_distinct Examples.ensureGCHook Examples_ensureGCHook_frame
              [104; 105] [104] c Examples.stringClass 0)
    as (ps & pt & ss & st & c1 & c2 & c3 & H1 & H2 & H3 & Hms & _ & Hend & _ & _ & Hne).
  - reflexivity.
  - reflexivity.
  - vm_compute. split; discriminate.
  - intros _. vm_compute. split; discriminate.
  - vm_compute. discriminate.
  - vm_compute. reflexivity.
  - discriminate.
  - reflexivity.
  - reflexivity.
  - exists ps, pt, ss, st, c1, c2, c3.
    split; [exact H1|]. split; [exact H2|]. split; [exact H3|].
    split; [exact Hms|]. split; [exact Hend | exact Hne].
Defined.

Lemma compileLiteralExpression_integer_fits_witness :
  let c := set_currentType Type_.i8 Examples.c32 in
  exists e c',
    compileLiteralExpression_integer (fun _ => false) (fun _ => false) 200 Type_.i8 false c
      = Returned e c' /\
    e = constantOf (currentType c') 200 /\
    currentType c' = Type_.i32 /\
    created (module c') = [e].
Proof.
  intros c.
  pose proof (compileLiteralExpression_integer_fits (fun _ => false) (fun _ => false)
                200 Type_.i8 false c) as H.
  cbv zeta in H.
  destruct H as (e & c' & Hrun & He & _ & Htype & Hcreated).
  - vm_compute. split; [discriminate | reflexivity].
  - reflexivity.
  - exact I.
  - exists e, c'.
    split; [exact Hrun|]. split; [exact He|]. split; [exact Htype | exact Hcreated].
Defined.

Lemma compileInlineConstant_typed_witness :
  let element :=
    {| VariableLikeElement.flags := CommonFlags.INLINED;
       VariableLikeElement.type := Type_.i32;
       VariableLikeElement.constantValueKind := ConstantValueKind.INTEGER;
       VariableLikeElement.constantIntegerValue := 7;
       VariableLikeElement.constantFloatValue := 0;
       VariableLikeElement.isBuiltin := false |} in
  exists e c',
    compileInlineConstant (fun _ _ => 24) (fun _ _ => 255) element Type_.i64 false Examples.c32
      = Returned e c' /\
    currentType c' = Type_.i64 /\
    constantType e = Some NativeType.I64 /\
    e = constantOf Type_.i64 7.
Proof.
  intros element.
  pose proof (compileInlineConstant_typed (fun _ _ => 24) (fun _ _ => 255) element
                Type_.i64 false Examples.c32) as H.
  cbv zeta in H.
  destruct H as (e & c' & Hrun & Htype & Hnative & Hvalue & _).
  - reflexivity.
  - discriminate.
  - exact I.
  - exists e, c'.
    split; [exact Hrun|]. split; [exact Htype|].
    split; [rewrite Hnative, Htype; reflexivity | exact (Hvalue eq_refl)].
Defined.

Lemma Examples_compileExpression_keeps (e : Expression) (t : Type_.t) (k : ConversionKind)
    (w : WrapMode) (c : Compiler) :
  exists r c', Examples.compileExpression e t k w c = Returned r c' /\ keepsCompiled c c'.
Proof.
  unfold Examples.compileExpression.
  destruct e as [v r | kind name r | callee arguments r | op left right r];
    try destruct kind; try destruct (Examples.localOf name) as [[index type]|];
    (eexists; eexists; split; [reflexivity | intros n H; exact H]).
Qed.

Lemma Examples_precomputeExpression_keeps (e : ExpressionRef) (c : Compiler) :
  exists r c', Examples.precomputeExpression e c = Returned r c' /\ keepsCompiled c c'.
Proof.
  unfold Examples.precomputeExpression. rewrite bind_gets.
  destruct e as [| | | | | |? ?|op l r| | | | | | | | |];
    try (eexists; eexists; split; [reflexivity | intros n H; exact H]).
  destruct op; try (eexists; eexists; split; [reflexivity | intros n H; exact H]).
  destruct l; try (eexists; eexists; split; [reflexivity | intros n H; exact H]).
  destruct r; try (eexists; eexists; split; [reflexivity | intros n H; exact H]).
  destruct (Examples.constantGlobal (globals (module c)) name);
    (eexists; eexists; split; [reflexivity | intros n H; exact H]).
Qed.

Lemma compileEnum_once_witness :
  let A := {| EnumValue.kind := ElementKind.ENUMVALUE; EnumValue.internalName := "E.A";
              EnumValue.value := Some (IntegerLiteralExpression 5 Examples.noRange);
              EnumValue.range := Examples.noRange |} in
  let B := {| EnumValue.kind := ElementKind.ENUMVALUE; EnumValue.internalName := "E.B";
              EnumValue.value := None; EnumValue.range := Examples.noRange |} in
  let E := {| Enum.internalName := "E"; Enum.members := Some [A; B] |} in
  exists c',
    compileEnum Examples.compileExpression Examples.precomputeExpression E Examples.c32
      = Returned true c' /\
    isEnumCompiled E c' = true /\
    currentEnum c' = None /\
    isCompiled "E.A" c' = true /\
    isCompiled "E.B" c' = true /\
    compileEnum Examples.compileExpression Examples.precomputeExpression E c'
      = Returned true c'.
Proof.
  intros A B E.
  destruct (compileEnum_once Examples.compileExpression Examples.precomputeExpression
              Examples_compileExpression_keeps Examples_precomputeExpression_keeps
              E Examples.c32) as (c' & Hrun & Hcompiled & _ & Hfirst & Hagain).
  destruct (Hfirst eq_refl) as [Hcurrent Hmembers].
  pose proof (Hmembers [A; B] eq_refl) as Hall.
  exists c'. split; [exact Hrun|]. split; [exact Hcompiled|]. split; [exact Hcurrent|].
  split; [exact (Forall_inv Hall eq_refl)|].
  split; [exact (Forall_inv (Forall_inv_tail Hall) eq_refl) | exact Hagain].
Defined.
